(** * The notification sender of [src/sender.py]

    A shallow embedding of the four classes of the module: [Message],
    [SendQueue] (over [queue.PriorityQueue], that is over [heapq]),
    [RateLimiter] and [SenderThread], followed by the properties the
    specification states about them.

    Conventions of the embedding.
    - Python floats that hold times, delays and token counts are exact
      rationals ([Q]) in the methods; Python ints are [Z].  Where a
      statement depends on how the code rounds, the arithmetic is stated
      again over the doubles themselves (module [b64], from the Standard
      Library's [SpecFloat]), and the statement is about that.
    - [time.monotonic()] and [random.random()] read an environment: the
      k-th reading of the clock and the k-th draw of the generator.
    - Methods that mutate [self] or call collaborators are computations in
      a state-and-exception monad [M].  A call into a collaborator (the
      queue, the metrics, the transport that [time.sleep(send_time)]
      stands for) may raise: the environment decides, per call, whether
      it does.  The clock, the generator, the [logging] module and
      [time.sleep(0.1)] do not raise.
    - [queue.get()] on an empty queue blocks; a blocked computation is the
      result [Blocked], which no handler catches. *)

From Stdlib Require Import ZArith QArith Qpower Lia Lqa String Zify ZifyNat.
From Stdlib Require SpecFloat.
From stdpp Require Import base list.

Local Open Scope Z_scope.

(** ** Rational comparisons as the booleans Python computes *)

Definition Qltb (x y : Q) : bool := (Qnum x * QDen y <? Qnum y * QDen x)%Z.

(** ** class Message *)

Record Message := mkMessage {
  body : string;
  send_at : Q;
  queued_at : Q;
  attempt : Z
}.

(** [Message.__init__] with the default [attempt = 0]. *)
Definition Message_init (body : string) (send_at queued_at : Q) : Message :=
  mkMessage body send_at queued_at 0.

(** [Message.__lt__]. *)
Definition Message_lt (self other : Message) : bool :=
  Qltb (send_at self) (send_at other).

(** The construction of [make_next_attempt] once [time.monotonic()] has
    returned [now]; the method itself is [make_next_attempt] below. *)
Definition next_attempt_at (self : Message) (now delay : Q) : Message :=
  let send_at := (now + delay)%Q in
  mkMessage (body self) send_at (queued_at self) (attempt self + 1).

(** ** heapq, as [queue.PriorityQueue] uses it

    [PriorityQueue._put] is [heappush(self.queue, item)] and
    [PriorityQueue._get] is [heappop(self.queue)]; the heap is a Python
    list, here a [list Message] read with [!!] and written with
    [<[i:=x]>].  Every index the functions use is in range; the [None]
    branches are the [IndexError]s that cannot happen and leave the list
    as it is. *)

Module heapq.

(** The [while pos > startpos] loop of [_siftdown]; [fuel] bounds the
    number of turns, and [pos] turns are always enough. *)
Fixpoint siftdown_loop (fuel : nat) (heap : list Message) (newitem : Message)
    (startpos pos : nat) : list Message :=
  match fuel with
  | O => <[pos := newitem]> heap
  | S fuel' =>
      if (startpos <? pos)%nat then
        let parentpos := ((pos - 1) / 2)%nat in
        match heap !! parentpos with
        | Some parent =>
            if Message_lt newitem parent
            then siftdown_loop fuel' (<[pos := parent]> heap) newitem startpos parentpos
            else <[pos := newitem]> heap
        | None => heap
        end
      else <[pos := newitem]> heap
  end.

Definition _siftdown (heap : list Message) (startpos pos : nat) : list Message :=
  match heap !! pos with
  | Some newitem => siftdown_loop pos heap newitem startpos pos
  | None => heap
  end.

(** [heap[childpos] < heap[rightpos]]. *)
Definition lt_at (heap : list Message) (i j : nat) : bool :=
  match heap !! i, heap !! j with
  | Some a, Some b => Message_lt a b
  | _, _ => false
  end.

(** The [while childpos < endpos] loop of [_siftup]: the smaller child
    moves up until [pos] is a leaf; returns the list and the leaf. *)
Fixpoint siftup_loop (fuel : nat) (heap : list Message) (pos : nat)
    : list Message * nat :=
  match fuel with
  | O => (heap, pos)
  | S fuel' =>
      let endpos := length heap in
      let childpos := (2 * pos + 1)%nat in
      if (childpos <? endpos)%nat then
        let rightpos := (childpos + 1)%nat in
        let childpos :=
          if (rightpos <? endpos)%nat && negb (lt_at heap childpos rightpos)
          then rightpos else childpos in
        match heap !! childpos with
        | Some child => siftup_loop fuel' (<[pos := child]> heap) childpos
        | None => (heap, pos)
        end
      else (heap, pos)
  end.

Definition _siftup (heap : list Message) (pos : nat) : list Message :=
  let startpos := pos in
  match heap !! pos with
  | Some newitem =>
      let '(heap, pos) := siftup_loop (length heap) heap pos in
      let heap := <[pos := newitem]> heap in
      _siftdown heap startpos pos
  | None => heap
  end.

Definition heappush (heap : list Message) (item : Message) : list Message :=
  let heap := heap ++ [item] in
  _siftdown heap 0 (length heap - 1).

(** [heap.pop()]: the last element and the list without it. *)
Definition list_pop (heap : list Message) : option (Message * list Message) :=
  match rev heap with
  | [] => None
  | lastelt :: r => Some (lastelt, rev r)
  end.

(** [heappop]; [None] is the [IndexError] of popping an empty list. *)
Definition heappop (heap : list Message) : option (Message * list Message) :=
  match list_pop heap with
  | None => None
  | Some (lastelt, heap) =>
      match heap !! 0%nat with
      | Some returnitem => Some (returnitem, _siftup (<[0%nat := lastelt]> heap) 0)
      | None => Some (lastelt, heap)
      end
  end.

End heapq.

(** ** class SendQueue *)

Record SendQueue := mkSendQueue {
  _queue : list Message;   (* PriorityQueue().queue, a heap *)
  _maxsize : Z
}.

(** [SendQueue(maxsize)]: an empty, unbounded [PriorityQueue]. *)
Definition SendQueue_init (maxsize : Z) : SendQueue := mkSendQueue [] maxsize.

(** [__len__], that is [self._queue.qsize()]. *)
Definition qsize (self : SendQueue) : Z := Z.of_nat (length (_queue self)).

(** [get]: [None] when the queue is empty and the caller blocks. *)
Definition get (self : SendQueue) : option (Message * SendQueue) :=
  match heapq.heappop (_queue self) with
  | Some (item, heap) => Some (item, mkSendQueue heap (_maxsize self))
  | None => None
  end.

(** [put]: [put_nowait] on a queue without a bound never raises [Full]. *)
Definition put (self : SendQueue) (msg : Message) : SendQueue :=
  mkSendQueue (heapq.heappush (_queue self) msg) (_maxsize self).

Definition accept (self : SendQueue) (now : Q) (body : string) : bool * SendQueue :=
  let message := Message_init body now now in
  if qsize self <? _maxsize self
  then (true, put self message)
  else (false, self).


(** ** class RateLimiter *)

Record RateLimiter := mkRateLimiter {
  bucket_size : Z;
  last_tick : Q;
  available : Q;
  window_secs : Z
}.

(** [RateLimiter(bucket_size, window_secs)], [now] being what
    [time.monotonic()] returns in [__init__]. *)
Definition RateLimiter_init (bucket_size window_secs : Z) (now : Q) : RateLimiter :=
  mkRateLimiter bucket_size now (inject_Z bucket_size) window_secs.

(** ** Exceptions, log records, the thread's state *)

Inductive exn :=
  | ZeroDivisionError
  | CollaboratorError (what : string).

Inductive level := DEBUG | INFO | ERROR.

(** [logger.info] goes to the module's logger, [logging.info] to the root. *)
Inductive logger_name := ModuleLogger | RootLogger.

Inductive log_arg :=
  | ArgMessage (m : Message)
  | ArgFloat (x : Q)
  | ArgExn (e : exn).

Record LogRecord := mkLogRecord {
  log_via : logger_name;
  log_level : level;
  log_msg : string;
  log_args : list log_arg
}.

(** The attributes of [SenderThread] that [run] uses.  A metric is the
    list of what was observed, oldest first; the counter is its value. *)
Record SenderThread := mkSenderThread {
  queue : SendQueue;
  rate_limiter : RateLimiter;
  rate_limited : Z;
  send_time_histogram : list Q;
  lag_histogram : list Q;
  attempt_histogram : list Z
}.

(** What the thread did to its surroundings: how often it read the clock
    and the generator, how many calls it made into collaborators, what it
    logged and for how long it slept (oldest first). *)
Record World := mkWorld {
  clock_reads : nat;
  random_draws : nat;
  calls : nat;
  log : list LogRecord;
  slept : list Q
}.

Record State := mkState {
  thread : SenderThread;
  world : World
}.

(** The places where a collaborator is called: [queue.get()],
    [queue.put()], [rate_limited.inc()], the transport, a histogram's
    [observe()]. *)
Inductive site :=
  | QueueGet | QueuePut | CounterInc | Transport | Observe.

(** The surroundings: the readings of [time.monotonic()], the draws of
    [random.random()], and for the k-th call into a collaborator, made at
    a given site, the exception it raises if it does. *)
Record Env := mkEnv {
  monotonic_at : nat -> Q;
  random_at : nat -> Q;
  fault : site -> nat -> option exn
}.

(** ** The monad of the thread's methods *)

Inductive Res (A : Type) : Type :=
  | Val (a : A)
  | Raise (e : exn)
  | Blocked.
Arguments Val {A} a.
Arguments Raise {A} e.
Arguments Blocked {A}.

Definition M (A : Type) : Type := State -> Res A * State.

Definition ret {A} (a : A) : M A := fun st => (Val a, st).

Definition bind {A B} (m : M A) (k : A -> M B) : M B := fun st =>
  match m st with
  | (Val a, st') => k a st'
  | (Raise e, st') => (Raise e, st')
  | (Blocked, st') => (Blocked, st')
  end.

(** [try: m  except Exception as e: h e]. *)
Definition try_except {A} (m : M A) (h : exn -> M A) : M A := fun st =>
  match m st with
  | (Raise e, st') => h e st'
  | r => r
  end.

Declare Scope monad_scope.
Delimit Scope monad_scope with monad.
Notation "'let*' x ':=' m 'in' k" := (bind m (fun x => k))
  (at level 10, x name, m at level 100, k at level 200, only parsing) : monad_scope.
Notation "m ';;' k" := (bind m (fun _ => k))
  (at level 100, k at level 200, only parsing, right associativity) : monad_scope.

(** State updates. *)
Definition with_thread (f : SenderThread -> SenderThread) (st : State) : State :=
  mkState (f (thread st)) (world st).
Definition with_world (f : World -> World) (st : State) : State :=
  mkState (thread st) (f (world st)).

Definition set_queue (q : SendQueue) (t : SenderThread) : SenderThread :=
  mkSenderThread q (rate_limiter t) (rate_limited t)
    (send_time_histogram t) (lag_histogram t) (attempt_histogram t).
Definition set_rate_limiter (r : RateLimiter) (t : SenderThread) : SenderThread :=
  mkSenderThread (queue t) r (rate_limited t)
    (send_time_histogram t) (lag_histogram t) (attempt_histogram t).
Definition set_rate_limited (n : Z) (t : SenderThread) : SenderThread :=
  mkSenderThread (queue t) (rate_limiter t) n
    (send_time_histogram t) (lag_histogram t) (attempt_histogram t).
Definition set_send_time_histogram (h : list Q) (t : SenderThread) : SenderThread :=
  mkSenderThread (queue t) (rate_limiter t) (rate_limited t)
    h (lag_histogram t) (attempt_histogram t).
Definition set_lag_histogram (h : list Q) (t : SenderThread) : SenderThread :=
  mkSenderThread (queue t) (rate_limiter t) (rate_limited t)
    (send_time_histogram t) h (attempt_histogram t).
Definition set_attempt_histogram (h : list Z) (t : SenderThread) : SenderThread :=
  mkSenderThread (queue t) (rate_limiter t) (rate_limited t)
    (send_time_histogram t) (lag_histogram t) h.

Definition tick_clock (w : World) : World :=
  mkWorld (S (clock_reads w)) (random_draws w) (calls w) (log w) (slept w).
Definition tick_random (w : World) : World :=
  mkWorld (clock_reads w) (S (random_draws w)) (calls w) (log w) (slept w).
Definition tick_calls (w : World) : World :=
  mkWorld (clock_reads w) (random_draws w) (S (calls w)) (log w) (slept w).
Definition add_log (r : LogRecord) (w : World) : World :=
  mkWorld (clock_reads w) (random_draws w) (calls w) (log w ++ [r]) (slept w).
Definition add_slept (secs : Q) (w : World) : World :=
  mkWorld (clock_reads w) (random_draws w) (calls w) (log w) (slept w ++ [secs]).

Definition modify (f : State -> State) : M unit := fun st => (Val tt, f st).
Definition gets {A} (f : State -> A) : M A := fun st => (Val (f st), st).

(** ** The methods, over a given environment *)

Section Methods.

Variable env : Env.

Local Open Scope monad_scope.

(** A call into a collaborator at site [s]: it raises when the
    environment says so, and counts as one call either way. *)
Definition call (s : site) : M unit := fun st =>
  let st' := with_world tick_calls st in
  match fault env s (calls (world st)) with
  | Some e => (Raise e, st')
  | None => (Val tt, st')
  end.

Definition time_monotonic : M Q :=
  let* k := gets (fun st => clock_reads (world st)) in
  modify (with_world tick_clock) ;;
  ret (monotonic_at env k).

Definition random_random : M Q :=
  let* k := gets (fun st => random_draws (world st)) in
  modify (with_world tick_random) ;;
  ret (random_at env k).

Definition time_sleep (secs : Q) : M unit :=
  modify (with_world (add_slept secs)).

Definition log_call (via : logger_name) (lvl : level) (msg : string)
    (args : list log_arg) : M unit :=
  modify (with_world (add_log (mkLogRecord via lvl msg args))).

(** [Message.make_next_attempt]. *)
Definition make_next_attempt (self : Message) (delay : Q) : M Message :=
  let* now := time_monotonic in
  ret (next_attempt_at self now delay).

(** [self.queue.get()]: blocks on an empty queue. *)
Definition queue_get : M Message := fun st =>
  match get (queue (thread st)) with
  | None => (Blocked, st)
  | Some (item, q) =>
      (call QueueGet ;; modify (with_thread (set_queue q)) ;; ret item) st
  end.

(** [self.queue.put(msg)]. *)
Definition queue_put (msg : Message) : M unit :=
  call QueuePut ;;
  modify (with_thread (fun t => set_queue (put (queue t) msg) t)).

(** The body of [RateLimiter.is_allowed] after [now = time.monotonic()],
    its arithmetic done exactly: the limiter it leaves, and the result or
    the [ZeroDivisionError] of dividing by a zero [window_secs]. *)
Definition is_allowed_at (self : RateLimiter) (now : Q) : Res bool * RateLimiter :=
  let passed := (now - last_tick self)%Q in
  let self := mkRateLimiter (bucket_size self) now (available self) (window_secs self) in
  if window_secs self =? 0 then (Raise ZeroDivisionError, self)
  else
    let self :=
      mkRateLimiter (bucket_size self) (last_tick self)
        (available self + passed * inject_Z (bucket_size self) / inject_Z (window_secs self))%Q
        (window_secs self) in
    let self :=
      if Qltb (inject_Z (bucket_size self)) (available self)
      then mkRateLimiter (bucket_size self) (last_tick self)
             (inject_Z (bucket_size self)) (window_secs self)
      else self in
    (Val (Qle_bool 1 (available self)), self).

(** [self.rate_limiter.is_allowed()]. *)
Definition is_allowed : M bool :=
  let* now := time_monotonic in
  fun st =>
    let '(r, rl) := is_allowed_at (rate_limiter (thread st)) now in
    (r, with_thread (set_rate_limiter rl) st).

(** [self.rate_limiter.available -= 1]. *)
Definition take_token (self : RateLimiter) : RateLimiter :=
  mkRateLimiter (bucket_size self) (last_tick self) (available self - 1)%Q
    (window_secs self).

(** The exact value of [item.attempt * 1.5 if item.attempt > 0 else 0.75]
    plus [0.5 * random.random()], where [r] is the draw; the double that
    the code computes for it is [retry_delay_b64]. *)
Definition retry_delay (attempt : Z) (r : Q) : Q :=
  ((if 0 <? attempt then inject_Z attempt * 1.5 else 0.75) + 0.5 * r)%Q.

(** [SenderThread.send]. *)
Definition send (item : Message) : M bool :=
  let* allowed := is_allowed in
  if negb allowed then
    call CounterInc ;;
    modify (with_thread (fun t => set_rate_limited (rate_limited t + 1) t)) ;;
    ret false
  else
    modify (with_thread (fun t => set_rate_limiter (take_token (rate_limiter t)) t)) ;;
    let* now := time_monotonic in
    let lag := (now - queued_at item)%Q in
    log_call ModuleLogger DEBUG "Sending %s with lag %gs" [ArgMessage item; ArgFloat lag] ;;
    let* r := random_random in
    let send_time := (0.2 + 0.3 * r)%Q in
    call Transport ;;
    time_sleep send_time ;;
    call Observe ;;
    modify (with_thread (fun t => set_lag_histogram (lag_histogram t ++ [lag]) t)) ;;
    call Observe ;;
    modify (with_thread (fun t =>
      set_send_time_histogram (send_time_histogram t ++ [send_time]) t)) ;;
    call Observe ;;
    modify (with_thread (fun t =>
      set_attempt_histogram (attempt_histogram t ++ [attempt item]) t)) ;;
    ret true.

(** The block under [try:] in [try_send]. *)
Definition try_send_body (item : Message) : M unit :=
  let* sent := send item in
  if sent then
    log_call ModuleLogger INFO "Sent %s" [ArgMessage item]
  else
    (* Send failed, schedule retry *)
    let* r := random_random in
    let delay := retry_delay (attempt item) r in
    let* item := make_next_attempt item delay in
    queue_put item ;;
    log_call RootLogger INFO "Postponed message %s" [ArgMessage item].

(** The block under [except Exception as e:] in [try_send]. *)
Definition try_send_handler (e : exn) : M unit :=
  log_call ModuleLogger ERROR "Exception in try_send" [ArgExn e].

(** [SenderThread.try_send]. *)
Definition try_send (item : Message) : M unit :=
  log_call ModuleLogger DEBUG "Trying to send %s" [ArgMessage item] ;;
  try_except (try_send_body item) try_send_handler.

(** How the [try] statement of [run] ends: by falling through to the
    [time.sleep] below it, or by [continue]. *)
Inductive flow := Fallthrough | Continue.

(** The block under [try:] in [run]. *)
Definition run_body : M flow :=
  let* item := queue_get in
  let* now := time_monotonic in
  log_call ModuleLogger DEBUG "Dequeued %s at queued_at%+gs"
    [ArgMessage item; ArgFloat (now - queued_at item)%Q] ;;
  if Qltb now (send_at item) then
    log_call ModuleLogger DEBUG "Too early, enqueued %s back" [ArgMessage item] ;;
    queue_put item ;;
    ret Continue
  else
    try_send item ;;
    ret Fallthrough.

(** The block under [except Exception as e:] in [run]. *)
Definition run_handler (e : exn) : M flow :=
  log_call ModuleLogger ERROR "Unhandled exception in consumer loop" [ArgExn e] ;;
  ret Fallthrough.

(** The [try ... except] of one turn of [while True]. *)
Definition run_try : M flow := try_except run_body run_handler.

(** One turn of [while True]. *)
Definition run_iteration : M unit :=
  let* f := run_try in
  match f with
  | Continue => ret tt
  | Fallthrough => time_sleep 0.1
  end.

(** [run], cut after [n] turns. *)
Fixpoint run (n : nat) : M unit :=
  match n with
  | O => ret tt
  | S n' => run_iteration ;; run n'
  end.

End Methods.

(** [SenderThread(queue, registry)], created when the clock reads [now]. *)
Definition SenderThread_init (queue : SendQueue) (now : Q) : SenderThread :=
  mkSenderThread queue (RateLimiter_init 10 5 now) 0 [] [] [].

Definition World_init : World := mkWorld 0 0 0 [] [].


(** ** Binary64

    The doubles of the code, as the Standard Library specifies them
    ([SpecFloat], round to nearest even), for the arithmetic whose
    rounding a statement depends on. *)

Module b64.

Definition float : Type := SpecFloat.spec_float.

Definition prec : Z := 53.
Definition emax : Z := 1024.

Definition add : float -> float -> float := SpecFloat.SFadd prec emax.
Definition mul : float -> float -> float := SpecFloat.SFmul prec emax.

(** [m * 2^e], exactly. *)
Definition scale (m e : Z) : Q := inject_Z m * 2 ^ e.

(** The number a finite float stands for. *)
Definition value (x : float) : Q :=
  match x with
  | SpecFloat.S754_finite s m e => scale (if s then Z.neg m else Z.pos m) e
  | _ => 0
  end.

(** Zero or a positive finite number. *)
Definition unsigned (x : float) : bool :=
  match x with
  | SpecFloat.S754_zero false | SpecFloat.S754_finite false _ _ => true
  | _ => false
  end.

(** [float(n)] for a Python int: the nearest double, and
    [OverflowError] ([None]) when [n] is too large. *)
Definition of_int (n : Z) : option float :=
  match SpecFloat.binary_normalize prec emax n 0 false with
  | SpecFloat.S754_infinity _ => None
  | f => Some f
  end.

(** The double [n / 2^53]: what [random.random()] returns, for a [n]
    from [0] to [2^53 - 1]. *)
Definition draw (n : Z) : float := SpecFloat.binary_normalize prec emax n (-53) false.

(** The literals [0.5], [0.75] and [1.5]. *)
Definition c0_5 : float := SpecFloat.S754_finite false 4503599627370496 (-53).
Definition c0_75 : float := SpecFloat.S754_finite false 6755399441055744 (-53).
Definition c1_5 : float := SpecFloat.S754_finite false 6755399441055744 (-52).

(** What [k] steps of [shr_1] leave of [m0]: the quotient by [2^k], and
    a round bit that is set only when the remainder is not zero. *)
Definition shifted (m0 k : Z) (mrs : SpecFloat.shr_record) : Prop :=
  0 <= SpecFloat.shr_m mrs /\
  SpecFloat.shr_m mrs * 2 ^ k <= m0 < (SpecFloat.shr_m mrs + 1) * 2 ^ k /\
  (SpecFloat.shr_r mrs = true -> SpecFloat.shr_m mrs * 2 ^ k < m0).

(** A positive number with a whole mantissa. *)
Definition full (x : float) : Prop :=
  exists m e, x = SpecFloat.S754_finite false m e /\ 2 ^ 52 <= Z.pos m.

End b64.

(** The retry delay as the code computes it, in binary64:
    [(item.attempt * 1.5 if item.attempt > 0 else 0.75) + 0.5 * r]. *)
Definition retry_delay_b64 (attempt : Z) (r : b64.float) : option b64.float :=
  let jitter := b64.mul b64.c0_5 r in
  if 0 <? attempt then
    match b64.of_int attempt with
    | Some a => Some (b64.add (b64.mul a b64.c1_5) jitter)
    | None => None
    end
  else Some (b64.add b64.c0_75 jitter).

(** ** Vocabulary of the statements *)

(** No call into a collaborator raises. *)
Definition fault_free (env : Env) : Prop :=
  forall s k, fault env s k = None.

(** [time.monotonic()] never goes back. *)
Definition clock_monotone (env : Env) : Prop :=
  forall i j, (i <= j)%nat -> (monotonic_at env i <= monotonic_at env j)%Q.

(** A chain of retries of one message, one [make_next_attempt] per delay. *)
Fixpoint retry_chain (env : Env) (delays : list Q) (m : Message) : M Message :=
  match delays with
  | [] => ret m
  | d :: ds => bind (make_next_attempt env m d) (retry_chain env ds)
  end.

(** A quiet environment: the clock advances by a tenth of a second per
    reading, every draw is one half, nothing raises. *)
Definition quiet_env : Env :=
  mkEnv (fun k => inject_Z (Z.of_nat k) / 10)%Q (fun _ => 0.5%Q) (fun _ _ => None).

(** A thread whose bucket is empty, at the start of the clock: the
    limiter refuses the next message. *)
Definition drained_state : State :=
  mkState
    (mkSenderThread (put (SendQueue_init 100) (Message_init "queued" 0 0))
       (mkRateLimiter 10 0 0 5) 0 [] [] [])
    World_init.

(** A triple on a method: from a state in [P], the result and the state
    it leaves are in [Q]. *)
Definition hoare {A} (P : State -> Prop) (m : M A) (Q : Res A -> State -> Prop) : Prop :=
  forall st, P st -> Q (fst (m st)) (snd (m st)).

(** A method keeps [I]: whatever its result is, it leaves a state in [I]
    when it starts in one. *)
Definition keeps {A} (I : State -> Prop) (m : M A) : Prop :=
  hoare I m (fun _ st => I st).

(** A method never waits on the queue. *)
Definition nonblocking {A} (m : M A) : Prop :=
  forall st, fst (m st) <> Blocked.

(** A method never lets an exception out. *)
Definition noraise {A} (m : M A) : Prop :=
  forall st e, fst (m st) <> Raise e.

(** The limiter's invariant: the window is positive, the bucket holds
    between zero and [bucket_size] tokens, and [last_tick] is not later
    than the next reading of the clock. *)
Definition bucket_ok (rl : RateLimiter) : Prop :=
  0 < window_secs rl /\
  (0 <= available rl)%Q /\ (available rl <= inject_Z (bucket_size rl))%Q.

Definition limiter_inv (env : Env) (st : State) : Prop :=
  bucket_ok (rate_limiter (thread st)) /\
  (last_tick (rate_limiter (thread st)) <= monotonic_at env (clock_reads (world st)))%Q.

(** The state [SenderThread(queue, registry)] starts [run] in: the
    limiter's [__init__] took the first reading of the clock. *)
Definition boot (env : Env) (q : SendQueue) : State :=
  mkState (SenderThread_init q (monotonic_at env 0)) (tick_clock World_init).

(** What happens to the thread's state between two observations: a
    producer calls [accept], or the loop of [run] makes a turn. *)
Inductive event :=
  | Accept (now : Q) (body : string)
  | Turn.

Definition step (env : Env) (ev : event) (st : State) : State :=
  match ev with
  | Accept now body =>
      with_thread (fun t => set_queue (snd (accept (queue t) now body)) t) st
  | Turn => snd (run_iteration env st)
  end.

Definition run_system (env : Env) (evs : list event) (st : State) : State :=
  fold_left (fun st ev => step env ev st) evs st.

Definition site_eqb (a b : site) : bool :=
  match a, b with
  | QueueGet, QueueGet | QueuePut, QueuePut
  | CounterInc, CounterInc | Transport, Transport | Observe, Observe => true
  | _, _ => false
  end.

(** The quiet environment, except that every call at site [s] raises. *)
Definition failing_env (s : site) : Env :=
  mkEnv (monotonic_at quiet_env) (random_at quiet_env)
    (fun s' _ => if site_eqb s' s then Some (CollaboratorError "down") else None).

(** A thread with a full bucket and one message due at the start. *)
Definition ready_state : State :=
  boot quiet_env (put (SendQueue_init 100) (Message_init "queued" 0 0)).

(** ** The heap *)

(** The order of the heap: [p] goes before [x]. *)
Definition before (p x : Message) : Prop := (send_at p <= send_at x)%Q.

(** A list is a heap when no element is smaller than its parent. *)
Definition heap_ordered (h : list Message) : Prop :=
  forall i x p,
    (0 < i)%nat -> h !! i = Some x -> h !! ((i - 1) / 2)%nat = Some p -> before p x.

(** [_siftdown]'s invariant, [newitem] being thought at [pos]: the order
    holds between every element that is not at [pos] and its parent,
    [newitem] goes before the children of [pos], and so does the parent
    of [pos]. *)
Definition siftdown_inv (h : list Message) (newitem : Message) (pos : nat) : Prop :=
  (pos < length h)%nat /\
  (forall i x p,
     (0 < i)%nat -> i <> pos ->
     h !! i = Some x -> h !! ((i - 1) / 2)%nat = Some p -> before p x) /\
  (forall c x,
     (0 < c)%nat -> ((c - 1) / 2)%nat = pos -> h !! c = Some x -> before newitem x) /\
  (forall c x p,
     (0 < c)%nat -> ((c - 1) / 2)%nat = pos -> (0 < pos)%nat ->
     h !! c = Some x -> h !! ((pos - 1) / 2)%nat = Some p -> before p x).

(** [_siftup]'s invariant, the element of [pos] having moved up: the
    order holds between every element and its parent when the parent is
    not at [pos], and the parent of [pos] goes before the children of
    [pos]. *)
Definition siftup_inv (h : list Message) (pos : nat) : Prop :=
  (pos < length h)%nat /\
  (forall i x p,
     (0 < i)%nat -> ((i - 1) / 2)%nat <> pos ->
     h !! i = Some x -> h !! ((i - 1) / 2)%nat = Some p -> before p x) /\
  (forall c x p,
     (0 < c)%nat -> ((c - 1) / 2)%nat = pos -> (0 < pos)%nat ->
     h !! c = Some x -> h !! ((pos - 1) / 2)%nat = Some p -> before p x).

(** The calls on a [SendQueue]: the producers' [accept], the
    dispatcher's [put] and [get]. *)
Inductive queue_op :=
  | OpAccept (now : Q) (body : string)
  | OpPut (msg : Message)
  | OpGet.

Definition apply_op (q : SendQueue) (op : queue_op) : SendQueue :=
  match op with
  | OpAccept now body => snd (accept q now body)
  | OpPut msg => put q msg
  | OpGet => match get q with Some (_, q') => q' | None => q end
  end.

Definition apply_ops (ops : list queue_op) (q : SendQueue) : SendQueue :=
  fold_left apply_op ops q.

(** The results of a sequence of [accept] calls, and the queue after. *)
Fixpoint accept_all (calls : list (Q * string)) (q : SendQueue)
    : list bool * SendQueue :=
  match calls with
  | [] => ([], q)
  | (now, body) :: rest =>
      let '(r, q') := accept q now body in
      let '(rs, q'') := accept_all rest q' in
      (r :: rs, q'')
  end.

(** The messages that [n] calls of [get] return, in that order. *)
Fixpoint drain (n : nat) (q : SendQueue) : list Message :=
  match n with
  | O => []
  | S n' =>
      match get q with
      | Some (m, q') => m :: drain n' q'
      | None => []
      end
  end.

(** ** Vocabulary of the further properties *)

(** [m'] is a retry of [item]: what [make_next_attempt] builds from it,
    whatever the delay. *)
Definition retry_of (item m' : Message) : Prop :=
  body m' = body item /\
  queued_at m' = queued_at item /\
  attempt m' = attempt item + 1.

(** The gauge [sender_queue_size]: [set_function(lambda: len(queue))]. *)
Definition queue_size (st : State) : Z := qsize (queue (thread st)).

(** The [(now, body)] pairs of the [accept] calls among the events. *)
Fixpoint accept_calls (evs : list event) : list (Q * string) :=
  match evs with
  | [] => []
  | Accept now body :: evs' => (now, body) :: accept_calls evs'
  | Turn :: evs' => accept_calls evs'
  end.

(** The record that [send] logs for a message that passed the limiter,
    just after taking its token and before handing it to the transport. *)
Definition is_sending (r : LogRecord) : bool :=
  String.eqb (log_msg r) "Sending %s with lag %gs".

(** The message of a "Sending" record. *)
Definition sent_item (r : LogRecord) : option Message :=
  if is_sending r then
    match log_args r with
    | ArgMessage m :: _ => Some m
    | _ => None
    end
  else None.

(** The messages dispatched so far, that is handed to the transport by
    [send] after the limiter let them pass, oldest first. *)
Definition dispatched (st : State) : list Message :=
  omap sent_item (log (world st)).

(** A clock that goes by the sleeps of the loop: every turn takes the
    0.3 s of the shortest send (0.2 s, every draw being 0) and of the
    sleep that ends the turn, and the three readings of a turn give the
    same time.  Nothing raises. *)
Definition paced_env : Env :=
  mkEnv (fun k => inject_Z (Z.of_nat ((k + 2) / 3)) * 0.3)%Q
    (fun _ => 0%Q) (fun _ _ => None).

(** Twenty-three messages due at once, then ["a"] due at 1 s and ["b"]
    due at 2 s, and the twenty-three turns that send the first ones. *)
Definition burst_then_two : list event :=
  repeat (Accept 0 "m") 23 ++ [Accept 1 "a"; Accept 2 "b"] ++ repeat Turn 23.

(** How many messages passed the limiter so far. *)
Definition sends_started (st : State) : Z :=
  Z.of_nat (length (List.filter is_sending (log (world st)))).

(** What the frame lemmas let a predicate depend on: the limiter, the
    metrics, the messages that passed the limiter, the clock's readings. *)
Definition view (st : State) :=
  (rate_limiter (thread st), rate_limited (thread st),
   send_time_histogram (thread st), lag_histogram (thread st),
   attempt_histogram (thread st), sends_started st, clock_reads (world st)).

(** The histograms are observed in the order lag, send time, attempts,
    once per message that passed the limiter; [dl], [dt] and [da] are the
    observations that the message in hand still has to get. *)
Definition hist_order (dl dt da : Z) (st : State) : Prop :=
  Z.of_nat (length (attempt_histogram (thread st))) + da
    <= Z.of_nat (length (send_time_histogram (thread st))) /\
  Z.of_nat (length (send_time_histogram (thread st))) + dt
    <= Z.of_nat (length (lag_histogram (thread st))) /\
  Z.of_nat (length (lag_histogram (thread st))) + dl <= sends_started st.

(** The account of the tokens of a limiter of [B] tokens: the tokens
    left and the tokens taken are together at least [B], and nothing was
    refused before [B] messages had passed. *)
Definition token_account (B : Z) (st : State) : Prop :=
  let rl := rate_limiter (thread st) in
  let s := inject_Z (sends_started st) in
  bucket_size rl = B /\
  (inject_Z B <= available rl + s)%Q /\
  0 <= rate_limited (thread st) /\
  (0 < rate_limited (thread st) -> B <= sends_started st).

(** * Properties *)

(** ** Comparisons *)

Lemma Qltb_lt (x y : Q) : Qltb x y = true <-> (x < y)%Q.
Proof. unfold Qltb, Qlt. apply Z.ltb_lt. Qed.

Lemma Qltb_ge (x y : Q) : Qltb x y = false <-> (y <= x)%Q.
Proof. unfold Qltb, Qle. apply Z.ltb_ge. Qed.

Lemma Message_lt_iff (a b : Message) :
  Message_lt a b = true <-> (send_at a < send_at b)%Q.
Proof. apply Qltb_lt. Qed.

Lemma Message_lt_false (a b : Message) :
  Message_lt a b = false <-> (send_at b <= send_at a)%Q.
Proof. apply Qltb_ge. Qed.

(** ** The monad *)

Lemma bind_val {A B} (m : M A) (k : A -> M B) st a st' :
  m st = (Val a, st') -> bind m k st = k a st'.
Proof. unfold bind. intros ->. reflexivity. Qed.

Lemma bind_raise {A B} (m : M A) (k : A -> M B) st e st' :
  m st = (Raise e, st') -> bind m k st = (Raise e, st').
Proof. unfold bind. intros ->. reflexivity. Qed.

Lemma bind_blocked {A B} (m : M A) (k : A -> M B) st st' :
  m st = (Blocked, st') -> bind m k st = (Blocked, st').
Proof. unfold bind. intros ->. reflexivity. Qed.

Lemma quiet_env_fault_free : fault_free quiet_env.
Proof. intros s k. reflexivity. Qed.

Lemma quiet_env_clock : clock_monotone quiet_env.
Proof.
  intros i j Hij. simpl. unfold Qle. simpl. lia.
Qed.

Lemma time_monotonic_ok (env : Env) st :
  time_monotonic env st =
    (Val (monotonic_at env (clock_reads (world st))), with_world tick_clock st).
Proof. reflexivity. Qed.

Lemma random_random_ok (env : Env) st :
  random_random env st =
    (Val (random_at env (random_draws (world st))), with_world tick_random st).
Proof. reflexivity. Qed.

Lemma make_next_attempt_ok (env : Env) self delay st :
  make_next_attempt env self delay st =
    (Val (next_attempt_at self (monotonic_at env (clock_reads (world st))) delay),
     with_world tick_clock st).
Proof. reflexivity. Qed.

Lemma retry_chain_ok (env : Env) delays : forall m st,
  exists m' st',
    retry_chain env delays m st = (Val m', st') /\
    body m' = body m /\
    queued_at m' = queued_at m /\
    attempt m' = attempt m + Z.of_nat (length delays) /\
    thread st' = thread st.
Proof.
  induction delays as [|d ds IH]; intros m st; simpl.
  - exists m, st. unfold ret. repeat split. lia.
  - erewrite bind_val by apply make_next_attempt_ok.
    edestruct IH as (m' & st' & -> & Hb & Hq & Ha & Ht).
    exists m', st'. split; [reflexivity|].
    rewrite Hb, Hq, Ha, Ht. simpl. repeat split. lia.
Qed.

Section FaultFree.

Variable env : Env.
Hypothesis Hff : fault_free env.

Lemma call_ok s st : call env s st = (Val tt, with_world tick_calls st).
Proof. unfold call. rewrite Hff. reflexivity. Qed.

Lemma queue_put_ok msg st :
  queue_put env msg st =
    (Val tt, with_thread (fun t => set_queue (put (queue t) msg) t)
               (with_world tick_calls st)).
Proof. unfold queue_put, bind. rewrite call_ok. reflexivity. Qed.

End FaultFree.

(** ** Message *)

(** C4. [make_next_attempt] returns a message whose [attempt] is one more,
    whose [send_at] is the clock's reading plus the delay and whose [body]
    and [queued_at] are those of the original, and it leaves the thread's
    objects (so every holder of the original) as they were; along a chain
    of retries [body] and [queued_at] stay and a message admitted with
    [attempt = 0] has [attempt = k] after [k] retries. *)
Theorem make_next_attempt_new_message (env : Env) (m : Message) (d : Q)
    (st : State) :
  (exists m' st',
     make_next_attempt env m d st = (Val m', st') /\
     attempt m' = attempt m + 1 /\
     send_at m' = (monotonic_at env (clock_reads (world st)) + d)%Q /\
     body m' = body m /\
     queued_at m' = queued_at m /\
     thread st' = thread st) /\
  (forall delays : list Q,
     exists m' st',
       retry_chain env delays m st = (Val m', st') /\
       body m' = body m /\
       queued_at m' = queued_at m /\
       (attempt m = 0 -> attempt m' = Z.of_nat (length delays))).
Proof.
  split.
  - eexists _, _. split; [apply make_next_attempt_ok|].
    simpl. repeat split.
  - intros delays.
    destruct (retry_chain_ok env delays m st)
      as (m' & st' & Hrun & Hb & Hq & Ha & _).
    exists m', st'. repeat split; try assumption. lia.
Qed.

Lemma make_next_attempt_new_message_witness :
  exists m' st',
    retry_chain quiet_env [0.75%Q; 1.5%Q; 3%Q] (Message_init "hello" 0 0)
      (mkState (SenderThread_init (SendQueue_init 100) 0) World_init) = (Val m', st') /\
    body m' = "hello"%string /\ queued_at m' = 0%Q /\
    (attempt (Message_init "hello" 0 0) = 0 -> attempt m' = 3).
Proof.
  exact (proj2 (make_next_attempt_new_message quiet_env
                  (Message_init "hello" 0 0) 0
                  (mkState (SenderThread_init (SendQueue_init 100) 0) World_init))
               [0.75%Q; 1.5%Q; 3%Q]).
Defined.

(** ** Lengths of the heap *)

Lemma siftdown_loop_S fuel heap newitem startpos pos :
  heapq.siftdown_loop (S fuel) heap newitem startpos pos =
    if (startpos <? pos)%nat then
      match heap !! ((pos - 1) / 2)%nat with
      | Some parent =>
          if Message_lt newitem parent
          then heapq.siftdown_loop fuel (<[pos := parent]> heap) newitem startpos
                 ((pos - 1) / 2)%nat
          else <[pos := newitem]> heap
      | None => heap
      end
    else <[pos := newitem]> heap.
Proof. reflexivity. Qed.

Lemma siftup_loop_S fuel heap pos :
  heapq.siftup_loop (S fuel) heap pos =
    if (2 * pos + 1 <? length heap)%nat then
      match heap !! (if (2 * pos + 1 + 1 <? length heap)%nat
                        && negb (heapq.lt_at heap (2 * pos + 1) (2 * pos + 1 + 1))
                     then 2 * pos + 1 + 1 else 2 * pos + 1)%nat with
      | Some child =>
          heapq.siftup_loop fuel (<[pos := child]> heap)
            (if (2 * pos + 1 + 1 <? length heap)%nat
                && negb (heapq.lt_at heap (2 * pos + 1) (2 * pos + 1 + 1))
             then 2 * pos + 1 + 1 else 2 * pos + 1)%nat
      | None => (heap, pos)
      end
    else (heap, pos).
Proof. reflexivity. Qed.

Lemma siftdown_loop_length fuel : forall heap newitem startpos pos,
  length (heapq.siftdown_loop fuel heap newitem startpos pos) = length heap.
Proof.
  induction fuel as [|fuel IH]; intros heap newitem startpos pos.
  - apply length_insert.
  - rewrite siftdown_loop_S.
    destruct (startpos <? pos)%nat; [|apply length_insert].
    destruct (heap !! ((pos - 1) / 2)%nat) as [parent|]; [|reflexivity].
    destruct (Message_lt newitem parent); [|apply length_insert].
    rewrite IH. apply length_insert.
Qed.

Lemma _siftdown_length heap startpos pos :
  length (heapq._siftdown heap startpos pos) = length heap.
Proof.
  unfold heapq._siftdown. destruct (heap !! pos); [|reflexivity].
  apply siftdown_loop_length.
Qed.

Lemma heappush_length heap item :
  length (heapq.heappush heap item) = S (length heap).
Proof.
  unfold heapq.heappush. rewrite _siftdown_length, length_app. simpl. lia.
Qed.

Lemma put_qsize (q : SendQueue) (m : Message) : qsize (put q m) = qsize q + 1.
Proof. unfold qsize, put. simpl. rewrite heappush_length. lia. Qed.

Lemma put_maxsize (q : SendQueue) (m : Message) : _maxsize (put q m) = _maxsize q.
Proof. reflexivity. Qed.

(** ** The retry delay *)

Section RetryOfFailedSend.

Variable env : Env.
Hypothesis Hff : fault_free env.

Lemma try_send_body_failed item st st1 :
  send env item st = (Val false, st1) ->
  try_send_body env item st =
    (Val tt,
     with_world
       (add_log (mkLogRecord RootLogger INFO "Postponed message %s"
          [ArgMessage
             (next_attempt_at item (monotonic_at env (clock_reads (world st1)))
                (retry_delay (attempt item) (random_at env (random_draws (world st1)))))]))
       (with_thread
          (fun t =>
             set_queue
               (put (queue t)
                  (next_attempt_at item (monotonic_at env (clock_reads (world st1)))
                     (retry_delay (attempt item)
                        (random_at env (random_draws (world st1)))))) t)
          (with_world tick_calls
             (with_world tick_clock (with_world tick_random st1))))).
Proof.
  intros Hsend. unfold try_send_body.
  erewrite bind_val by exact Hsend. simpl.
  erewrite bind_val by apply random_random_ok.
  erewrite bind_val by apply make_next_attempt_ok.
  erewrite bind_val by apply queue_put_ok, Hff.
  reflexivity.
Qed.

End RetryOfFailedSend.

(** *** Rounding to binary64 *)

Module b64_facts.
Import SpecFloat.

Lemma iter_pos_count {A} (f : A -> A) (R : Z -> A -> Prop) :
  (forall k x, 0 <= k -> R k x -> R (k + 1) (f x)) ->
  forall p k x, 0 <= k -> R k x -> R (k + Z.pos p) (iter_pos f p x).
Proof.
  intros Hstep. induction p as [p IH|p IH|]; intros k x Hk HR; simpl.
  - replace (k + Z.pos p~1) with (k + 1 + Z.pos p + Z.pos p) by lia.
    apply IH; [lia|]. apply IH; [lia|]. apply Hstep; assumption.
  - replace (k + Z.pos p~0) with (k + Z.pos p + Z.pos p) by lia.
    apply IH; [lia|]. apply IH; assumption.
  - apply Hstep; assumption.
Qed.

Lemma shr_1_shifted m0 k mrs :
  0 <= k -> b64.shifted m0 k mrs -> b64.shifted m0 (k + 1) (shr_1 mrs).
Proof.
  intros Hk (Hm & Hq & Hr). destruct mrs as [m r s]. simpl in *.
  unfold b64.shifted.
  rewrite Z.pow_add_r by lia. change (2 ^ 1) with 2.
  assert (Hp : 0 < 2 ^ k) by (apply Z.pow_pos_nonneg; lia).
  destruct m as [|[p|p|]|p]; simpl; lia.
Qed.

Lemma shr_shifted m0 e n :
  0 <= m0 -> 0 <= n ->
  exists mrs,
    shr (Build_shr_record m0 false false) e n = (mrs, e + n) /\
    b64.shifted m0 n mrs.
Proof.
  intros Hm Hn.
  assert (H0 : b64.shifted m0 0 (Build_shr_record m0 false false)).
  { unfold b64.shifted; simpl. split; [lia|]. split; [lia|]. discriminate. }
  destruct n as [|p|p]; try lia.
  - eexists. split; [simpl; f_equal; lia|exact H0].
  - eexists. split; [reflexivity|].
    apply (iter_pos_count shr_1 (b64.shifted m0) (shr_1_shifted m0) p 0 _ ltac:(lia) H0).
Qed.

Lemma shr_nonpos mrs e n : n <= 0 -> shr mrs e n = (mrs, e).
Proof. destruct n; [reflexivity|lia|reflexivity]. Qed.

Lemma digits2_pos_spec (m : positive) :
  2 ^ (Z.pos (digits2_pos m) - 1) <= Z.pos m < 2 ^ Z.pos (digits2_pos m).
Proof.
  induction m as [m IH|m IH|]; simpl digits2_pos.
  - rewrite Pos2Z.inj_succ.
    replace (Z.succ (Z.pos (digits2_pos m)) - 1) with (Z.succ (Z.pos (digits2_pos m) - 1)) by lia.
    rewrite !Z.pow_succ_r by lia. lia.
  - rewrite Pos2Z.inj_succ.
    replace (Z.succ (Z.pos (digits2_pos m)) - 1) with (Z.succ (Z.pos (digits2_pos m) - 1)) by lia.
    rewrite !Z.pow_succ_r by lia. lia.
  - simpl. lia.
Qed.

Lemma Zdigits2_small (res : Z) : 0 <= res < 2 ^ 53 -> Zdigits2 res <= 53.
Proof.
  intros [H0 H1]. destruct res as [|p|p]; simpl; try lia.
  pose proof (digits2_pos_spec p) as [Hd _].
  destruct (Z_lt_le_dec 53 (Z.pos (digits2_pos p))) as [Hlt|]; [|assumption].
  exfalso.
  assert (2 ^ 53 <= 2 ^ (Z.pos (digits2_pos p) - 1)) by (apply Z.pow_le_mono_r; lia).
  lia.
Qed.

Lemma rne_shifted m0 k mrs :
  b64.shifted m0 k mrs ->
  let res := round_nearest_even (shr_m mrs) (loc_of_shr_record mrs) in
  res = shr_m mrs \/ (res = shr_m mrs + 1 /\ shr_m mrs * 2 ^ k < m0).
Proof.
  intros (Hm & Hq & Hr). destruct mrs as [m [|] [|]]; simpl in *.
  - right. split; [reflexivity|auto].
  - destruct (Z.even m); [left; reflexivity|right; split; [reflexivity|auto]].
  - left; reflexivity.
  - left; reflexivity.
Qed.

(** The rounding at the end of every operation, on a positive mantissa
    that is aligned ([e] is not above the exponent of the format). *)
Lemma round_aux_spec (m0 : positive) (e : Z) :
  let d := Z.pos (digits2_pos m0) in
  let E := Z.max (d + e - 53) (-1074) in
  e <= E ->
  exists res,
    0 <= res <= 2 ^ 53 /\
    (forall B, Z.pos m0 <= B * 2 ^ (E - e) -> res <= B) /\
    (forall A, A * 2 ^ (E - e) <= Z.pos m0 -> A <= res) /\
    (E = d + e - 53 -> 2 ^ 52 <= res) /\
    binary_round_aux 53 1024 false (Z.pos m0) e loc_Exact =
      if res =? 0 then S754_zero false
      else if res =? 2 ^ 53
           then (if E + 1 <=? 971 then S754_finite false (2 ^ 52) (E + 1)
                 else S754_infinity false)
           else (if E <=? 971 then S754_finite false (Z.to_pos res) E
                 else S754_infinity false).
Proof.
  intros d E HE.
  pose proof (digits2_pos_spec m0) as Hd. fold d in Hd.
  destruct (shr_shifted (Z.pos m0) e (E - e) ltac:(lia) ltac:(lia))
    as (mrs & Hshr & Hsh).
  pose proof (rne_shifted _ _ _ Hsh) as Hres. simpl in Hres.
  set (res := round_nearest_even (shr_m mrs) (loc_of_shr_record mrs)) in *.
  destruct Hsh as (Hm & Hq & _).
  assert (Hp : 0 < 2 ^ (E - e)) by (apply Z.pow_pos_nonneg; lia).
  assert (Hm53 : shr_m mrs < 2 ^ 53).
  { assert (Hle : 2 ^ d <= 2 ^ 53 * 2 ^ (E - e)).
    { rewrite <- Z.pow_add_r by lia. apply Z.pow_le_mono_r; lia. }
    nia. }
  exists res. split; [|split; [|split; [|split]]].
  - destruct Hres as [->|[-> _]]; lia.
  - intros B HB. destruct Hres as [->|[-> Hlt]]; nia.
  - intros A HA. destruct Hres as [->|[-> Hlt]]; nia.
  - intros HEq.
    assert (Hge : 2 ^ 52 * 2 ^ (E - e) <= 2 ^ (d - 1)).
    { rewrite <- Z.pow_add_r by lia. apply Z.pow_le_mono_r; lia. }
    destruct Hres as [->|[-> Hlt]]; nia.
  - unfold binary_round_aux, shr_fexp. simpl Zdigits2. simpl shr_record_of_loc.
    change (fexp 53 1024 (Z.pos (digits2_pos m0) + e)) with E.
    rewrite Hshr. replace (e + (E - e)) with E by lia. fold res.
    assert (Hres' : 0 <= res <= 2 ^ 53) by (destruct Hres as [->|[-> _]]; lia).
    destruct (Z.eqb_spec res 0) as [H0|H0].
    { rewrite H0. simpl Zdigits2.
      rewrite shr_nonpos by (unfold fexp, emin; lia). reflexivity. }
    destruct (Z.eqb_spec res (2 ^ 53)) as [H53|H53].
    { rewrite H53.
      replace (fexp 53 1024 (Zdigits2 (2 ^ 53) + E) - E) with 1
        by (change (Zdigits2 (2 ^ 53)) with 54; unfold fexp, emin; lia).
      reflexivity. }
    pose proof (Zdigits2_small res ltac:(lia)) as Hdig.
    rewrite shr_nonpos by (unfold fexp, emin; lia).
    simpl shr_m. destruct res as [|p|p]; try lia. reflexivity.
Qed.

(** *** Numbers [m * 2^e] *)

Lemma pow2_pos (e : Z) : (0 < 2 ^ e)%Q.
Proof. apply Qpower_0_lt. reflexivity. Qed.

Lemma scale_shift (m e k : Z) :
  0 <= k -> (b64.scale (m * 2 ^ k) e == b64.scale m (e + k))%Q.
Proof.
  intros Hk. unfold b64.scale.
  rewrite Qpower_plus by discriminate.
  rewrite inject_Z_mult, Zpower_Qpower by assumption.
  change (inject_Z 2) with 2%Q. ring.
Qed.

Lemma scale_align (m e lo : Z) :
  lo <= e -> (b64.scale m e == b64.scale (m * 2 ^ (e - lo)) lo)%Q.
Proof.
  intros H. rewrite scale_shift by lia.
  replace (lo + (e - lo)) with e by lia. reflexivity.
Qed.

Lemma scale_le (m1 m2 e : Z) :
  (b64.scale m1 e <= b64.scale m2 e)%Q <-> m1 <= m2.
Proof.
  unfold b64.scale. rewrite Qmult_le_r by apply pow2_pos.
  rewrite Zle_Qle. reflexivity.
Qed.

Lemma scale_lt (m1 m2 e : Z) :
  (b64.scale m1 e < b64.scale m2 e)%Q <-> m1 < m2.
Proof.
  unfold b64.scale. rewrite Qmult_lt_r by apply pow2_pos.
  rewrite Zlt_Qlt. reflexivity.
Qed.

Lemma scale_0 (e : Z) : (b64.scale 0 e == 0)%Q.
Proof. unfold b64.scale. change (inject_Z 0) with 0%Q. ring. Qed.

Lemma scale_nonneg (m e : Z) : 0 <= m -> (0 <= b64.scale m e)%Q.
Proof. intros H. rewrite <- (scale_0 e). apply scale_le, H. Qed.

(** A number below [2^(j+c)] is below a number from [2^(k+e)] on. *)
Lemma scale_lt_pow (M c m e j k : Z) :
  0 <= j -> 0 <= k -> M < 2 ^ j -> 2 ^ k <= m -> j + c <= k + e ->
  (b64.scale M c < b64.scale m e)%Q.
Proof.
  intros Hj Hk HM Hm Hjk.
  set (lo := Z.min c e).
  rewrite (scale_align M c lo), (scale_align m e lo) by lia.
  apply scale_lt.
  assert (H1 : 0 < 2 ^ (c - lo)) by (apply Z.pow_pos_nonneg; lia).
  assert (H2 : 0 < 2 ^ (e - lo)) by (apply Z.pow_pos_nonneg; lia).
  assert (H3 : 2 ^ j * 2 ^ (c - lo) <= 2 ^ k * 2 ^ (e - lo)).
  { rewrite <- !Z.pow_add_r by lia. apply Z.pow_le_mono_r; lia. }
  nia.
Qed.

(** *** The rounding keeps the result between the numbers of the format
    that enclose the exact one *)

Lemma round_aux_upper (m0 : positive) (e M c : Z) :
  e <= Z.max (Z.pos (digits2_pos m0) + e - 53) (-1074) ->
  0 <= M < 2 ^ 53 -> -1074 <= c <= 971 ->
  (b64.scale (Z.pos m0) e <= b64.scale M c)%Q ->
  let r := binary_round_aux 53 1024 false (Z.pos m0) e loc_Exact in
  b64.unsigned r = true /\ (b64.value r <= b64.scale M c)%Q.
Proof.
  intros HE HM Hc Hle r.
  destruct (round_aux_spec m0 e HE) as (res & Hres & Hup & _ & Hnorm & Hr).
  pose proof (digits2_pos_spec m0) as Hd.
  set (d := Z.pos (digits2_pos m0)) in *.
  set (E := Z.max (d + e - 53) (-1074)) in *.
  destruct (Z_lt_le_dec c E) as [HcE|HcE].
  { exfalso. apply (Qle_not_lt _ _ Hle).
    apply (scale_lt_pow M c (Z.pos m0) e 53 (d - 1)); lia. }
  rewrite (scale_align M c E) in Hle |- * by lia.
  set (B := M * 2 ^ (c - E)) in *.
  assert (HB : res <= B).
  { apply Hup. rewrite (scale_align B E e) in Hle by lia.
    apply scale_le in Hle. exact Hle. }
  assert (Hp : 0 < 2 ^ (c - E)) by (apply Z.pow_pos_nonneg; lia).
  subst r. rewrite Hr.
  destruct (Z.eqb_spec res 0) as [H0|H0].
  { split; [reflexivity|]. simpl. apply scale_nonneg. subst B. nia. }
  destruct (Z.eqb_spec res (2 ^ 53)) as [H53|H53].
  { assert (HcE1 : E + 1 <= c).
    { destruct (Z.eq_dec c E) as [->|]; [|lia].
      exfalso. subst B. replace (E - E) with 0 in HB by lia.
      change (2 ^ 0) with 1 in HB. lia. }
    destruct (Z.leb_spec (E + 1) 971); [|lia].
    split; [reflexivity|]. simpl.
    rewrite (scale_align _ (E + 1) E) by lia.
    apply scale_le. replace (E + 1 - E) with 1 by lia.
    change (Z.pos (2 ^ 52) * 2 ^ 1) with (2 ^ 53). lia. }
  destruct (Z.leb_spec E 971); [|lia].
  split; [reflexivity|]. simpl.
  apply scale_le. rewrite Z2Pos.id by lia. exact HB.
Qed.

Lemma round_aux_lower (m0 : positive) (e M c : Z) :
  e <= Z.max (Z.pos (digits2_pos m0) + e - 53) (-1074) ->
  0 <= M < 2 ^ 53 -> -1074 <= c ->
  (b64.scale M c <= b64.scale (Z.pos m0) e)%Q ->
  let r := binary_round_aux 53 1024 false (Z.pos m0) e loc_Exact in
  r = S754_infinity false \/
  (b64.unsigned r = true /\ (b64.scale M c <= b64.value r)%Q).
Proof.
  intros HE HM Hc Hle r.
  destruct (round_aux_spec m0 e HE) as (res & Hres & _ & Hlo & Hnorm & Hr).
  pose proof (digits2_pos_spec m0) as Hd.
  set (d := Z.pos (digits2_pos m0)) in *.
  set (E := Z.max (d + e - 53) (-1074)) in *.
  assert (Hv : (b64.scale M c <= b64.scale res E)%Q /\ (M = 0 \/ res <> 0)).
  { destruct (Z_lt_le_dec c E) as [HcE|HcE].
    - assert (H52 : 2 ^ 52 <= res) by (apply Hnorm; lia).
      split; [|right; lia].
      apply Qlt_le_weak.
      apply (scale_lt_pow M c res E 53 52); lia.
    - rewrite (scale_align M c E) in Hle |- * by lia.
      set (A := M * 2 ^ (c - E)) in *.
      assert (HA : A <= res).
      { apply Hlo. rewrite (scale_align A E e) in Hle by lia.
        apply scale_le in Hle. exact Hle. }
      split; [apply scale_le, HA|].
      assert (Hp : 0 < 2 ^ (c - E)) by (apply Z.pow_pos_nonneg; lia).
      destruct (Z.eq_dec M 0); [left; assumption|right; subst A; nia]. }
  destruct Hv as [Hv Hnz].
  subst r. rewrite Hr.
  destruct (Z.eqb_spec res 0) as [H0|H0].
  { right. split; [reflexivity|]. simpl.
    destruct Hnz as [->|]; [|contradiction].
    rewrite scale_0. apply Qle_refl. }
  destruct (Z.eqb_spec res (2 ^ 53)) as [H53|H53].
  { destruct (Z.leb_spec (E + 1) 971); [|left; reflexivity].
    right. split; [reflexivity|]. simpl.
    rewrite (scale_align _ (E + 1) E) by lia.
    replace (E + 1 - E) with 1 by lia.
    change (Z.pos (2 ^ 52) * 2 ^ 1) with (2 ^ 53). rewrite <- H53. exact Hv. }
  destruct (Z.leb_spec E 971); [|left; reflexivity].
  right. split; [reflexivity|]. simpl.
  rewrite Z2Pos.id by lia. exact Hv.
Qed.

(** *** Alignment *)

Lemma iter_xO (m d : positive) :
  Z.pos (Pos.iter xO m d) = Z.pos m * 2 ^ Z.pos d.
Proof.
  induction d as [|d IH] using Pos.peano_ind.
  - simpl. lia.
  - rewrite Pos.iter_succ, Pos2Z.inj_succ, Z.pow_succ_r by lia.
    rewrite Pos2Z.inj_xO, IH. lia.
Qed.

Lemma shl_align_spec (mx : positive) (ex ex' : Z) :
  let '(m, e) := shl_align mx ex ex' in
  e = Z.min ex ex' /\ Z.pos m = Z.pos mx * 2 ^ (ex - e).
Proof.
  unfold shl_align. destruct (ex' - ex) as [|d|d] eqn:Hd.
  - split; [lia|]. replace (ex - ex) with 0 by lia. simpl. lia.
  - split; [lia|]. replace (ex - ex) with 0 by lia. simpl. lia.
  - split; [lia|]. rewrite iter_xO. f_equal. f_equal. lia.
Qed.

Lemma digits2_pos_unique (m : positive) (k : Z) :
  2 ^ (k - 1) <= Z.pos m < 2 ^ k -> Z.pos (digits2_pos m) = k.
Proof.
  intros [H1 H2]. pose proof (digits2_pos_spec m) as [H3 H4].
  set (d := Z.pos (digits2_pos m)) in *.
  assert (Hk : 0 < k).
  { destruct (Z_lt_le_dec 0 k) as [|Hk0]; [assumption|]. exfalso.
    destruct (Z.eq_dec k 0) as [->|Hnz]; [simpl in H2; lia|].
    rewrite Z.pow_neg_r in H2 by lia. lia. }
  destruct (Z_lt_le_dec d k) as [Hlt|Hge].
  - assert (2 ^ d <= 2 ^ (k - 1)) by (apply Z.pow_le_mono_r; lia). lia.
  - destruct (Z_lt_le_dec k d) as [Hlt|Hge'].
    + assert (2 ^ k <= 2 ^ (d - 1)) by (apply Z.pow_le_mono_r; lia). lia.
    + lia.
Qed.

Lemma digits2_pos_shift (m m' : positive) (k : Z) :
  0 <= k -> Z.pos m' = Z.pos m * 2 ^ k ->
  Z.pos (digits2_pos m') = Z.pos (digits2_pos m) + k.
Proof.
  intros Hk Hm. apply digits2_pos_unique. rewrite Hm.
  pose proof (digits2_pos_spec m) as [H1 H2].
  replace (Z.pos (digits2_pos m) + k - 1) with (Z.pos (digits2_pos m) - 1 + k) by lia.
  rewrite !Z.pow_add_r by lia.
  assert (0 < 2 ^ k) by (apply Z.pow_pos_nonneg; lia).
  nia.
Qed.

(** [binary_round] on a positive number: an alignment, then the rounding. *)
Lemma binary_round_aligned (p : positive) (e : Z) :
  exists mz ez,
    binary_round 53 1024 false p e =
      binary_round_aux 53 1024 false (Z.pos mz) ez loc_Exact /\
    ez <= Z.max (Z.pos (digits2_pos mz) + ez - 53) (-1074) /\
    (b64.scale (Z.pos mz) ez == b64.scale (Z.pos p) e)%Q.
Proof.
  unfold binary_round.
  pose proof (shl_align_spec p e (fexp 53 1024 (Z.pos (digits2_pos p) + e))) as H.
  destruct (shl_align p e (fexp 53 1024 (Z.pos (digits2_pos p) + e))) as [mz ez].
  destruct H as [Hez Hmz].
  exists mz, ez. split; [reflexivity|].
  assert (Hd : Z.pos (digits2_pos mz) = Z.pos (digits2_pos p) + (e - ez))
    by (apply digits2_pos_shift; [lia|exact Hmz]).
  split.
  - rewrite Hd. unfold fexp, emin in Hez. lia.
  - rewrite (scale_align (Z.pos p) e ez) by lia. rewrite Hmz. reflexivity.
Qed.

Lemma binary_round_upper (p : positive) (e M c : Z) :
  0 <= M < 2 ^ 53 -> -1074 <= c <= 971 ->
  (b64.scale (Z.pos p) e <= b64.scale M c)%Q ->
  let r := binary_round 53 1024 false p e in
  b64.unsigned r = true /\ (b64.value r <= b64.scale M c)%Q.
Proof.
  intros HM Hc Hle.
  destruct (binary_round_aligned p e) as (mz & ez & -> & Hal & Hv).
  apply round_aux_upper; try assumption. rewrite Hv. exact Hle.
Qed.

Lemma binary_round_lower (p : positive) (e M c : Z) :
  0 <= M < 2 ^ 53 -> -1074 <= c ->
  (b64.scale M c <= b64.scale (Z.pos p) e)%Q ->
  let r := binary_round 53 1024 false p e in
  r = S754_infinity false \/
  (b64.unsigned r = true /\ (b64.scale M c <= b64.value r)%Q).
Proof.
  intros HM Hc Hle.
  destruct (binary_round_aligned p e) as (mz & ez & -> & Hal & Hv).
  apply round_aux_lower; try assumption. rewrite Hv. exact Hle.
Qed.

(** *** The operations on numbers that are not negative *)

Lemma unsigned_inv (x : b64.float) :
  b64.unsigned x = true ->
  x = S754_zero false \/ exists m e, x = S754_finite false m e.
Proof.
  destruct x as [[|]|[|]| |[|] m e]; simpl; try discriminate; eauto.
Qed.

Lemma value_unsigned (x : b64.float) :
  b64.unsigned x = true -> (0 <= b64.value x)%Q.
Proof.
  intros H. destruct (unsigned_inv x H) as [->|(m & e & ->)]; simpl.
  - apply Qle_refl.
  - apply scale_nonneg. lia.
Qed.

Lemma scale_mul (m1 e1 m2 e2 : Z) :
  (b64.scale m1 e1 * b64.scale m2 e2 == b64.scale (m1 * m2) (e1 + e2))%Q.
Proof.
  unfold b64.scale. rewrite Qpower_plus by discriminate.
  rewrite inject_Z_mult. ring.
Qed.

Lemma scale_add (m1 m2 e : Z) :
  (b64.scale m1 e + b64.scale m2 e == b64.scale (m1 + m2) e)%Q.
Proof. unfold b64.scale. rewrite inject_Z_plus. ring. Qed.

Lemma digits2_pos_full (m : positive) :
  2 ^ 52 <= Z.pos m -> 53 <= Z.pos (digits2_pos m).
Proof.
  intros H. pose proof (digits2_pos_spec m) as [_ H2].
  destruct (Z_lt_le_dec (Z.pos (digits2_pos m)) 53) as [Hlt|]; [|assumption].
  assert (2 ^ Z.pos (digits2_pos m) <= 2 ^ 52) by (apply Z.pow_le_mono_r; lia).
  lia.
Qed.

Lemma mul_finite (mx my : positive) (ex ey : Z) :
  2 ^ 52 <= Z.pos mx \/ 2 ^ 52 <= Z.pos my ->
  b64.mul (S754_finite false mx ex) (S754_finite false my ey) =
    binary_round_aux 53 1024 false (Z.pos (mx * my)) (ex + ey) loc_Exact /\
  ex + ey <= Z.max (Z.pos (digits2_pos (mx * my)) + (ex + ey) - 53) (-1074).
Proof.
  intros Hfull. split; [reflexivity|].
  assert (H : 53 <= Z.pos (digits2_pos (mx * my))).
  { apply digits2_pos_full. rewrite Pos2Z.inj_mul. destruct Hfull; nia. }
  lia.
Qed.

Lemma mul_upper (x y : b64.float) (M c : Z) :
  b64.full x \/ b64.full y -> b64.unsigned x = true -> b64.unsigned y = true ->
  0 <= M < 2 ^ 53 -> -1074 <= c <= 971 ->
  (b64.value x * b64.value y <= b64.scale M c)%Q ->
  b64.unsigned (b64.mul x y) = true /\
  (b64.value (b64.mul x y) <= b64.scale M c)%Q.
Proof.
  intros Hfull Hx Hy HM Hc Hle.
  assert (H0 : (0 <= b64.scale M c)%Q) by (apply scale_nonneg; lia).
  destruct (unsigned_inv x Hx) as [->|(mx & ex & ->)];
    destruct (unsigned_inv y Hy) as [->|(my & ey & ->)];
    try (split; [reflexivity|exact H0]).
  assert (Hf : 2 ^ 52 <= Z.pos mx \/ 2 ^ 52 <= Z.pos my).
  { destruct Hfull as [(m & e & Heq & H)|(m & e & Heq & H)];
      injection Heq as <- <-; auto. }
  destruct (mul_finite mx my ex ey Hf) as [-> Hal].
  apply round_aux_upper; try assumption.
  rewrite Pos2Z.inj_mul, <- scale_mul. exact Hle.
Qed.

Lemma mul_lower (x y : b64.float) (M c : Z) :
  b64.full x \/ b64.full y -> b64.unsigned x = true -> b64.unsigned y = true ->
  0 <= M < 2 ^ 53 -> -1074 <= c ->
  (b64.scale M c <= b64.value x * b64.value y)%Q ->
  b64.mul x y = S754_infinity false \/
  (b64.unsigned (b64.mul x y) = true /\
   (b64.scale M c <= b64.value (b64.mul x y))%Q).
Proof.
  intros Hfull Hx Hy HM Hc Hle.
  destruct (unsigned_inv x Hx) as [->|(mx & ex & ->)];
    destruct (unsigned_inv y Hy) as [->|(my & ey & ->)];
    try (right; split; [reflexivity|];
         simpl in Hle |- *; rewrite ?Qmult_0_l, ?Qmult_0_r in Hle; exact Hle).
  assert (Hf : 2 ^ 52 <= Z.pos mx \/ 2 ^ 52 <= Z.pos my).
  { destruct Hfull as [(m & e & Heq & H)|(m & e & Heq & H)];
      injection Heq as <- <-; auto. }
  destruct (mul_finite mx my ex ey Hf) as [-> Hal].
  apply round_aux_lower; try assumption.
  rewrite Pos2Z.inj_mul, <- scale_mul. exact Hle.
Qed.

Lemma add_finite (mx my : positive) (ex ey : Z) :
  exists p e,
    b64.add (S754_finite false mx ex) (S754_finite false my ey) =
      binary_round 53 1024 false p e /\
    (b64.scale (Z.pos mx) ex + b64.scale (Z.pos my) ey == b64.scale (Z.pos p) e)%Q.
Proof.
  unfold b64.add, SFadd.
  pose proof (shl_align_spec mx ex (Z.min ex ey)) as Hx.
  pose proof (shl_align_spec my ey (Z.min ex ey)) as Hy.
  destruct (shl_align mx ex (Z.min ex ey)) as [mx' ex'].
  destruct (shl_align my ey (Z.min ex ey)) as [my' ey'].
  destruct Hx as [Hex Hmx], Hy as [Hey Hmy]. simpl fst.
  exists (mx' + my')%positive, (Z.min ex ey). split; [reflexivity|].
  rewrite (scale_align (Z.pos mx) ex (Z.min ex ey)) by lia.
  rewrite (scale_align (Z.pos my) ey (Z.min ex ey)) by lia.
  rewrite scale_add. rewrite Pos2Z.inj_add, Hmx, Hmy.
  replace ex' with (Z.min ex ey) by lia.
  replace ey' with (Z.min ex ey) by lia. reflexivity.
Qed.

Lemma add_upper (x y : b64.float) (M c : Z) :
  b64.unsigned x = true -> b64.unsigned y = true ->
  0 <= M < 2 ^ 53 -> -1074 <= c <= 971 ->
  (b64.value x + b64.value y <= b64.scale M c)%Q ->
  b64.unsigned (b64.add x y) = true /\
  (b64.value (b64.add x y) <= b64.scale M c)%Q.
Proof.
  intros Hx Hy HM Hc Hle.
  destruct (unsigned_inv x Hx) as [->|(mx & ex & ->)];
    destruct (unsigned_inv y Hy) as [->|(my & ey & ->)];
    try (split; [reflexivity|];
         simpl in Hle |- *; rewrite ?Qplus_0_l, ?Qplus_0_r in Hle; exact Hle).
  destruct (add_finite mx my ex ey) as (p & e & -> & Hv).
  apply binary_round_upper; try assumption.
  rewrite <- Hv. exact Hle.
Qed.

Lemma add_lower (x y : b64.float) (M c : Z) :
  b64.unsigned x = true -> b64.unsigned y = true ->
  0 <= M < 2 ^ 53 -> -1074 <= c ->
  (b64.scale M c <= b64.value x + b64.value y)%Q ->
  b64.add x y = S754_infinity false \/
  (b64.unsigned (b64.add x y) = true /\
   (b64.scale M c <= b64.value (b64.add x y))%Q).
Proof.
  intros Hx Hy HM Hc Hle.
  destruct (unsigned_inv x Hx) as [->|(mx & ex & ->)];
    destruct (unsigned_inv y Hy) as [->|(my & ey & ->)];
    try (right; split; [reflexivity|];
         simpl in Hle |- *; rewrite ?Qplus_0_l, ?Qplus_0_r in Hle; exact Hle).
  destruct (add_finite mx my ex ey) as (p & e & -> & Hv).
  apply binary_round_lower; try assumption.
  rewrite <- Hv. exact Hle.
Qed.

Lemma normalize_exact (n e M c : Z) :
  0 < n -> 0 <= M < 2 ^ 53 -> -1074 <= c <= 971 ->
  (b64.scale n e == b64.scale M c)%Q ->
  let r := binary_normalize 53 1024 n e false in
  b64.unsigned r = true /\ (b64.value r == b64.scale M c)%Q.
Proof.
  intros Hn HM Hc Hv r. subst r.
  destruct n as [|p|p]; try lia. simpl binary_normalize.
  destruct (binary_round_upper p e M c HM Hc) as [Hu Hle];
    [rewrite Hv; apply Qle_refl|].
  split; [exact Hu|].
  destruct (binary_round_lower p e M c HM ltac:(lia)) as [Hinf|[_ Hge]];
    [rewrite Hv; apply Qle_refl| |].
  - rewrite Hinf in Hu. discriminate.
  - apply Qle_antisym; assumption.
Qed.

Lemma mul_exact (x y : b64.float) (M c : Z) :
  b64.full x \/ b64.full y -> b64.unsigned x = true -> b64.unsigned y = true ->
  0 <= M < 2 ^ 53 -> -1074 <= c <= 971 ->
  (b64.value x * b64.value y == b64.scale M c)%Q ->
  b64.unsigned (b64.mul x y) = true /\
  (b64.value (b64.mul x y) == b64.scale M c)%Q.
Proof.
  intros Hfull Hx Hy HM Hc Hv.
  destruct (mul_upper x y M c Hfull Hx Hy HM Hc) as [Hu Hle];
    [rewrite Hv; apply Qle_refl|].
  split; [exact Hu|].
  destruct (mul_lower x y M c Hfull Hx Hy HM ltac:(lia)) as [Hinf|[_ Hge]];
    [rewrite Hv; apply Qle_refl| |].
  - rewrite Hinf in Hu. discriminate.
  - apply Qle_antisym; assumption.
Qed.

(** The sum of two numbers stays between the numbers of the format that
    enclose the exact sum. *)
Lemma add_between (x y : b64.float) (A ca B cb : Z) :
  b64.unsigned x = true -> b64.unsigned y = true ->
  0 <= A < 2 ^ 53 -> -1074 <= ca ->
  0 <= B < 2 ^ 53 -> -1074 <= cb <= 971 ->
  (b64.scale A ca <= b64.value x + b64.value y)%Q ->
  (b64.value x + b64.value y <= b64.scale B cb)%Q ->
  b64.unsigned (b64.add x y) = true /\
  (b64.scale A ca <= b64.value (b64.add x y))%Q /\
  (b64.value (b64.add x y) <= b64.scale B cb)%Q.
Proof.
  intros Hx Hy HA Hca HB Hcb Hlo Hup.
  destruct (add_upper x y B cb Hx Hy HB Hcb Hup) as [Hu Hle].
  split; [exact Hu|]. split; [|exact Hle].
  destruct (add_lower x y A ca Hx Hy HA Hca Hlo) as [Hinf|[_ Hge]].
  - rewrite Hinf in Hu. discriminate.
  - exact Hge.
Qed.

Lemma full_c0_5 : b64.full b64.c0_5.
Proof. eexists _, _. split; [reflexivity|]. vm_compute. discriminate. Qed.

Lemma full_c1_5 : b64.full b64.c1_5.
Proof. eexists _, _. split; [reflexivity|]. vm_compute. discriminate. Qed.

Lemma draw_spec (n : Z) :
  0 <= n < 2 ^ 53 ->
  b64.unsigned (b64.draw n) = true /\
  (b64.value (b64.draw n) == b64.scale n (-53))%Q.
Proof.
  intros Hn. destruct (Z.eq_dec n 0) as [->|Hnz].
  - split; reflexivity.
  - apply normalize_exact; [lia|lia|lia|reflexivity].
Qed.

Lemma jitter_spec (n : Z) :
  0 <= n < 2 ^ 53 ->
  let jitter := b64.mul b64.c0_5 (b64.draw n) in
  b64.unsigned jitter = true /\
  (b64.value jitter == b64.scale n (-54))%Q.
Proof.
  intros Hn jitter. destruct (draw_spec n Hn) as [Hu Hv].
  apply mul_exact; [left; apply full_c0_5|reflexivity|exact Hu|lia|lia|].
  rewrite Hv. change (b64.value b64.c0_5) with (b64.scale (2 ^ 52) (-53)).
  rewrite scale_mul, Z.mul_comm, scale_shift by lia. reflexivity.
Qed.

Lemma of_int_spec (k : Z) :
  0 < k < 2 ^ 53 ->
  exists a,
    b64.of_int k = Some a /\ b64.unsigned a = true /\
    (b64.value a == b64.scale k 0)%Q.
Proof.
  intros Hk.
  destruct (normalize_exact k 0 k 0 ltac:(lia) ltac:(lia) ltac:(lia)
              ltac:(reflexivity)) as [Hu Hv].
  unfold b64.of_int. change b64.prec with 53. change b64.emax with 1024.
  destruct (binary_normalize 53 1024 k 0 false) as [s|s| |s m e];
    try discriminate Hu; eexists; (split; [reflexivity|split; assumption]).
Qed.

Lemma of_int_defined (k : Z) :
  0 < k < 2 ^ 1023 ->
  exists a, b64.of_int k = Some a /\ b64.unsigned a = true.
Proof.
  intros Hk. destruct k as [|p|p]; try lia.
  destruct (binary_round_upper p 0 (2 ^ 53 - 1) 971 ltac:(lia) ltac:(lia))
    as [Hu _].
  { rewrite (scale_align (2 ^ 53 - 1) 971 0) by lia. apply scale_le.
    replace (971 - 0) with 971 by lia.
    assert (H : 2 ^ 1023 = 2 ^ 52 * 2 ^ 971) by (rewrite <- Z.pow_add_r by lia; reflexivity).
    assert (0 < 2 ^ 971) by (apply Z.pow_pos_nonneg; lia).
    rewrite H in Hk. nia. }
  unfold b64.of_int. change b64.prec with 53. change b64.emax with 1024.
  simpl binary_normalize.
  destruct (binary_round 53 1024 false p 0) as [s|s| |s m e];
    try discriminate Hu; eexists; (split; [reflexivity|assumption]).
Qed.

Lemma pow2_m1 : (2 ^ (-1) == 1 # 2)%Q.
Proof. reflexivity. Qed.

Lemma scale_half (m : Z) : (b64.scale m (-1) == inject_Z m * 0.5)%Q.
Proof. unfold b64.scale. rewrite pow2_m1. lra. Qed.

(** The delay after a first failure. *)
Lemma retry_delay_b64_first (attempt n : Z) :
  attempt <= 0 -> 0 <= n < 2 ^ 53 ->
  let r := b64.draw n in
  let jitter := b64.mul b64.c0_5 r in
  let d := b64.add b64.c0_75 jitter in
  retry_delay_b64 attempt r = Some d /\
  b64.unsigned d = true /\
  (0.75 <= b64.value d)%Q /\ (b64.value d <= 1.25)%Q /\
  (b64.value b64.c0_75 + b64.value jitter == retry_delay attempt (b64.value r))%Q.
Proof.
  intros Ha Hn r jitter d. subst d jitter r.
  destruct (draw_spec n Hn) as [Hur Hvr].
  destruct (jitter_spec n Hn) as [Huj Hvj].
  assert (H75 : (b64.value b64.c0_75 == b64.scale 3 (-2))%Q) by reflexivity.
  assert (Hj0 : (0 <= b64.scale n (-54))%Q) by (apply scale_nonneg; lia).
  assert (Hj1 : (b64.scale n (-54) <= b64.scale 2 (-2))%Q).
  { rewrite (scale_align 2 (-2) (-54)) by lia. apply scale_le.
    change (2 * 2 ^ (-2 - -54)) with (2 ^ 53). lia. }
  destruct (add_between b64.c0_75 (b64.mul b64.c0_5 (b64.draw n)) 3 (-2) 5 (-2))
    as (Hu & Hlo & Hup);
    try reflexivity; try assumption; try lia.
  { rewrite H75, Hvj. lra. }
  { rewrite H75, Hvj, <- (scale_add 3 2 (-2)). lra. }
  split.
  { unfold retry_delay_b64. destruct (Z.ltb_spec 0 attempt); [lia|reflexivity]. }
  split; [exact Hu|].
  assert (E3 : (b64.scale 3 (-2) == 0.75)%Q) by reflexivity.
  assert (E5 : (b64.scale 5 (-2) == 1.25)%Q) by reflexivity.
  split; [rewrite <- E3; exact Hlo|]. split; [rewrite <- E5; exact Hup|].
  unfold retry_delay. destruct (Z.ltb_spec 0 attempt); [lia|].
  rewrite Hvj, Hvr. unfold b64.scale.
  replace (-53) with (-54 + 1) by lia.
  rewrite (Qpower_plus 2 (-54) 1) by discriminate.
  change (b64.value b64.c0_75) with (b64.scale 6755399441055744 (-53)).
  assert (E : (b64.scale 6755399441055744 (-53) == 0.75)%Q) by reflexivity.
  rewrite E. change (2 ^ 1)%Q with 2%Q. ring.
Qed.

(** The delay after a later failure. *)
Lemma retry_delay_b64_later (k n : Z) :
  0 < k < 2 ^ 51 -> 0 <= n < 2 ^ 53 ->
  let r := b64.draw n in
  let jitter := b64.mul b64.c0_5 r in
  exists a,
    b64.of_int k = Some a /\
    let d := b64.add (b64.mul a b64.c1_5) jitter in
    retry_delay_b64 k r = Some d /\
    b64.unsigned d = true /\
    (1.5 * inject_Z k <= b64.value d)%Q /\
    (b64.value d <= 1.5 * inject_Z k + 0.5)%Q /\
    (b64.value (b64.mul a b64.c1_5) + b64.value jitter
       == retry_delay k (b64.value r))%Q.
Proof.
  intros Hk Hn r jitter. subst jitter r.
  destruct (draw_spec n Hn) as [Hur Hvr].
  destruct (jitter_spec n Hn) as [Huj Hvj].
  destruct (of_int_spec k ltac:(lia)) as (a & Ha & Hua & Hva).
  exists a. split; [exact Ha|]. intros d. subst d.
  destruct (mul_exact a b64.c1_5 (3 * k) (-1)) as [Hub Hvb];
    [right; apply full_c1_5|exact Hua|reflexivity|lia|lia| |].
  { rewrite Hva. change (b64.value b64.c1_5) with (b64.scale (3 * 2 ^ 51) (-52)).
    rewrite scale_mul.
    replace (k * (3 * 2 ^ 51)) with (3 * k * 2 ^ 51) by lia.
    rewrite scale_shift by lia. reflexivity. }
  assert (Hj0 : (0 <= b64.scale n (-54))%Q) by (apply scale_nonneg; lia).
  assert (Hj1 : (b64.scale n (-54) <= b64.scale 1 (-1))%Q).
  { rewrite (scale_align 1 (-1) (-54)) by lia. apply scale_le.
    change (1 * 2 ^ (-1 - -54)) with (2 ^ 53). lia. }
  destruct (add_between (b64.mul a b64.c1_5) (b64.mul b64.c0_5 (b64.draw n))
              (3 * k) (-1) (3 * k + 1) (-1))
    as (Hu & Hlo & Hup); try assumption; try lia.
  { rewrite Hvb, Hvj. lra. }
  { rewrite Hvb, Hvj, <- (scale_add (3 * k) 1 (-1)). lra. }
  assert (E1 : (b64.scale (3 * k) (-1) == 1.5 * inject_Z k)%Q).
  { rewrite scale_half, inject_Z_mult. change (inject_Z 3) with 3%Q.
    field. }
  assert (E2 : (b64.scale (3 * k + 1) (-1) == 1.5 * inject_Z k + 0.5)%Q).
  { rewrite scale_half, inject_Z_plus, inject_Z_mult.
    change (inject_Z 3) with 3%Q. change (inject_Z 1) with 1%Q. field. }
  split.
  { unfold retry_delay_b64. destruct (Z.ltb_spec 0 k); [|lia].
    rewrite Ha. reflexivity. }
  split; [exact Hu|].
  split; [rewrite <- E1; exact Hlo|].
  split; [rewrite <- E2; exact Hup|].
  unfold retry_delay. destruct (Z.ltb_spec 0 k); [|lia].
  rewrite Hvb, Hvj, Hvr, E1. unfold b64.scale.
  replace (-53) with (-54 + 1) by lia.
  rewrite (Qpower_plus 2 (-54) 1) by discriminate.
  change (2 ^ 1)%Q with 2%Q. field.
Qed.

End b64_facts.

Lemma retry_delay_b64_defined (k n : Z) :
  0 < k < 2 ^ 1023 -> exists d, retry_delay_b64 k (b64.draw n) = Some d.
Proof.
  intros Hk. destruct (b64_facts.of_int_defined k Hk) as (a & Ha & _).
  unfold retry_delay_b64. destruct (Z.ltb_spec 0 k); [|lia].
  rewrite Ha. eexists. reflexivity.
Qed.

Lemma draw_in_unit (n : Z) :
  0 <= n < 2 ^ 53 ->
  let r := b64.draw n in
  let jitter := b64.mul b64.c0_5 r in
  (0 <= b64.value r)%Q /\ (b64.value r < 1)%Q /\
  (b64.value jitter == 0.5 * b64.value r)%Q /\
  (0 <= b64.value jitter)%Q /\ (b64.value jitter < 0.5)%Q.
Proof.
  intros Hn r jitter. subst jitter r.
  destruct (b64_facts.draw_spec n Hn) as [_ Hvr].
  destruct (b64_facts.jitter_spec n Hn) as [_ Hvj].
  assert (H0 : (0 <= b64.scale n (-53))%Q) by (apply b64_facts.scale_nonneg; lia).
  assert (H1 : (b64.scale n (-53) < b64.scale (2 ^ 53) (-53))%Q)
    by (apply b64_facts.scale_lt; lia).
  assert (E1 : (b64.scale (2 ^ 53) (-53) == 1)%Q) by reflexivity.
  assert (Eh : (b64.scale n (-54) == 0.5 * b64.scale n (-53))%Q).
  { unfold b64.scale. replace (-53) with (-54 + 1) by lia.
    rewrite (Qpower_plus 2 (-54) 1) by discriminate.
    change (2 ^ 1)%Q with 2%Q. field. }
  rewrite Hvj, Hvr, Eh. rewrite E1 in H1.
  split; [exact H0|]. split; [exact H1|]. split; [reflexivity|]. split; lra.
Qed.

(** C3, as the code has it.  When [send] fails, [try_send] draws [r],
    computes the delay [(attempt * 1.5 if attempt > 0 else 0.75) + 0.5 * r]
    and puts [make_next_attempt(delay)] into the queue, whatever [attempt]
    is.  The code computes the delay in binary64.  For a draw
    [r = n / 2^53] the jitter [0.5 * r] is exact and in [[0, 0.5)]; the
    two operands of the last addition sum exactly to the value of the
    expression, and the addition rounds: the delay is in [[0.75, 1.25]]
    for [attempt = 0] and in [[1.5k, 1.5k + 0.5]] for [attempt = k] with
    [0 < k < 2^51], and no cap is applied to [attempt]. *)
Theorem failed_send_retry_delay (env : Env) (Hff : fault_free env)
    (item : Message) (st st1 : State)
    (Hfailed : send env item st = (Val false, st1)) :
  (let r := random_at env (random_draws (world st1)) in
   let delay :=
     ((if 0 <? attempt item then inject_Z (attempt item) * 1.5 else 0.75) + 0.5 * r)%Q in
   let now := monotonic_at env (clock_reads (world st1)) in
   exists st',
     try_send_body env item st = (Val tt, st') /\
     queue (thread st') = put (queue (thread st1)) (next_attempt_at item now delay) /\
     send_at (next_attempt_at item now delay) = (now + delay)%Q /\
     attempt (next_attempt_at item now delay) = attempt item + 1) /\
  (forall n, 0 <= n < 2 ^ 53 ->
     let r := b64.draw n in
     let jitter := b64.mul b64.c0_5 r in
     ((0 <= b64.value r)%Q /\ (b64.value r < 1)%Q /\
      (b64.value jitter == 0.5 * b64.value r)%Q /\
      (0 <= b64.value jitter)%Q /\ (b64.value jitter < 0.5)%Q) /\
     (forall a, a <= 0 ->
        let d := b64.add b64.c0_75 jitter in
        retry_delay_b64 a r = Some d /\
        b64.unsigned d = true /\
        (0.75 <= b64.value d)%Q /\ (b64.value d <= 1.25)%Q /\
        (b64.value b64.c0_75 + b64.value jitter == retry_delay a (b64.value r))%Q) /\
     (forall k, 0 < k < 2 ^ 51 ->
        exists a,
          b64.of_int k = Some a /\
          let d := b64.add (b64.mul a b64.c1_5) jitter in
          retry_delay_b64 k r = Some d /\
          b64.unsigned d = true /\
          (1.5 * inject_Z k <= b64.value d)%Q /\
          (b64.value d <= 1.5 * inject_Z k + 0.5)%Q /\
          (b64.value (b64.mul a b64.c1_5) + b64.value jitter
             == retry_delay k (b64.value r))%Q) /\
     (forall k, 0 < k < 2 ^ 1023 -> exists d, retry_delay_b64 k r = Some d)).
Proof.
  split.
  - intros r delay now. eexists. split; [apply try_send_body_failed; eassumption|].
    simpl. repeat split.
  - intros n Hn r jitter. split; [|split; [|split]].
    + apply draw_in_unit, Hn.
    + intros a Ha. apply b64_facts.retry_delay_b64_first; assumption.
    + intros k Hk. apply b64_facts.retry_delay_b64_later; assumption.
    + intros k Hk. apply retry_delay_b64_defined, Hk.
Qed.

Lemma failed_send_retry_delay_witness :
  let item := Message_init "hello" 0 0 in
  let st1 := snd (send quiet_env item drained_state) in
  exists st',
    try_send_body quiet_env item drained_state = (Val tt, st') /\
    queue (thread st') =
      put (queue (thread st1)) (next_attempt_at item 0.1 (0.75 + 0.5 * 0.5)) /\
    send_at (next_attempt_at item 0.1 (0.75 + 0.5 * 0.5)) = (0.1 + (0.75 + 0.5 * 0.5))%Q /\
    attempt (next_attempt_at item 0.1 (0.75 + 0.5 * 0.5)) = 1.
Proof.
  intros item st1.
  exact (proj1 (failed_send_retry_delay quiet_env quiet_env_fault_free
                  item drained_state st1 eq_refl)).
Defined.

(** What the bound on [attempt] is for: from [2^53] on, an attempt count
    is itself rounded, and the delay can be below [1.5 * attempt]. *)
Lemma retry_delay_of_a_large_attempt :
  let k := 2 ^ 53 + 1 in
  exists d,
    retry_delay_b64 k (b64.draw 0) = Some d /\
    (b64.value d < 1.5 * inject_Z k)%Q.
Proof.
  eexists. split; [vm_compute; reflexivity|vm_compute; reflexivity].
Qed.

(** The claim's upper ends are reached: with the largest draw,
    [1 - 2^-53], the delay is 1.25 after a first failure and 2 after a
    second one. *)
Lemma retry_delay_reaches_upper_end :
  let r := b64.draw (2 ^ 53 - 1) in
  (0 <= b64.value r)%Q /\ (b64.value r < 1)%Q /\
  (exists d, retry_delay_b64 0 r = Some d /\ (b64.value d == 1.25)%Q) /\
  (exists d, retry_delay_b64 1 r = Some d /\ (b64.value d == 1.5 * 1 + 0.5)%Q).
Proof.
  split; [vm_compute; discriminate|]. split; [vm_compute; reflexivity|].
  split; eexists; (split; [vm_compute; reflexivity|vm_compute; reflexivity]).
Qed.

(** ** A message the limiter refuses *)

Section Refused.

Variable env : Env.
Hypothesis Hff : fault_free env.

Lemma is_allowed_ok st :
  is_allowed env st =
    (fst (is_allowed_at (rate_limiter (thread st))
            (monotonic_at env (clock_reads (world st)))),
     with_thread
       (set_rate_limiter
          (snd (is_allowed_at (rate_limiter (thread st))
                  (monotonic_at env (clock_reads (world st))))))
       (with_world tick_clock st)).
Proof.
  unfold is_allowed, bind. rewrite time_monotonic_ok.
  simpl. destruct (is_allowed_at _ _). reflexivity.
Qed.

Lemma send_refused item st rl' :
  is_allowed_at (rate_limiter (thread st))
    (monotonic_at env (clock_reads (world st))) = (Val false, rl') ->
  send env item st =
    (Val false,
     with_thread (fun t => set_rate_limited (rate_limited t + 1) t)
       (with_world tick_calls
          (with_thread (set_rate_limiter rl') (with_world tick_clock st)))).
Proof.
  intros Hrl. unfold send.
  erewrite bind_val by (rewrite is_allowed_ok, Hrl; reflexivity). simpl.
  erewrite bind_val by apply call_ok, Hff. reflexivity.
Qed.

End Refused.

(** C2. When [is_allowed] returns false, [send] adds one to the
    [rate_limited] counter, leaves the limiter as [is_allowed] left it
    (no token is taken) and returns false; [try_send] then returns
    normally with the counter one higher, the limiter still as
    [is_allowed] left it, no histogram touched, and the queue holding one
    more message, the [make_next_attempt] of the refused one with the
    retry delay. *)
Theorem rate_limited_is_retried (env : Env) (Hff : fault_free env)
    (item : Message) (st : State) (rl' : RateLimiter)
    (Hrefused :
       is_allowed_at (rate_limiter (thread st))
         (monotonic_at env (clock_reads (world st))) = (Val false, rl')) :
  exists st1 st',
    send env item st = (Val false, st1) /\
    rate_limited (thread st1) = rate_limited (thread st) + 1 /\
    rate_limiter (thread st1) = rl' /\
    try_send env item st = (Val tt, st') /\
    rate_limited (thread st') = rate_limited (thread st) + 1 /\
    rate_limiter (thread st') = rl' /\
    queue (thread st') =
      put (queue (thread st))
        (next_attempt_at item (monotonic_at env (S (clock_reads (world st))))
           (retry_delay (attempt item) (random_at env (random_draws (world st))))) /\
    qsize (queue (thread st')) = qsize (queue (thread st)) + 1 /\
    send_time_histogram (thread st') = send_time_histogram (thread st) /\
    lag_histogram (thread st') = lag_histogram (thread st) /\
    attempt_histogram (thread st') = attempt_histogram (thread st).
Proof.
  eexists _, _. split; [exact (send_refused env Hff item st rl' Hrefused)|].
  split; [reflexivity|]. split; [reflexivity|].
  split.
  - unfold try_send, log_call. erewrite bind_val by reflexivity.
    unfold try_except.
    erewrite try_send_body_failed; [reflexivity|exact Hff|].
    apply (send_refused env Hff). exact Hrefused.
  - simpl. rewrite put_qsize. repeat split.
Qed.

Lemma rate_limited_is_retried_witness :
  exists st1 st',
    send quiet_env (Message_init "hello" 0 0) drained_state = (Val false, st1) /\
    rate_limited (thread st1) = 1 /\
    try_send quiet_env (Message_init "hello" 0 0) drained_state = (Val tt, st') /\
    rate_limited (thread st') = 1 /\
    (available (rate_limiter (thread st')) == 0)%Q /\
    qsize (queue (thread st')) = 2.
Proof.
  destruct (rate_limited_is_retried quiet_env quiet_env_fault_free
              (Message_init "hello" 0 0) drained_state
              (snd (is_allowed_at (rate_limiter (thread drained_state))
                      (monotonic_at quiet_env 0)))
              eq_refl)
    as (st1 & st' & H1 & H2 & H3 & H4 & H5 & H6 & H7 & H8 & _).
  exists st1, st'. rewrite H6. repeat split; assumption.
Defined.

(** ** Triples *)

Lemma hoare_ret {A} (P : State -> Prop) (a : A) (Q : Res A -> State -> Prop) :
  (forall st, P st -> Q (Val a) st) -> hoare P (ret a) Q.
Proof. intros H st HP. apply H, HP. Qed.

Lemma hoare_bind {A B} (P : State -> Prop) (m : M A) (k : A -> M B)
    (R : Res A -> State -> Prop) (Q : Res B -> State -> Prop) :
  hoare P m R ->
  (forall a, hoare (R (Val a)) (k a) Q) ->
  (forall e st, R (Raise e) st -> Q (Raise e) st) ->
  (forall st, R Blocked st -> Q Blocked st) ->
  hoare P (bind m k) Q.
Proof.
  intros Hm Hk He Hb st HP. specialize (Hm st HP). unfold bind.
  destruct (m st) as [[a|e|] st']; simpl in *.
  - apply Hk, Hm.
  - apply He, Hm.
  - apply Hb, Hm.
Qed.

Lemma hoare_try_except {A} (P : State -> Prop) (m : M A) (h : exn -> M A)
    (R Q : Res A -> State -> Prop) :
  hoare P m R ->
  (forall e, hoare (R (Raise e)) (h e) Q) ->
  (forall a st, R (Val a) st -> Q (Val a) st) ->
  (forall st, R Blocked st -> Q Blocked st) ->
  hoare P (try_except m h) Q.
Proof.
  intros Hm Hh Hv Hb st HP. specialize (Hm st HP). unfold try_except.
  destruct (m st) as [[a|e|] st']; simpl in *.
  - apply Hv, Hm.
  - apply Hh, Hm.
  - apply Hb, Hm.
Qed.

Lemma hoare_conseq {A} (P P' : State -> Prop) (m : M A)
    (Q Q' : Res A -> State -> Prop) :
  hoare P' m Q' ->
  (forall st, P st -> P' st) ->
  (forall r st, Q' r st -> Q r st) ->
  hoare P m Q.
Proof. intros Hm HP HQ st H. apply HQ, Hm, HP, H. Qed.

Lemma hoare_modify (P : State -> Prop) (f : State -> State)
    (Q : Res unit -> State -> Prop) :
  (forall st, P st -> Q (Val tt) (f st)) -> hoare P (modify f) Q.
Proof. intros H st HP. apply H, HP. Qed.

Lemma hoare_gets {A} (P : State -> Prop) (f : State -> A)
    (Q : Res A -> State -> Prop) :
  (forall st, P st -> Q (Val (f st)) st) -> hoare P (gets f) Q.
Proof. intros H st HP. apply H, HP. Qed.

(** Sequencing methods that keep an invariant. *)
Lemma keeps_bind {A B} (I : State -> Prop) (m : M A) (k : A -> M B) :
  keeps I m -> (forall a, keeps I (k a)) -> keeps I (bind m k).
Proof.
  intros Hm Hk. unfold keeps.
  apply hoare_bind with (R := fun _ st => I st); [exact Hm|exact Hk|auto|auto].
Qed.

Lemma keeps_try_except {A} (I : State -> Prop) (m : M A) (h : exn -> M A) :
  keeps I m -> (forall e, keeps I (h e)) -> keeps I (try_except m h).
Proof.
  intros Hm Hh. unfold keeps.
  apply hoare_try_except with (R := fun _ st => I st); [exact Hm|exact Hh|auto|auto].
Qed.

Lemma keeps_ret {A} (I : State -> Prop) (a : A) : keeps I (ret a).
Proof. intros st HI. exact HI. Qed.

Lemma keeps_modify (I : State -> Prop) (f : State -> State) :
  (forall st, I st -> I (f st)) -> keeps I (modify f).
Proof. intros H st HI. apply H, HI. Qed.

Lemma keeps_gets {A} (I : State -> Prop) (f : State -> A) : keeps I (gets f).
Proof. intros st HI. exact HI. Qed.

(** Sequencing methods that do not block. *)
Lemma nonblocking_bind {A B} (m : M A) (k : A -> M B) :
  nonblocking m -> (forall a, nonblocking (k a)) -> nonblocking (bind m k).
Proof.
  intros Hm Hk st. specialize (Hm st). unfold bind.
  destruct (m st) as [[a|e|] st']; simpl in *.
  - apply Hk.
  - discriminate.
  - contradiction.
Qed.

Lemma nonblocking_try_except {A} (m : M A) (h : exn -> M A) :
  nonblocking m -> (forall e, nonblocking (h e)) -> nonblocking (try_except m h).
Proof.
  intros Hm Hh st. specialize (Hm st). unfold try_except.
  destruct (m st) as [[a|e|] st']; simpl in *.
  - discriminate.
  - apply Hh.
  - contradiction.
Qed.

Lemma nonblocking_ret {A} (a : A) : nonblocking (ret a).
Proof. intros st. discriminate. Qed.

Lemma nonblocking_modify (f : State -> State) : nonblocking (modify f).
Proof. intros st. discriminate. Qed.

Lemma nonblocking_gets {A} (f : State -> A) : nonblocking (gets f).
Proof. intros st. discriminate. Qed.

(** A handler that raises nothing makes [try ... except] raise nothing. *)
Lemma noraise_try_except {A} (m : M A) (h : exn -> M A) :
  (forall e, noraise (h e)) -> noraise (try_except m h).
Proof.
  intros Hh st e. unfold try_except.
  destruct (m st) as [[a|e'|] st']; simpl.
  - discriminate.
  - apply Hh.
  - discriminate.
Qed.

Lemma noraise_bind {A B} (m : M A) (k : A -> M B) :
  noraise m -> (forall a, noraise (k a)) -> noraise (bind m k).
Proof.
  intros Hm Hk st e. specialize (Hm st). unfold bind.
  destruct (m st) as [[a|e'|] st']; simpl in *.
  - apply Hk.
  - exfalso. exact (Hm e' eq_refl).
  - discriminate.
Qed.

Lemma noraise_ret {A} (a : A) : noraise (ret a).
Proof. intros st e. discriminate. Qed.

Lemma noraise_modify (f : State -> State) : noraise (modify f).
Proof. intros st e. discriminate. Qed.

(** ** The token bucket *)

Lemma inject_Z_pos (z : Z) : 0 < z -> (0 < inject_Z z)%Q.
Proof. intros H. unfold Qlt. simpl. lia. Qed.

Lemma refill_nonneg (passed b w : Q) :
  (0 <= passed)%Q -> (0 <= b)%Q -> (0 < w)%Q -> (0 <= passed * b / w)%Q.
Proof.
  intros Hp Hb Hw. apply Qle_shift_div_l; [exact Hw|]. nra.
Qed.

Lemma refill_full_window (passed b w : Q) :
  (w <= passed)%Q -> (0 <= b)%Q -> (0 < w)%Q -> (b <= passed * b / w)%Q.
Proof.
  intros Hp Hb Hw. apply Qle_shift_div_l; [exact Hw|]. nra.
Qed.

(** What [is_allowed] does to a bucket in its invariant, when the clock
    has not gone back: it returns (no division by zero), sets [last_tick],
    adds [passed * bucket_size / window_secs], clamps at [bucket_size],
    and answers whether a whole token is there. *)
Lemma is_allowed_at_spec (rl : RateLimiter) (now : Q) :
  bucket_ok rl -> (last_tick rl <= now)%Q ->
  let refilled :=
    (available rl + (now - last_tick rl) * inject_Z (bucket_size rl)
                    / inject_Z (window_secs rl))%Q in
  exists (b : bool) (rl' : RateLimiter),
    is_allowed_at rl now = (Val b, rl') /\
    bucket_ok rl' /\
    last_tick rl' = now /\
    bucket_size rl' = bucket_size rl /\
    window_secs rl' = window_secs rl /\
    ((refilled <= inject_Z (bucket_size rl))%Q -> available rl' = refilled) /\
    ((inject_Z (bucket_size rl) < refilled)%Q ->
       available rl' = inject_Z (bucket_size rl)) /\
    (b = true <-> (1 <= available rl')%Q) /\
    ((inject_Z (window_secs rl) <= now - last_tick rl)%Q ->
       (available rl' == inject_Z (bucket_size rl))%Q).
Proof.
  intros (Hw & Ha0 & Ha1) Htick refilled.
  pose proof (inject_Z_pos _ Hw) as Hwq.
  assert (Hb : (0 <= inject_Z (bucket_size rl))%Q) by lra.
  assert (Hp : (0 <= now - last_tick rl)%Q) by lra.
  pose proof (refill_nonneg _ _ _ Hp Hb Hwq) as Hr.
  assert (Hsat : (inject_Z (window_secs rl) <= now - last_tick rl)%Q ->
                 (inject_Z (bucket_size rl) <= refilled)%Q).
  { intros Hfull. pose proof (refill_full_window _ _ _ Hfull Hb Hwq) as H.
    unfold refilled. lra. }
  assert (Hr0 : (0 <= refilled)%Q) by (unfold refilled; lra).
  unfold is_allowed_at. simpl.
  destruct (window_secs rl =? 0) eqn:E; [apply Z.eqb_eq in E; lia|].
  fold refilled. clearbody refilled. clear Hr.
  destruct (Qltb (inject_Z (bucket_size rl)) refilled) eqn:Hclamp.
  - apply Qltb_lt in Hclamp.
    eexists _, _. split; [reflexivity|]. simpl.
    split; [unfold bucket_ok; simpl; split; [assumption|split; lra]|].
    split; [reflexivity|]. split; [reflexivity|]. split; [reflexivity|].
    split; [intros Hle; exfalso; lra|].
    split; [reflexivity|].
    split; [apply Qle_bool_iff|].
    reflexivity.
  - apply Qltb_ge in Hclamp.
    eexists _, _. split; [reflexivity|]. simpl.
    split; [unfold bucket_ok; simpl; split; [assumption|split; lra]|].
    split; [reflexivity|]. split; [reflexivity|]. split; [reflexivity|].
    split; [reflexivity|].
    split; [intros Hlt; exfalso; lra|].
    split; [apply Qle_bool_iff|].
    intros Hfull. specialize (Hsat Hfull). lra.
Qed.

(** Taking the token of a bucket that holds at least one. *)
Lemma take_token_ok (rl : RateLimiter) :
  bucket_ok rl -> (1 <= available rl)%Q ->
  bucket_ok (take_token rl) /\
  (available (take_token rl) == available rl - 1)%Q.
Proof.
  intros (Hw & Ha0 & Ha1) H1. unfold bucket_ok, take_token. simpl.
  split; [split; [assumption|split; lra]|reflexivity].
Qed.

Section LimiterInvariant.

Variable env : Env.
Hypothesis Hmono : clock_monotone env.

Let I := limiter_inv env.

Lemma limiter_inv_world_calls st : I st -> I (with_world tick_calls st).
Proof. intros H. exact H. Qed.

Lemma limiter_inv_clock st : I st -> I (with_world tick_clock st).
Proof.
  intros [Hb Ht]. split; [exact Hb|]. simpl.
  eapply Qle_trans; [exact Ht|]. apply Hmono. lia.
Qed.

Lemma keeps_call s : keeps I (call env s).
Proof.
  intros st H. unfold call. destruct (fault env s (calls (world st))); exact H.
Qed.

Lemma keeps_time_monotonic : keeps I (time_monotonic env).
Proof.
  unfold time_monotonic.
  apply keeps_bind; [apply keeps_gets|intros k].
  apply keeps_bind; [apply keeps_modify, limiter_inv_clock|intros _].
  apply keeps_ret.
Qed.

Lemma keeps_random_random : keeps I (random_random env).
Proof.
  unfold random_random.
  apply keeps_bind; [apply keeps_gets|intros k].
  apply keeps_bind; [apply keeps_modify; intros st H; exact H|intros _].
  apply keeps_ret.
Qed.

Lemma keeps_time_sleep secs : keeps I (time_sleep secs).
Proof. apply keeps_modify. intros st H. exact H. Qed.

Lemma keeps_log_call via lvl msg args : keeps I (log_call via lvl msg args).
Proof. apply keeps_modify. intros st H. exact H. Qed.

Lemma keeps_make_next_attempt m d : keeps I (make_next_attempt env m d).
Proof.
  unfold make_next_attempt.
  apply keeps_bind; [apply keeps_time_monotonic|intros now]. apply keeps_ret.
Qed.

Lemma keeps_queue_put m : keeps I (queue_put env m).
Proof.
  unfold queue_put.
  apply keeps_bind; [apply keeps_call|intros _].
  apply keeps_modify. intros st H. exact H.
Qed.

Lemma keeps_queue_get : keeps I (queue_get env).
Proof.
  intros st H. unfold queue_get.
  destruct (get (queue (thread st))) as [[item q]|]; [|exact H].
  revert st H.
  apply keeps_bind; [apply keeps_call|intros _].
  apply keeps_bind; [apply keeps_modify; intros st H; exact H|intros _].
  apply keeps_ret.
Qed.

(** [is_allowed] keeps the invariant, and when it answers true the
    bucket holds a whole token. *)
Lemma hoare_is_allowed :
  hoare I (is_allowed env)
    (fun r st => I st /\
       (r = Val true -> (1 <= available (rate_limiter (thread st)))%Q)).
Proof.
  intros st [Hb Ht]. unfold is_allowed, bind. rewrite time_monotonic_ok. simpl.
  destruct (is_allowed_at_spec _ _ Hb Ht)
    as (b & rl' & Heq & Hb' & Htick & _ & _ & _ & _ & Hone & _).
  rewrite Heq. simpl. split.
  - split; [exact Hb'|]. simpl. rewrite Htick. apply Hmono. lia.
  - intros Hr. injection Hr as ->. apply Hone. reflexivity.
Qed.

Lemma keeps_send item : keeps I (send env item).
Proof.
  unfold send, keeps.
  eapply hoare_bind; [apply hoare_is_allowed| |intros e st [H _]; exact H
                     |intros st [H _]; exact H].
  intros [|]; simpl.
  - eapply hoare_bind with (R := fun _ st => I st); [| |auto|auto].
    + apply hoare_modify. intros st [[Hb Ht] Hone]. split; [|exact Ht].
      apply take_token_ok; [exact Hb|]. apply Hone. reflexivity.
    + intros _.
      apply keeps_bind; [apply keeps_time_monotonic|intros now].
      apply keeps_bind; [apply keeps_log_call|intros _].
      apply keeps_bind; [apply keeps_random_random|intros r].
      apply keeps_bind; [apply keeps_call|intros _].
      apply keeps_bind; [apply keeps_time_sleep|intros _].
      apply keeps_bind; [apply keeps_call|intros _].
      apply keeps_bind; [apply keeps_modify; intros st H; exact H|intros _].
      apply keeps_bind; [apply keeps_call|intros _].
      apply keeps_bind; [apply keeps_modify; intros st H; exact H|intros _].
      apply keeps_bind; [apply keeps_call|intros _].
      apply keeps_bind; [apply keeps_modify; intros st H; exact H|intros _].
      apply keeps_ret.
  - eapply hoare_conseq with (P' := I) (Q' := fun _ st => I st);
      [|intros st [H _]; exact H|auto].
    apply keeps_bind; [apply keeps_call|intros _].
    apply keeps_bind; [apply keeps_modify; intros st H; exact H|intros _].
    apply keeps_ret.
Qed.

Lemma keeps_try_send item : keeps I (try_send env item).
Proof.
  unfold try_send.
  apply keeps_bind; [apply keeps_log_call|intros _].
  apply keeps_try_except.
  - unfold try_send_body.
    apply keeps_bind; [apply keeps_send|intros [|]].
    + apply keeps_log_call.
    + apply keeps_bind; [apply keeps_random_random|intros r].
      apply keeps_bind; [apply keeps_make_next_attempt|intros item'].
      apply keeps_bind; [apply keeps_queue_put|intros _].
      apply keeps_log_call.
  - intros e. apply keeps_log_call.
Qed.

Lemma keeps_run_iteration : keeps I (run_iteration env).
Proof.
  unfold run_iteration, run_try.
  apply keeps_bind.
  - apply keeps_try_except.
    + unfold run_body.
      apply keeps_bind; [apply keeps_queue_get|intros item].
      apply keeps_bind; [apply keeps_time_monotonic|intros now].
      apply keeps_bind; [apply keeps_log_call|intros _].
      destruct (Qltb now (send_at item)).
      * apply keeps_bind; [apply keeps_log_call|intros _].
        apply keeps_bind; [apply keeps_queue_put|intros _].
        apply keeps_ret.
      * apply keeps_bind; [apply keeps_try_send|intros _].
        apply keeps_ret.
    + intros e. unfold run_handler.
      apply keeps_bind; [apply keeps_log_call|intros _]. apply keeps_ret.
  - intros [|]; [apply keeps_time_sleep|apply keeps_ret].
Qed.

Lemma keeps_run n : keeps I (run env n).
Proof.
  induction n as [|n IH]; simpl.
  - apply keeps_ret.
  - apply keeps_bind; [apply keeps_run_iteration|intros _; exact IH].
Qed.

End LimiterInvariant.

Lemma boot_limiter_inv (env : Env) (q : SendQueue) :
  clock_monotone env -> limiter_inv env (boot env q).
Proof.
  intros Hmono. split.
  - unfold bucket_ok. simpl. split; [lia|]. split; unfold Qle; simpl; lia.
  - simpl. apply Hmono. lia.
Qed.

Lemma step_limiter_inv (env : Env) (ev : event) (st : State) :
  clock_monotone env -> limiter_inv env st -> limiter_inv env (step env ev st).
Proof.
  intros Hmono H. destruct ev as [now b|]; simpl.
  - exact H.
  - apply keeps_run_iteration; assumption.
Qed.

Lemma run_system_limiter_inv (env : Env) (evs : list event) : forall st,
  clock_monotone env -> limiter_inv env st ->
  limiter_inv env (run_system env evs st).
Proof.
  induction evs as [|ev evs IH]; intros st Hmono H; simpl.
  - exact H.
  - apply IH; [exact Hmono|]. apply step_limiter_inv; assumption.
Qed.

(** [send] takes a token exactly when [is_allowed] answered true;
    otherwise it leaves the limiter as [is_allowed] left it. *)
Lemma send_limiter (env : Env) (item : Message) (st : State) :
  rate_limiter (thread (snd (send env item st))) =
    match fst (is_allowed env st) with
    | Val true => take_token (rate_limiter (thread (snd (is_allowed env st))))
    | _ => rate_limiter (thread (snd (is_allowed env st)))
    end.
Proof.
  unfold send. unfold bind at 1.
  destruct (is_allowed env st) as [[[|]|e|] st1]; simpl; try reflexivity.
  - unfold bind, modify, time_monotonic, random_random, log_call, time_sleep,
      bind, call, modify, gets, ret; simpl.
    repeat
      match goal with
      | |- context [fault env ?s ?k] => destruct (fault env s k); simpl
      end; reflexivity.
  - unfold bind, call, modify, ret; simpl.
    destruct (fault env CounterInc _); reflexivity.
Qed.

(** C5. With a clock that never goes back, the bucket holds between zero
    and [bucket_size] tokens in every state the thread can be observed
    in: after any sequence of [accept] calls and turns of the loop from
    the start, and after [is_allowed], [send] and any number of turns from
    any state where it does.  [is_allowed] adds
    [passed * bucket_size / window_secs] and clamps at [bucket_size], so
    that after a whole window the bucket is full; [send] takes a token
    only when [is_allowed] answered true, when one is there. *)
Theorem available_within_bucket (env : Env) (Hmono : clock_monotone env) :
  (forall q evs,
     bucket_ok (rate_limiter (thread (run_system env evs (boot env q))))) /\
  (forall st, limiter_inv env st ->
     limiter_inv env (snd (is_allowed env st)) /\
     (forall item, limiter_inv env (snd (send env item st))) /\
     (forall n, limiter_inv env (snd (run env n st)))) /\
  (forall rl now, bucket_ok rl -> (last_tick rl <= now)%Q ->
     let refilled :=
       (available rl + (now - last_tick rl) * inject_Z (bucket_size rl)
                       / inject_Z (window_secs rl))%Q in
     exists b rl',
       is_allowed_at rl now = (Val b, rl') /\
       bucket_ok rl' /\
       ((refilled <= inject_Z (bucket_size rl))%Q -> available rl' = refilled) /\
       ((inject_Z (bucket_size rl) < refilled)%Q ->
          available rl' = inject_Z (bucket_size rl)) /\
       (b = true <-> (1 <= available rl')%Q) /\
       ((inject_Z (window_secs rl) <= now - last_tick rl)%Q ->
          (available rl' == inject_Z (bucket_size rl))%Q)) /\
  (forall item st,
     rate_limiter (thread (snd (send env item st))) =
       match fst (is_allowed env st) with
       | Val true => take_token (rate_limiter (thread (snd (is_allowed env st))))
       | _ => rate_limiter (thread (snd (is_allowed env st)))
       end).
Proof.
  split; [|split; [|split]].
  - intros q evs.
    apply (run_system_limiter_inv env evs (boot env q) Hmono).
    apply boot_limiter_inv, Hmono.
  - intros st H. split; [|split].
    + apply (hoare_is_allowed env Hmono st H).
    + intros item. apply (keeps_send env Hmono item st H).
    + intros n. apply (keeps_run env Hmono n st H).
  - intros rl now Hb Ht refilled.
    destruct (is_allowed_at_spec rl now Hb Ht)
      as (b & rl' & Heq & Hb' & _ & _ & _ & H1 & H2 & H3 & H4).
    exists b, rl'. split; [exact Heq|]. split; [exact Hb'|].
    split; [exact H1|]. split; [exact H2|]. split; [exact H3|exact H4].
  - intros item st. apply send_limiter.
Qed.

Lemma available_within_bucket_witness :
  bucket_ok
    (rate_limiter
       (thread
          (run_system quiet_env
             [Accept 0 "a"; Accept 0 "b"; Turn; Turn; Accept 1 "c"; Turn]
             (boot quiet_env (SendQueue_init 100))))).
Proof.
  exact (proj1 (available_within_bucket quiet_env quiet_env_clock)
           (SendQueue_init 100)
           [Accept 0 "a"; Accept 0 "b"; Turn; Turn; Accept 1 "c"; Turn]).
Defined.

(** ** What blocks and what raises *)

Section Outcomes.

Variable env : Env.

Lemma nonblocking_call s : nonblocking (call env s).
Proof.
  intros st. unfold call. destruct (fault env s (calls (world st))); discriminate.
Qed.

Lemma nonblocking_time_monotonic : nonblocking (time_monotonic env).
Proof.
  unfold time_monotonic.
  apply nonblocking_bind; [apply nonblocking_gets|intros k].
  apply nonblocking_bind; [apply nonblocking_modify|intros _].
  apply nonblocking_ret.
Qed.

Lemma nonblocking_random_random : nonblocking (random_random env).
Proof.
  unfold random_random.
  apply nonblocking_bind; [apply nonblocking_gets|intros k].
  apply nonblocking_bind; [apply nonblocking_modify|intros _].
  apply nonblocking_ret.
Qed.

Lemma nonblocking_log_call via lvl msg args : nonblocking (log_call via lvl msg args).
Proof. apply nonblocking_modify. Qed.

Lemma nonblocking_time_sleep secs : nonblocking (time_sleep secs).
Proof. apply nonblocking_modify. Qed.

Lemma nonblocking_queue_put m : nonblocking (queue_put env m).
Proof.
  unfold queue_put.
  apply nonblocking_bind; [apply nonblocking_call|intros _].
  apply nonblocking_modify.
Qed.

Lemma nonblocking_make_next_attempt m d : nonblocking (make_next_attempt env m d).
Proof.
  unfold make_next_attempt.
  apply nonblocking_bind; [apply nonblocking_time_monotonic|intros now].
  apply nonblocking_ret.
Qed.

Lemma nonblocking_is_allowed : nonblocking (is_allowed env).
Proof.
  unfold is_allowed.
  apply nonblocking_bind; [apply nonblocking_time_monotonic|intros now st].
  unfold is_allowed_at.
  destruct (window_secs _ =? 0); simpl; discriminate.
Qed.

Lemma nonblocking_send item : nonblocking (send env item).
Proof.
  unfold send.
  apply nonblocking_bind; [apply nonblocking_is_allowed|intros [|]]; simpl.
  - repeat first
      [ apply nonblocking_ret
      | apply nonblocking_bind;
        [ first [ apply nonblocking_modify | apply nonblocking_time_monotonic
                | apply nonblocking_log_call | apply nonblocking_random_random
                | apply nonblocking_call | apply nonblocking_time_sleep ]
        | intros ? ] ].
  - apply nonblocking_bind; [apply nonblocking_call|intros _].
    apply nonblocking_bind; [apply nonblocking_modify|intros _].
    apply nonblocking_ret.
Qed.

Lemma nonblocking_try_send item : nonblocking (try_send env item).
Proof.
  unfold try_send.
  apply nonblocking_bind; [apply nonblocking_log_call|intros _].
  apply nonblocking_try_except.
  - unfold try_send_body.
    apply nonblocking_bind; [apply nonblocking_send|intros [|]].
    + apply nonblocking_log_call.
    + apply nonblocking_bind; [apply nonblocking_random_random|intros r].
      apply nonblocking_bind; [apply nonblocking_make_next_attempt|intros item'].
      apply nonblocking_bind; [apply nonblocking_queue_put|intros _].
      apply nonblocking_log_call.
  - intros e. apply nonblocking_log_call.
Qed.

(** [try_send] lets no exception out: its handler only logs. *)
Lemma noraise_try_send item : noraise (try_send env item).
Proof.
  unfold try_send.
  apply noraise_bind; [apply noraise_modify|intros _].
  apply noraise_try_except. intros e. apply noraise_modify.
Qed.

Lemma try_send_returns item st : exists st', try_send env item st = (Val tt, st').
Proof.
  pose proof (nonblocking_try_send item st) as Hb.
  pose proof (noraise_try_send item st) as Hr.
  destruct (try_send env item st) as [[[]|e|] st']; simpl in *.
  - exists st'. reflexivity.
  - exfalso. exact (Hr e eq_refl).
  - contradiction.
Qed.

Lemma noraise_run_handler e : noraise (run_handler e).
Proof.
  unfold run_handler.
  apply noraise_bind; [apply noraise_modify|intros _]. apply noraise_ret.
Qed.

Lemma noraise_run_iteration : noraise (run_iteration env).
Proof.
  unfold run_iteration, run_try.
  apply noraise_bind.
  - apply noraise_try_except, noraise_run_handler.
  - intros [|]; [apply noraise_modify|apply noraise_ret].
Qed.

Lemma noraise_run n : noraise (run env n).
Proof.
  induction n as [|n IH]; simpl.
  - apply noraise_ret.
  - apply noraise_bind; [apply noraise_run_iteration|intros _; exact IH].
Qed.

(** On an empty queue a turn waits and changes nothing. *)
Lemma run_iteration_empty st :
  get (queue (thread st)) = None -> run_iteration env st = (Blocked, st).
Proof.
  intros Hget.
  unfold run_iteration, run_try, try_except, run_body, bind, queue_get.
  rewrite Hget. reflexivity.
Qed.

(** The block under [try:] blocks only in [queue.get()]. *)
Lemma run_body_nonblocking st :
  get (queue (thread st)) <> None -> fst (run_body env st) <> Blocked.
Proof.
  intros Hget. unfold run_body. unfold bind at 1. unfold queue_get.
  destruct (get (queue (thread st))) as [[item q]|]; [|contradiction].
  pose proof (nonblocking_bind (call env QueueGet)
    (fun _ => bind (modify (with_thread (set_queue q))) (fun _ => ret item))
    (nonblocking_call QueueGet)
    (fun _ => nonblocking_bind _ _ (nonblocking_modify _)
                (fun _ => nonblocking_ret item)) st) as Hq.
  destruct (bind (call env QueueGet) _ st) as [[a|e|] st1]; simpl in *;
    [|discriminate|contradiction].
  assert (Hk : nonblocking
    (bind (time_monotonic env) (fun now =>
       bind (log_call ModuleLogger DEBUG "Dequeued %s at queued_at%+gs"
               [ArgMessage a; ArgFloat (now - queued_at a)%Q]) (fun _ =>
         if Qltb now (send_at a)
         then bind (log_call ModuleLogger DEBUG "Too early, enqueued %s back"
                      [ArgMessage a])
                (fun _ => bind (queue_put env a) (fun _ => ret Continue))
         else bind (try_send env a) (fun _ => ret Fallthrough))))).
  { apply nonblocking_bind; [apply nonblocking_time_monotonic|intros now].
    apply nonblocking_bind; [apply nonblocking_log_call|intros _].
    destruct (Qltb now (send_at a)).
    - apply nonblocking_bind; [apply nonblocking_log_call|intros _].
      apply nonblocking_bind; [apply nonblocking_queue_put|intros _].
      apply nonblocking_ret.
    - apply nonblocking_bind; [apply nonblocking_try_send|intros _].
      apply nonblocking_ret. }
  apply Hk.
Qed.

(** A turn on a queue that holds a message completes. *)
Lemma run_iteration_completes st :
  get (queue (thread st)) <> None ->
  exists st', run_iteration env st = (Val tt, st').
Proof.
  intros Hget. pose proof (run_body_nonblocking st Hget) as Hb.
  unfold run_iteration, run_try, bind, try_except.
  destruct (run_body env st) as [[[|]|e|] st1]; simpl in *.
  - eexists. reflexivity.
  - eexists. reflexivity.
  - eexists. reflexivity.
  - contradiction.
Qed.

End Outcomes.

(** C9. No exception leaves the loop: a turn never raises, nor do any
    number of turns.  An exception that the block under [try:] raises is
    logged ("Unhandled exception in consumer loop"), after which the turn
    sleeps and returns; a turn that found a message in the queue always
    completes, so that the next turn starts, and one that found the queue
    empty waits without changing anything. *)
Theorem no_exception_escapes_run (env : Env) :
  (forall n st e, fst (run env n st) <> Raise e) /\
  (forall st e, fst (run_iteration env st) <> Raise e) /\
  (forall st e st1,
     run_body env st = (Raise e, st1) ->
     run_iteration env st =
       (Val tt,
        with_world (add_slept 0.1)
          (with_world
             (add_log (mkLogRecord ModuleLogger ERROR
                         "Unhandled exception in consumer loop" [ArgExn e]))
             st1))) /\
  (forall st,
     match get (queue (thread st)) with
     | None => run_iteration env st = (Blocked, st)
     | Some _ =>
         exists st',
           run_iteration env st = (Val tt, st') /\
           forall n, run env (S n) st = run env n st'
     end).
Proof.
  split; [|split; [|split]].
  - intros n st e. apply noraise_run.
  - intros st e. apply noraise_run_iteration.
  - intros st e st1 Hbody.
    unfold run_iteration, run_try, bind, try_except. rewrite Hbody. reflexivity.
  - intros st. destruct (get (queue (thread st))) as [p|] eqn:Hget.
    + destruct (run_iteration_completes env st) as [st' Hrun].
      { rewrite Hget. discriminate. }
      exists st'. split; [exact Hrun|].
      intros n. exact (bind_val _ (fun _ => run env n) st tt st' Hrun).
    + apply run_iteration_empty, Hget.
Qed.

(** An exception at the loop's own [queue.get()]: the turn logs it,
    sleeps and returns. *)
Lemma no_exception_escapes_run_witness :
  exists st1,
    run_body (failing_env QueueGet) ready_state
      = (Raise (CollaboratorError "down"), st1) /\
    run_iteration (failing_env QueueGet) ready_state =
      (Val tt,
       with_world (add_slept 0.1)
         (with_world
            (add_log (mkLogRecord ModuleLogger ERROR
                        "Unhandled exception in consumer loop"
                        [ArgExn (CollaboratorError "down")]))
            st1)).
Proof.
  exists (snd (run_body (failing_env QueueGet) ready_state)).
  split; [reflexivity|].
  exact (proj1 (proj2 (proj2 (no_exception_escapes_run (failing_env QueueGet))))
           ready_state (CollaboratorError "down")
           (snd (run_body (failing_env QueueGet) ready_state)) eq_refl).
Defined.

(** ** A [send] that raises *)

(** Walks through a computation in hypothesis [H], one call at a time. *)
Ltac walk_calls H :=
  repeat
    (simpl in H;
     match type of H with
     | context [fault ?env ?s ?k] => destruct (fault env s k) eqn:?
     | context [is_allowed_at ?rl ?now] =>
         let b := fresh "b" in
         destruct (is_allowed_at rl now) as [[[|]| |] ?]
     end).

Lemma send_raises (env : Env) (item : Message) (st : State) (e : exn) (st1 : State) :
  send env item st = (Raise e, st1) ->
  queue (thread st1) = queue (thread st) /\
  rate_limited (thread st1) = rate_limited (thread st) /\
  ((send_time_histogram (thread st1) = send_time_histogram (thread st) /\
    lag_histogram (thread st1) = lag_histogram (thread st) /\
    attempt_histogram (thread st1) = attempt_histogram (thread st)) \/
   (exists k, (calls (world st) <= k < calls (world st1))%nat /\
              fault env Observe k = Some e)).
Proof.
  intros H.
  unfold send, is_allowed, time_monotonic, random_random, log_call, time_sleep,
    call, bind, modify, gets, ret in H.
  walk_calls H; simpl in H;
    try discriminate H;
    injection H as <- <-; simpl;
    (split; [reflexivity|split; [reflexivity|]]);
    first [ left; repeat split; reflexivity
          | right; eexists; split; [|eassumption]; simpl; lia ].
Qed.

(** C10.  If [send] raises, [try_send] returns normally and has done
    nothing after the raise but log "Exception in try_send": the queue is
    as it was before [try_send] (the message is not put back, no next
    attempt is built, the clock and the generator are not read again),
    the [rate_limited] counter is as it was and no histogram has an
    observation more.  The exception is the transport's, or one of the
    limiter or of the counter: the histograms' own [observe] calls are
    taken not to raise. *)
Theorem raising_send_is_dropped (env : Env) (item : Message) (st : State)
    (e : exn) (st1 : State)
    (Hobserve : forall k, fault env Observe k = None)
    (Hraise :
       send env item
         (with_world
            (add_log (mkLogRecord ModuleLogger DEBUG "Trying to send %s"
                        [ArgMessage item])) st) = (Raise e, st1)) :
  exists st',
    try_send env item st = (Val tt, st') /\
    thread st' = thread st1 /\
    world st' =
      add_log (mkLogRecord ModuleLogger ERROR "Exception in try_send" [ArgExn e])
        (world st1) /\
    queue (thread st') = queue (thread st) /\
    rate_limited (thread st') = rate_limited (thread st) /\
    send_time_histogram (thread st') = send_time_histogram (thread st) /\
    lag_histogram (thread st') = lag_histogram (thread st) /\
    attempt_histogram (thread st') = attempt_histogram (thread st).
Proof.
  eexists. split.
  - unfold try_send, log_call. erewrite bind_val by reflexivity.
    unfold try_except, try_send_body.
    erewrite bind_raise by exact Hraise. reflexivity.
  - simpl. split; [reflexivity|]. split; [reflexivity|].
    apply send_raises in Hraise.
    destruct Hraise as (Hq & Hc & [Hh|(k & _ & Hk)]).
    + split; [exact Hq|]. split; [exact Hc|]. exact Hh.
    + rewrite Hobserve in Hk. discriminate Hk.
Qed.

Lemma raising_send_is_dropped_witness :
  let item := Message_init "hello" 0 0 in
  exists st',
    try_send (failing_env Transport) item ready_state = (Val tt, st') /\
    queue (thread st') = queue (thread ready_state) /\
    send_time_histogram (thread st') = [] /\
    lag_histogram (thread st') = [] /\
    attempt_histogram (thread st') = [].
Proof.
  intros item.
  destruct (raising_send_is_dropped (failing_env Transport) item ready_state
              (CollaboratorError "down")
              (snd (send (failing_env Transport) item
                      (with_world
                         (add_log (mkLogRecord ModuleLogger DEBUG "Trying to send %s"
                                     [ArgMessage item])) ready_state)))
              (fun k => eq_refl) eq_refl)
    as (st' & Hrun & _ & _ & Hq & _ & Hs & Hl & Ha).
  exists st'. split; [exact Hrun|]. split; [exact Hq|].
  split; [exact Hs|]. split; [exact Hl|exact Ha].
Defined.

(** What the hypothesis on the histograms is for: if the second
    [observe] of [send] raised, [send] would raise with the lag already
    observed. *)
Lemma raising_send_after_observation :
  let item := Message_init "hello" 0 0 in
  let env :=
    mkEnv (monotonic_at quiet_env) (random_at quiet_env)
      (fun s k => if site_eqb s Observe && (k =? 2)%nat
                  then Some (CollaboratorError "down") else None) in
  exists st1,
    send env item ready_state = (Raise (CollaboratorError "down"), st1) /\
    lag_histogram (thread ready_state) = [] /\
    lag_histogram (thread st1) = [0.2%Q].
Proof.
  eexists. split; [vm_compute; reflexivity|]. split; reflexivity.
Qed.

(** ** The sleep at the end of a turn *)

(** A turn whose [try] statement falls through ends by sleeping 0.1 s. *)
Lemma run_iteration_fallthrough (env : Env) (st st1 : State) :
  run_try env st = (Val Fallthrough, st1) ->
  run_iteration env st = (Val tt, with_world (add_slept 0.1) st1).
Proof.
  intros H. unfold run_iteration. erewrite bind_val by exact H. reflexivity.
Qed.

(** A turn whose [try] statement ends by [continue] does not sleep. *)
Lemma run_iteration_continue (env : Env) (st st1 : State) :
  run_try env st = (Val Continue, st1) ->
  run_iteration env st = (Val tt, st1).
Proof.
  intros H. unfold run_iteration. erewrite bind_val by exact H. reflexivity.
Qed.

Section TooEarly.

Variable env : Env.
Hypothesis Hff : fault_free env.

Lemma queue_get_ok st item q' :
  get (queue (thread st)) = Some (item, q') ->
  queue_get env st =
    (Val item, with_thread (set_queue q') (with_world tick_calls st)).
Proof.
  intros Hget. unfold queue_get. rewrite Hget.
  erewrite bind_val by apply call_ok, Hff. reflexivity.
Qed.

(** The turn of a message that is not due yet: the message goes back as
    it is, nothing is sent, and the turn ends without sleeping. *)
Lemma run_iteration_too_early st item q' :
  get (queue (thread st)) = Some (item, q') ->
  (monotonic_at env (clock_reads (world st)) < send_at item)%Q ->
  exists st',
    run_iteration env st = (Val tt, st') /\
    slept (world st') = slept (world st) /\
    queue (thread st') = put q' item /\
    rate_limiter (thread st') = rate_limiter (thread st).
Proof.
  intros Hget Hearly. apply Qltb_lt in Hearly.
  eexists. split.
  - apply run_iteration_continue.
    unfold run_try, try_except, run_body.
    erewrite bind_val by (apply queue_get_ok; exact Hget).
    erewrite bind_val by apply time_monotonic_ok.
    unfold log_call. erewrite bind_val by reflexivity.
    simpl. rewrite Hearly.
    erewrite bind_val by reflexivity.
    erewrite bind_val by apply queue_put_ok, Hff.
    reflexivity.
  - simpl. repeat split.
Qed.

End TooEarly.

(** Whatever the collaborators do, a turn that found a message either
    ends with the sleep of 0.1 s, or took [continue]. *)
Lemma run_iteration_sleeps_unless_continue (env : Env) (st : State) :
  get (queue (thread st)) <> None ->
  (exists st1,
     run_iteration env st = (Val tt, with_world (add_slept 0.1) st1)) \/
  (exists st1, run_try env st = (Val Continue, st1)).
Proof.
  intros Hget. pose proof (run_body_nonblocking env st Hget) as Hb.
  unfold run_iteration, run_try, bind, try_except.
  destruct (run_body env st) as [[[|]|e|] st1]; simpl in *.
  - left. eexists. reflexivity.
  - right. eexists. reflexivity.
  - left. eexists. reflexivity.
  - contradiction.
Qed.

(** A retry is met the same way.  From a state whose bucket is empty,
    the first turn is refused by the limiter, schedules the retry for
    1.2 s and sleeps 0.1 s; the five turns after it find that retry too
    early, put it back and take [continue]: after six turns the thread
    has slept once. *)
Lemma retry_turns_skip_sleep :
  exists st',
    run quiet_env 6 drained_state = (Val tt, st') /\
    slept (world st') = [0.1%Q] /\
    clock_reads (world st') = 8%nat /\
    map attempt (_queue (queue (thread st'))) = [1].
Proof.
  eexists. split; [vm_compute; reflexivity|]. repeat split.
Qed.

(** C1 on the code.  A producer admits a message due at 5 s into a fresh
    queue, and the thread makes ten turns while the clock reads less
    than 5 s: every turn finds the message too early, puts it back and
    takes [continue], and not one of the ten turns sleeps. *)
Theorem too_early_turn_skips_sleep :
  let st0 := step quiet_env (Accept 5 "later") (boot quiet_env (SendQueue_init 100)) in
  exists st',
    run quiet_env 10 st0 = (Val tt, st') /\
    slept (world st') = [] /\
    clock_reads (world st') = 11%nat /\
    _queue (queue (thread st')) = [Message_init "later" 5 5].
Proof.
  eexists. split; [vm_compute; reflexivity|]. repeat split.
Qed.

Local Ltac Zify.zify_post_hook ::= Z.to_euclidean_division_equations.

Lemma before_refl x : before x x.
Proof. unfold before. lra. Qed.

Lemma before_trans x y z : before x y -> before y z -> before x z.
Proof. unfold before. intros. lra. Qed.

Lemma lt_before a b : Message_lt a b = true -> before a b.
Proof. intros H. apply Message_lt_iff in H. unfold before. lra. Qed.

Lemma not_lt_before a b : Message_lt a b = false -> before b a.
Proof. intros H. apply Message_lt_false in H. exact H. Qed.

(** Moving the hole: writing [y] of position [j] at [i] and the new
    item at [j] is, up to order, writing the new item at [i]. *)
Lemma hole_move_perm (l : list Message) (i j : nat) (x y : Message) :
  i <> j -> (i < length l)%nat -> l !! j = Some y ->
  <[j := x]> (<[i := y]> l) ≡ₚ <[i := x]> l.
Proof.
  intros Hij Hi Hj.
  rewrite <- (list_insert_insert_eq l i y x).
  apply Permutation_insert_swap.
  - apply list_lookup_insert_eq. exact Hi.
  - rewrite list_lookup_insert_ne by exact Hij. exact Hj.
Qed.

Lemma siftdown_loop_perm fuel : forall heap newitem pos,
  (pos < length heap)%nat ->
  heapq.siftdown_loop fuel heap newitem 0 pos ≡ₚ <[pos := newitem]> heap.
Proof.
  induction fuel as [|fuel IH]; intros heap newitem pos Hpos.
  - reflexivity.
  - rewrite siftdown_loop_S.
    destruct (0 <? pos)%nat eqn:E; [|reflexivity].
    apply Nat.ltb_lt in E.
    destruct (heap !! ((pos - 1) / 2)%nat) as [parent|] eqn:Hp.
    + destruct (Message_lt newitem parent); [|reflexivity].
      rewrite IH by (rewrite length_insert; lia).
      apply hole_move_perm; [lia|exact Hpos|exact Hp].
    + apply lookup_ge_None in Hp. lia.
Qed.

Lemma siftup_loop_perm fuel : forall heap newitem pos heap' pos',
  (pos < length heap)%nat ->
  heapq.siftup_loop fuel heap pos = (heap', pos') ->
  (pos' < length heap')%nat /\ length heap' = length heap /\
  <[pos' := newitem]> heap' ≡ₚ <[pos := newitem]> heap.
Proof.
  induction fuel as [|fuel IH]; intros heap newitem pos heap' pos' Hpos Hrun.
  - injection Hrun as <- <-. auto.
  - rewrite siftup_loop_S in Hrun.
    destruct (2 * pos + 1 <? length heap)%nat eqn:E;
      [|injection Hrun as <- <-; auto].
    apply Nat.ltb_lt in E.
    set (c := (if (2 * pos + 1 + 1 <? length heap)%nat
                  && negb (heapq.lt_at heap (2 * pos + 1) (2 * pos + 1 + 1))
               then 2 * pos + 1 + 1 else 2 * pos + 1)%nat) in *.
    assert (Hc : (pos < c)%nat).
    { unfold c. destruct (_ && _); lia. }
    destruct (heap !! c) as [child|] eqn:Hchild;
      [|injection Hrun as <- <-; auto].
    pose proof (lookup_lt_Some _ _ _ Hchild) as Hclen.
    apply (IH _ newitem) in Hrun; [|rewrite length_insert; exact Hclen].
    destruct Hrun as (H1 & H2 & H3). rewrite length_insert in H2.
    split; [exact H1|]. split; [exact H2|].
    rewrite H3. apply hole_move_perm; [lia|exact Hpos|exact Hchild].
Qed.

(** The fuel of the two loops never runs out before the loop ends: any
    fuel from [pos] on gives [_siftdown]'s loop the same result, and any
    fuel from [len(heap) - pos] on gives [_siftup]'s loop the same. *)
Lemma siftdown_loop_fuel fuel : forall fuel' heap newitem startpos pos,
  (pos <= fuel)%nat -> (pos <= fuel')%nat ->
  heapq.siftdown_loop fuel heap newitem startpos pos =
  heapq.siftdown_loop fuel' heap newitem startpos pos.
Proof.
  induction fuel as [|fuel IH]; intros fuel' heap newitem startpos pos H H'.
  - destruct fuel' as [|fuel']; [reflexivity|].
    rewrite siftdown_loop_S.
    destruct (startpos <? pos)%nat eqn:E; [|reflexivity].
    apply Nat.ltb_lt in E. lia.
  - destruct fuel' as [|fuel'].
    + rewrite siftdown_loop_S.
      destruct (startpos <? pos)%nat eqn:E; [|reflexivity].
      apply Nat.ltb_lt in E. lia.
    + rewrite !siftdown_loop_S.
      destruct (startpos <? pos)%nat eqn:E; [|reflexivity].
      apply Nat.ltb_lt in E.
      destruct (heap !! ((pos - 1) / 2)%nat) as [parent|]; [|reflexivity].
      destruct (Message_lt newitem parent); [|reflexivity].
      apply IH; lia.
Qed.

Lemma siftup_loop_fuel fuel : forall fuel' heap pos,
  (length heap - pos <= fuel)%nat -> (length heap - pos <= fuel')%nat ->
  heapq.siftup_loop fuel heap pos = heapq.siftup_loop fuel' heap pos.
Proof.
  induction fuel as [|fuel IH]; intros fuel' heap pos H H'.
  - destruct fuel' as [|fuel']; [reflexivity|].
    rewrite siftup_loop_S.
    destruct (2 * pos + 1 <? length heap)%nat eqn:E; [|reflexivity].
    apply Nat.ltb_lt in E. lia.
  - destruct fuel' as [|fuel'].
    + rewrite siftup_loop_S.
      destruct (2 * pos + 1 <? length heap)%nat eqn:E; [|reflexivity].
      apply Nat.ltb_lt in E. lia.
    + rewrite !siftup_loop_S.
      destruct (2 * pos + 1 <? length heap)%nat eqn:E; [|reflexivity].
      apply Nat.ltb_lt in E.
      set (c := (if (2 * pos + 1 + 1 <? length heap)%nat
                    && negb (heapq.lt_at heap (2 * pos + 1) (2 * pos + 1 + 1))
                 then 2 * pos + 1 + 1 else 2 * pos + 1)%nat).
      assert (Hc : (pos < c)%nat) by (unfold c; destruct (_ && _); lia).
      destruct (heap !! c) as [child|]; [|reflexivity].
      apply IH; rewrite length_insert; lia.
Qed.

(** Reads a lookup in an updated list, in hypothesis [H]: either the
    updated position, and then the value is the written one, or another. *)
Ltac read_insert H :=
  let Hidx := fresh "Hidx" in
  let Hval := fresh "Hval" in
  match type of H with
  | _ !! _ = Some ?y =>
      apply list_lookup_insert_Some in H;
      destruct H as [(Hidx & Hval & _)|(Hidx & H)]; [subst y|]
  end.

Lemma siftdown_exit heap newitem pos :
  siftdown_inv heap newitem pos ->
  (forall p, (0 < pos)%nat -> heap !! ((pos - 1) / 2)%nat = Some p -> before p newitem) ->
  heap_ordered (<[pos := newitem]> heap).
Proof.
  intros (Hpos & H1 & H2 & H3) Hparent i x p Hi Hx Hp.
  read_insert Hx; read_insert Hp; try lia.
  - subst i. apply Hparent; [lia|exact Hp].
  - eapply H2; [exact Hi|symmetry; eassumption|exact Hx].
  - eapply H1; eauto.
Qed.

Lemma siftdown_loop_ordered fuel : forall heap newitem pos,
  (pos <= fuel)%nat ->
  siftdown_inv heap newitem pos ->
  heap_ordered (heapq.siftdown_loop fuel heap newitem 0 pos).
Proof.
  induction fuel as [|fuel IH]; intros heap newitem pos Hfuel Hinv.
  - apply siftdown_exit; [exact Hinv|]. intros p Hp. lia.
  - rewrite siftdown_loop_S.
    destruct (0 <? pos)%nat eqn:E.
    2:{ apply Nat.ltb_ge in E. apply siftdown_exit; [exact Hinv|].
        intros p Hp. lia. }
    apply Nat.ltb_lt in E.
    destruct (heap !! ((pos - 1) / 2)%nat) as [parent|] eqn:Hp.
    2:{ apply lookup_ge_None in Hp. destruct Hinv as (Hpos & _). lia. }
    destruct (Message_lt newitem parent) eqn:Hlt.
    2:{ apply siftdown_exit; [exact Hinv|].
        intros p _ Hp'. rewrite Hp in Hp'. injection Hp' as <-.
        apply not_lt_before, Hlt. }
    apply IH; [lia|].
    apply lt_before in Hlt.
    destruct Hinv as (Hpos & H1 & H2 & H3).
    split; [rewrite length_insert; lia|]. split; [|split].
    + intros i x p Hi Hne Hx Hpi.
      read_insert Hx; read_insert Hpi; try lia.
      * subst i. rewrite Hp in Hpi. injection Hpi as <-. apply before_refl.
      * eapply H3; [exact Hi|symmetry; eassumption|exact E|exact Hx|exact Hp].
      * eapply H1; eauto.
    + intros c x Hc Hpc Hx.
      read_insert Hx.
      * exact Hlt.
      * eapply before_trans; [exact Hlt|].
        eapply H1; [exact Hc|congruence|exact Hx|].
        rewrite Hpc. exact Hp.
    + intros c x p Hc Hpc Hpp Hx Hgp.
      read_insert Hgp; [lia|].
      assert (Hpar : before p parent).
      { eapply (H1 ((pos - 1) / 2)%nat); [exact Hpp|lia|exact Hp|exact Hgp]. }
      read_insert Hx.
      * exact Hpar.
      * eapply before_trans; [exact Hpar|].
        eapply H1; [exact Hc|congruence|exact Hx|].
        rewrite Hpc. exact Hp.
Qed.

Lemma _siftdown_ordered heap pos newitem :
  heap !! pos = Some newitem ->
  siftdown_inv heap newitem pos ->
  heap_ordered (heapq._siftdown heap 0 pos).
Proof.
  intros Hn Hinv. unfold heapq._siftdown. rewrite Hn.
  apply siftdown_loop_ordered; [lia|exact Hinv].
Qed.

Lemma _siftdown_perm heap pos :
  heapq._siftdown heap 0 pos ≡ₚ heap.
Proof.
  unfold heapq._siftdown. destruct (heap !! pos) as [newitem|] eqn:Hn; [|reflexivity].
  rewrite siftdown_loop_perm by (eapply lookup_lt_Some; exact Hn).
  rewrite list_insert_id by exact Hn. reflexivity.
Qed.

Lemma siftup_loop_ordered fuel : forall heap pos heap' pos',
  (length heap - pos <= fuel)%nat ->
  siftup_inv heap pos ->
  heapq.siftup_loop fuel heap pos = (heap', pos') ->
  siftup_inv heap' pos' /\ (length heap' <= 2 * pos' + 1)%nat.
Proof.
  induction fuel as [|fuel IH]; intros heap pos heap' pos' Hfuel Hinv Hrun.
  - destruct Hinv as (Hpos & _). lia.
  - rewrite siftup_loop_S in Hrun.
    destruct (2 * pos + 1 <? length heap)%nat eqn:E.
    2:{ apply Nat.ltb_ge in E. injection Hrun as <- <-. split; [exact Hinv|lia]. }
    apply Nat.ltb_lt in E.
    set (c := (if (2 * pos + 1 + 1 <? length heap)%nat
                  && negb (heapq.lt_at heap (2 * pos + 1) (2 * pos + 1 + 1))
               then 2 * pos + 1 + 1 else 2 * pos + 1)%nat) in *.
    assert (Hc : (c = 2 * pos + 1 \/ c = 2 * pos + 2)%nat).
    { unfold c. destruct (_ && _); lia. }
    assert (Hclen : (c < length heap)%nat).
    { unfold c. destruct (2 * pos + 1 + 1 <? length heap)%nat eqn:E2; simpl.
      - apply Nat.ltb_lt in E2. destruct (negb _); lia.
      - lia. }
    (* the chosen child goes before its sibling *)
    assert (Hsib : forall s x child,
              (s = 2 * pos + 1 \/ s = 2 * pos + 2)%nat ->
              heap !! s = Some x -> heap !! c = Some child -> before child x).
    { intros s x child Hs Hx Hchild.
      destruct (decide (s = c)) as [->|Hsc].
      { rewrite Hx in Hchild. injection Hchild as <-. apply before_refl. }
      pose proof (lookup_lt_Some _ _ _ Hx) as Hslen.
      unfold c in Hchild, Hsc.
      destruct (2 * pos + 1 + 1 <? length heap)%nat eqn:E2; cbn [andb] in *.
      - destruct (heapq.lt_at heap (2 * pos + 1) (2 * pos + 1 + 1)) eqn:Hlt;
          cbn [negb] in *; unfold heapq.lt_at in Hlt.
        + assert (s = 2 * pos + 1 + 1)%nat as -> by lia.
          rewrite Hchild, Hx in Hlt. apply lt_before, Hlt.
        + assert (s = 2 * pos + 1)%nat as -> by lia.
          rewrite Hx, Hchild in Hlt. apply not_lt_before, Hlt.
      - apply Nat.ltb_ge in E2. lia. }
    destruct (heap !! c) as [child|] eqn:Hchild.
    2:{ apply lookup_ge_None in Hchild. lia. }
    apply IH in Hrun; [exact Hrun|rewrite length_insert; lia|].
    destruct Hinv as (Hpos & K1 & K2).
    split; [rewrite length_insert; exact Hclen|]. split.
    + intros i x p Hi Hne Hx Hp.
      read_insert Hx; read_insert Hp; try lia.
      * subst i. eapply (K2 c); [lia|lia|lia|exact Hchild|exact Hp].
      * eapply Hsib; [|exact Hx|reflexivity]. lia.
      * eapply K1; [exact Hi|congruence|exact Hx|exact Hp].
    + intros c' x p Hc' Hpc' Hcpos Hx Hp.
      read_insert Hx; [lia|].
      assert (Hpar : ((c - 1) / 2)%nat = pos) by lia.
      rewrite Hpar in Hp. read_insert Hp; [|lia].
      eapply K1; [exact Hc'|lia|exact Hx|]. rewrite Hpc'. exact Hchild.
Qed.

Lemma _siftup_ordered heap :
  siftup_inv heap 0 -> heap_ordered (heapq._siftup heap 0).
Proof.
  intros Hinv. unfold heapq._siftup.
  destruct (heap !! 0%nat) as [newitem|] eqn:Hn.
  2:{ apply lookup_ge_None in Hn. destruct Hinv as (Hpos & _). lia. }
  destruct (heapq.siftup_loop (length heap) heap 0) as [h2 pos2] eqn:Hrun.
  assert (Hfuel : (length heap - 0 <= length heap)%nat) by lia.
  pose proof (siftup_loop_ordered _ _ _ _ _ Hfuel Hinv Hrun)
    as ((Hpos2 & K1 & K2) & Hleaf).
  apply (_siftdown_ordered _ _ newitem).
  - apply list_lookup_insert_eq. exact Hpos2.
  - split; [rewrite length_insert; exact Hpos2|]. split; [|split].
    + intros i x p Hi Hne Hx Hp.
      read_insert Hx; [lia|].
      read_insert Hp.
      * pose proof (lookup_lt_Some _ _ _ Hx). lia.
      * eapply K1; [exact Hi|congruence|exact Hx|exact Hp].
    + intros c x Hc Hpc Hx.
      pose proof (lookup_lt_Some _ _ _ Hx) as Hlen.
      rewrite length_insert in Hlen. lia.
    + intros c x p Hc Hpc _ Hx _.
      pose proof (lookup_lt_Some _ _ _ Hx) as Hlen.
      rewrite length_insert in Hlen. lia.
Qed.

Lemma _siftup_perm heap : heapq._siftup heap 0 ≡ₚ heap.
Proof.
  unfold heapq._siftup.
  destruct (heap !! 0%nat) as [newitem|] eqn:Hn; [|reflexivity].
  destruct (heapq.siftup_loop (length heap) heap 0) as [h2 pos2] eqn:Hrun.
  pose proof (lookup_lt_Some _ _ _ Hn) as H0.
  destruct (siftup_loop_perm _ _ newitem _ _ _ H0 Hrun) as (H1 & H2 & H3).
  rewrite _siftdown_perm, H3, list_insert_id by exact Hn. reflexivity.
Qed.

(** *** heappush *)

Lemma heappush_perm heap item : heapq.heappush heap item ≡ₚ item :: heap.
Proof.
  unfold heapq.heappush. rewrite _siftdown_perm.
  symmetry. apply Permutation_cons_append.
Qed.

Lemma heappush_ordered heap item :
  heap_ordered heap -> heap_ordered (heapq.heappush heap item).
Proof.
  intros Hh. unfold heapq.heappush.
  rewrite length_app. simpl.
  replace (length heap + 1 - 1)%nat with (length heap) by lia.
  apply (_siftdown_ordered _ _ item).
  - apply lookup_snoc_Some. right. auto.
  - split; [rewrite length_app; simpl; lia|]. split; [|split].
    + intros i x p Hi Hne Hx Hp.
      apply lookup_snoc_Some in Hx. destruct Hx as [[Hlt Hx]|[? _]]; [|lia].
      apply lookup_snoc_Some in Hp. destruct Hp as [[_ Hp]|[? _]]; [|lia].
      eapply Hh; eauto.
    + intros c x Hc Hpc Hx.
      pose proof (lookup_lt_Some _ _ _ Hx) as Hlen.
      rewrite length_app in Hlen. simpl in Hlen. lia.
    + intros c x p Hc Hpc _ Hx _.
      pose proof (lookup_lt_Some _ _ _ Hx) as Hlen.
      rewrite length_app in Hlen. simpl in Hlen. lia.
Qed.

(** *** heappop *)

Lemma list_pop_spec heap :
  match heapq.list_pop heap with
  | None => heap = []
  | Some (lastelt, heap') => heap = heap' ++ [lastelt]
  end.
Proof.
  unfold heapq.list_pop. destruct (rev heap) as [|x r] eqn:E.
  - apply (f_equal (@rev _)) in E. rewrite rev_involutive in E. exact E.
  - apply (f_equal (@rev _)) in E. rewrite rev_involutive in E. exact E.
Qed.

(** The root of a heap goes before every element. *)
Lemma heap_root_first heap r :
  heap_ordered heap -> heap !! 0%nat = Some r ->
  forall i x, heap !! i = Some x -> before r x.
Proof.
  intros Hh Hr i. induction i as [i IH] using lt_wf_ind. intros x Hx.
  destruct (decide (i = 0)%nat) as [->|Hi].
  - rewrite Hr in Hx. injection Hx as <-. apply before_refl.
  - assert (Hplt : ((i - 1) / 2 < i)%nat) by lia.
    pose proof (lookup_lt_Some _ _ _ Hx) as Hlen.
    destruct (lookup_lt_is_Some_2 heap ((i - 1) / 2)%nat ltac:(lia)) as [p Hp].
    eapply before_trans; [apply (IH _ Hplt p Hp)|].
    eapply Hh; [|exact Hx|exact Hp]. lia.
Qed.

Lemma heap_ordered_init heap x :
  heap_ordered (heap ++ [x]) -> heap_ordered heap.
Proof.
  intros Hh i y p Hi Hy Hp.
  eapply Hh; [exact Hi| |]; apply lookup_snoc_Some; left;
    (split; [eapply lookup_lt_Some; eassumption|assumption]).
Qed.

(** [heappop] of a heap returns an element that goes before all the
    others and leaves a heap of the others. *)
Lemma heappop_spec heap :
  heap_ordered heap ->
  match heapq.heappop heap with
  | None => heap = []
  | Some (m, heap') =>
      heap ≡ₚ m :: heap' /\
      heap_ordered heap' /\
      (forall x, x ∈ heap -> before m x)
  end.
Proof.
  intros Hh. unfold heapq.heappop.
  pose proof (list_pop_spec heap) as Hpop.
  destruct (heapq.list_pop heap) as [[lastelt h]|]; [|exact Hpop].
  subst heap. pose proof (heap_ordered_init _ _ Hh) as Hh'.
  destruct (h !! 0%nat) as [ret|] eqn:Hret.
  - split; [|split].
    + rewrite _siftup_perm.
      rewrite (delete_Permutation h 0 ret Hret) at 1.
      assert (Hl : (<[0%nat := lastelt]> h) !! 0%nat = Some lastelt).
      { apply list_lookup_insert_eq. eapply lookup_lt_Some. exact Hret. }
      rewrite (delete_Permutation _ 0 lastelt Hl).
      destruct h; [discriminate|]. simpl.
      rewrite <- Permutation_cons_append. reflexivity.
    + apply _siftup_ordered.
      split; [rewrite length_insert; eapply lookup_lt_Some; exact Hret|].
      split.
      * intros i x p Hi Hne Hx Hp.
        read_insert Hx; [lia|]. read_insert Hp; [lia|].
        eapply Hh'; eauto.
      * intros c x p _ _ H0. lia.
    + intros x Hx. apply list_elem_of_lookup in Hx. destruct Hx as [i Hx].
      eapply (heap_root_first _ ret Hh); [|exact Hx].
      apply lookup_snoc_Some. left.
      split; [eapply lookup_lt_Some; exact Hret|exact Hret].
  - destruct h; [|discriminate]. simpl.
    split; [reflexivity|]. split.
    + intros i x p _ Hx. rewrite lookup_nil in Hx. discriminate.
    + intros x Hx. apply list_elem_of_singleton in Hx. subst x. apply before_refl.
Qed.

(** ** SendQueue *)

Lemma put_perm q m : _queue (put q m) ≡ₚ m :: _queue q.
Proof. apply heappush_perm. Qed.

Lemma put_ordered q m : heap_ordered (_queue q) -> heap_ordered (_queue (put q m)).
Proof. apply heappush_ordered. Qed.

Lemma get_spec q :
  heap_ordered (_queue q) ->
  match get q with
  | None => _queue q = []
  | Some (m, q') =>
      _queue q ≡ₚ m :: _queue q' /\
      heap_ordered (_queue q') /\
      _maxsize q' = _maxsize q /\
      (forall x, x ∈ _queue q -> (send_at m <= send_at x)%Q)
  end.
Proof.
  intros Hh. unfold get. pose proof (heappop_spec _ Hh) as H.
  destruct (heapq.heappop (_queue q)) as [[m h]|]; [|exact H].
  destruct H as (H1 & H2 & H3). simpl. auto.
Qed.

Lemma accept_ordered q now b :
  heap_ordered (_queue q) -> heap_ordered (_queue (snd (accept q now b))).
Proof.
  intros Hh. unfold accept. destruct (qsize q <? _maxsize q); simpl.
  - apply put_ordered, Hh.
  - exact Hh.
Qed.

Lemma apply_op_ordered q op :
  heap_ordered (_queue q) -> heap_ordered (_queue (apply_op q op)).
Proof.
  intros Hh. destruct op as [now b|m|]; simpl.
  - apply accept_ordered, Hh.
  - apply put_ordered, Hh.
  - pose proof (get_spec q Hh) as H.
    destruct (get q) as [[m q']|]; [|exact Hh]. apply H.
Qed.

Lemma heap_ordered_nil : heap_ordered [].
Proof. intros i x p _ Hx. rewrite lookup_nil in Hx. discriminate. Qed.

(** Every queue that the calls build is a heap. *)
Lemma apply_ops_ordered ops : forall q,
  heap_ordered (_queue q) -> heap_ordered (_queue (apply_ops ops q)).
Proof.
  induction ops as [|op ops IH]; intros q Hh; simpl.
  - exact Hh.
  - apply IH, apply_op_ordered, Hh.
Qed.

Lemma drain_spec n : forall q,
  heap_ordered (_queue q) -> n = length (_queue q) ->
  drain n q ≡ₚ _queue q /\
  (forall i j x y,
     (i <= j)%nat -> drain n q !! i = Some x -> drain n q !! j = Some y ->
     (send_at x <= send_at y)%Q).
Proof.
  induction n as [|n IH]; intros q Hh Hn.
  - destruct (_queue q); [|discriminate]. simpl. split; [reflexivity|].
    intros i j x y _ Hx. rewrite lookup_nil in Hx. discriminate.
  - simpl. pose proof (get_spec q Hh) as Hget.
    destruct (get q) as [[m q']|].
    2:{ rewrite Hget in Hn. discriminate. }
    destruct Hget as (Hperm & Hh' & _ & Hmin).
    assert (Hn' : n = length (_queue q')).
    { apply Permutation_length in Hperm. simpl in Hperm. lia. }
    destruct (IH q' Hh' Hn') as (IHp & IHs).
    split; [rewrite IHp, Hperm; reflexivity|].
    intros i j x y Hij Hx Hy.
    destruct i as [|i].
    + injection Hx as <-.
      apply Hmin. rewrite Hperm.
      destruct j as [|j].
      * injection Hy as <-. apply list_elem_of_here.
      * apply list_elem_of_further. rewrite <- IHp.
        eapply list_elem_of_lookup_2. exact Hy.
    + destruct j as [|j]; [lia|].
      eapply (IHs i j); [lia|exact Hx|exact Hy].
Qed.

(** ** The turn of a message that is due *)

Section DispatchTurn.

Variable env : Env.
Hypothesis Hff : fault_free env.

Lemma send_allowed_log item st rl' :
  is_allowed_at (rate_limiter (thread st))
    (monotonic_at env (clock_reads (world st))) = (Val true, rl') ->
  exists st',
    send env item st = (Val true, st') /\
    queue (thread st') = queue (thread st) /\
    log (world st') =
      log (world st) ++
      [mkLogRecord ModuleLogger DEBUG "Sending %s with lag %gs"
         [ArgMessage item;
          ArgFloat (monotonic_at env (S (clock_reads (world st))) - queued_at item)%Q]].
Proof.
  intros Hrl. eexists. split.
  - unfold send.
    erewrite bind_val by (rewrite is_allowed_ok, Hrl; reflexivity). simpl.
    erewrite bind_val by reflexivity.
    erewrite bind_val by apply time_monotonic_ok.
    unfold log_call. erewrite bind_val by reflexivity.
    erewrite bind_val by apply random_random_ok.
    erewrite bind_val by apply call_ok, Hff.
    unfold time_sleep. erewrite bind_val by reflexivity.
    erewrite bind_val by apply call_ok, Hff.
    erewrite bind_val by reflexivity.
    erewrite bind_val by apply call_ok, Hff.
    erewrite bind_val by reflexivity.
    erewrite bind_val by apply call_ok, Hff.
    erewrite bind_val by reflexivity.
    reflexivity.
  - simpl. split; reflexivity.
Qed.

Lemma try_send_sent item st rl' :
  is_allowed_at (rate_limiter (thread st))
    (monotonic_at env (clock_reads (world st))) = (Val true, rl') ->
  exists st',
    try_send env item st = (Val tt, st') /\
    queue (thread st') = queue (thread st) /\
    dispatched st' = dispatched st ++ [item].
Proof.
  intros Hrl.
  destruct (send_allowed_log item
              (with_world
                 (add_log (mkLogRecord ModuleLogger DEBUG "Trying to send %s"
                             [ArgMessage item])) st) rl' Hrl)
    as (st1 & Hsend & Hq & Hlog).
  eexists. split.
  - unfold try_send, log_call. erewrite bind_val by reflexivity.
    unfold try_except, try_send_body.
    erewrite bind_val by exact Hsend. reflexivity.
  - simpl. split; [exact Hq|].
    unfold dispatched. simpl. rewrite Hlog. simpl.
    rewrite !omap_app. simpl. rewrite ?List.app_nil_r. reflexivity.
Qed.

Lemma try_send_postponed item st rl' :
  is_allowed_at (rate_limiter (thread st))
    (monotonic_at env (clock_reads (world st))) = (Val false, rl') ->
  exists st',
    try_send env item st = (Val tt, st') /\
    queue (thread st') =
      put (queue (thread st))
        (next_attempt_at item (monotonic_at env (S (clock_reads (world st))))
           (retry_delay (attempt item) (random_at env (random_draws (world st))))) /\
    dispatched st' = dispatched st.
Proof.
  intros Hrl.
  pose proof (send_refused env Hff item
                (with_world
                   (add_log (mkLogRecord ModuleLogger DEBUG "Trying to send %s"
                               [ArgMessage item])) st) rl' Hrl) as Hsend.
  eexists. split.
  - unfold try_send, log_call. erewrite bind_val by reflexivity.
    unfold try_except.
    erewrite try_send_body_failed by (try exact Hff; exact Hsend).
    reflexivity.
  - simpl. split; [reflexivity|].
    unfold dispatched. simpl.
    rewrite !omap_app. simpl. rewrite ?List.app_nil_r. reflexivity.
Qed.

(** The turn of a message that is due: [get], the clock, [try_send], and
    the sleep. *)
Lemma run_iteration_due st m q' st3 :
  get (queue (thread st)) = Some (m, q') ->
  (send_at m <= monotonic_at env (clock_reads (world st)))%Q ->
  try_send env m
    (with_world
       (add_log (mkLogRecord ModuleLogger DEBUG "Dequeued %s at queued_at%+gs"
                   [ArgMessage m;
                    ArgFloat (monotonic_at env (clock_reads (world st))
                              - queued_at m)%Q]))
       (with_world tick_clock
          (with_thread (set_queue q') (with_world tick_calls st))))
    = (Val tt, st3) ->
  run_iteration env st = (Val tt, with_world (add_slept 0.1) st3).
Proof.
  intros Hget Hdue Htry. apply Qltb_ge in Hdue.
  apply run_iteration_fallthrough.
  unfold run_try, try_except, run_body.
  erewrite bind_val by (apply queue_get_ok; [exact Hff|exact Hget]).
  erewrite bind_val by apply time_monotonic_ok.
  unfold log_call. erewrite bind_val by reflexivity.
  simpl. rewrite Hdue.
  erewrite bind_val by exact Htry. reflexivity.
Qed.

(** A due message that the limiter lets pass is dispatched in its turn;
    one that the limiter refuses is not, and goes back for later. *)
Lemma run_iteration_dispatch st m q' :
  get (queue (thread st)) = Some (m, q') ->
  (send_at m <= monotonic_at env (clock_reads (world st)))%Q ->
  (forall rl',
     is_allowed_at (rate_limiter (thread st))
       (monotonic_at env (S (clock_reads (world st)))) = (Val true, rl') ->
     exists st',
       run_iteration env st = (Val tt, st') /\
       dispatched st' = dispatched st ++ [m] /\
       queue (thread st') = q') /\
  (forall rl',
     is_allowed_at (rate_limiter (thread st))
       (monotonic_at env (S (clock_reads (world st)))) = (Val false, rl') ->
     exists st',
       run_iteration env st = (Val tt, st') /\
       dispatched st' = dispatched st /\
       queue (thread st') =
         put q'
           (next_attempt_at m (monotonic_at env (S (S (clock_reads (world st)))))
              (retry_delay (attempt m) (random_at env (random_draws (world st)))))).
Proof.
  intros Hget Hdue. split; intros rl' Hrl.
  - destruct (try_send_sent m
                (with_world
                   (add_log (mkLogRecord ModuleLogger DEBUG "Dequeued %s at queued_at%+gs"
                               [ArgMessage m;
                                ArgFloat (monotonic_at env (clock_reads (world st))
                                          - queued_at m)%Q]))
                   (with_world tick_clock
                      (with_thread (set_queue q') (with_world tick_calls st))))
                rl' Hrl)
      as (st3 & Htry & Hq & Hd).
    eexists. split; [apply (run_iteration_due st m q' st3 Hget Hdue Htry)|].
    split.
    + unfold dispatched in *. simpl in *. rewrite Hd.
      rewrite omap_app. simpl. rewrite ?List.app_nil_r. reflexivity.
    + simpl. rewrite Hq. reflexivity.
  - destruct (try_send_postponed m
                (with_world
                   (add_log (mkLogRecord ModuleLogger DEBUG "Dequeued %s at queued_at%+gs"
                               [ArgMessage m;
                                ArgFloat (monotonic_at env (clock_reads (world st))
                                          - queued_at m)%Q]))
                   (with_world tick_clock
                      (with_thread (set_queue q') (with_world tick_calls st))))
                rl' Hrl)
      as (st3 & Htry & Hq & Hd).
    eexists. split; [apply (run_iteration_due st m q' st3 Hget Hdue Htry)|].
    split.
    + unfold dispatched in *. simpl in *. rewrite Hd.
      rewrite omap_app. simpl. rewrite ?List.app_nil_r. reflexivity.
    + simpl. rewrite Hq. reflexivity.
Qed.

End DispatchTurn.

(** C8, as the code has it.  On every queue that [accept], [put] and
    [get] calls build, [get] removes and returns a message whose
    [send_at] is the smallest in the queue (and waits when there is
    none); of two queued messages with different [send_at] it does not
    return the later one, which stays queued; and the successive [get]s
    return the queued messages so that the one with the smaller [send_at]
    comes first.  The message retrieved is dispatched in its turn, before
    every other message of the queue, when it is due and the limiter lets
    it pass; when the limiter refuses it, it is not dispatched and goes
    back into the queue as its next attempt. *)
Theorem get_returns_earliest (maxsize : Z) (ops : list queue_op) :
  let q := apply_ops ops (SendQueue_init maxsize) in
  match get q with
  | None => _queue q = []
  | Some (m, q') =>
      _queue q ≡ₚ m :: _queue q' /\
      (forall x, x ∈ _queue q -> (send_at m <= send_at x)%Q) /\
      (forall a b,
         a ∈ _queue q -> b ∈ _queue q -> (send_at a < send_at b)%Q ->
         m <> b /\ b ∈ _queue q') /\
      (forall env st,
         fault_free env -> queue (thread st) = q ->
         (send_at m <= monotonic_at env (clock_reads (world st)))%Q ->
         (forall rl',
            is_allowed_at (rate_limiter (thread st))
              (monotonic_at env (S (clock_reads (world st)))) = (Val true, rl') ->
            exists st',
              run_iteration env st = (Val tt, st') /\
              dispatched st' = dispatched st ++ [m] /\
              queue (thread st') = q') /\
         (forall rl',
            is_allowed_at (rate_limiter (thread st))
              (monotonic_at env (S (clock_reads (world st)))) = (Val false, rl') ->
            exists st',
              run_iteration env st = (Val tt, st') /\
              dispatched st' = dispatched st /\
              queue (thread st') =
                put q'
                  (next_attempt_at m
                     (monotonic_at env (S (S (clock_reads (world st)))))
                     (retry_delay (attempt m)
                        (random_at env (random_draws (world st)))))))
  end /\
  let order := drain (length (_queue q)) q in
  order ≡ₚ _queue q /\
  (forall a b i j,
     order !! i = Some a -> order !! j = Some b ->
     (send_at a < send_at b)%Q -> (i < j)%nat).
Proof.
  intros q.
  assert (Hh : heap_ordered (_queue q)).
  { apply apply_ops_ordered. apply heap_ordered_nil. }
  split.
  - pose proof (get_spec q Hh) as Hget.
    destruct (get q) as [[m q']|] eqn:Hgq; [|exact Hget].
    destruct Hget as (Hperm & _ & _ & Hmin).
    split; [exact Hperm|]. split; [exact Hmin|]. split.
    + intros a b Ha Hb Hab.
      assert (Hne : m <> b).
      { intros ->. specialize (Hmin a Ha). lra. }
      split; [exact Hne|].
      rewrite Hperm in Hb. apply elem_of_cons in Hb.
      destruct Hb as [Hb|Hb]; [congruence|exact Hb].
    + intros env st Hff Hq Hdue.
      apply (run_iteration_dispatch env Hff st m q'); [|exact Hdue].
      rewrite Hq. exact Hgq.
  - destruct (drain_spec _ q Hh eq_refl) as (Hperm & Hsorted).
    split; [exact Hperm|].
    intros a b i j Ha Hb Hab.
    destruct (Nat.lt_ge_cases i j) as [Hlt|Hge]; [exact Hlt|].
    pose proof (Hsorted j i b a Hge Hb Ha). lra.
Qed.

(** The claim fails for the dispatch when the limiter refuses the
    earlier message.  ["a"] (due at 1 s) and ["b"] (due at 2 s) are
    queued behind a burst of twenty-three messages, sent one per 0.3 s,
    that leaves 0.2 token: the next turn, at 7.2 s, retrieves ["a"], the
    limiter has 0.8 token and refuses it, and it goes back as a retry;
    the turn after retrieves ["b"], the bucket has refilled to 1.4, and
    ["b"] is dispatched, before ["a"]. *)
Lemma later_message_dispatched_first :
  let a := Message_init "a" 1 1 in
  let b := Message_init "b" 2 2 in
  let st0 := run_system paced_env burst_then_two (boot paced_env (SendQueue_init 100)) in
  let st2 := run_system paced_env [Turn; Turn] st0 in
  _queue (queue (thread st0)) = [a; b] /\
  (send_at a < send_at b)%Q /\
  (send_at b <= monotonic_at paced_env (clock_reads (world st0)))%Q /\
  (exists q', get (queue (thread st0)) = Some (a, q')) /\
  dispatched st2 = dispatched st0 ++ [b] /\
  map body (dispatched st2) = repeat "m"%string 23 ++ ["b"%string] /\
  map body (_queue (queue (thread st2))) = ["a"%string] /\
  map attempt (_queue (queue (thread st2))) = [1].
Proof.
  split; [vm_compute; reflexivity|].
  split; [reflexivity|].
  split; [vm_compute; discriminate|].
  split; [eexists; vm_compute; reflexivity|].
  split; [vm_compute; reflexivity|].
  split; [vm_compute; reflexivity|].
  split; vm_compute; reflexivity.
Qed.

(** ** Admission *)

Lemma accept_all_spec calls : forall q,
  qsize q <= _maxsize q ->
  (forall i r, fst (accept_all calls q) !! i = Some r ->
     r = (qsize q + Z.of_nat i <? _maxsize q)) /\
  length (fst (accept_all calls q)) = length calls /\
  qsize (snd (accept_all calls q)) =
    Z.min (qsize q + Z.of_nat (length calls)) (_maxsize q) /\
  _maxsize (snd (accept_all calls q)) = _maxsize q.
Proof.
  induction calls as [|[now b] calls IH]; intros q Hq; simpl.
  - split; [intros i r Hr; rewrite lookup_nil in Hr; discriminate|].
    split; [reflexivity|]. split; [lia|reflexivity].
  - destruct (accept q now b) as [r0 q'] eqn:Hacc.
    unfold accept in Hacc.
    destruct (qsize q <? _maxsize q) eqn:E; injection Hacc as <- <-.
    + apply Z.ltb_lt in E.
      specialize (IH (put q (Message_init b now now))).
      rewrite put_qsize, put_maxsize in IH.
      assert (Hq' : qsize q + 1 <= _maxsize q) by lia.
      specialize (IH Hq').
      destruct (accept_all calls (put q (Message_init b now now))) as [rs q''].
      simpl in *. destruct IH as (IH1 & IH2 & IH3 & IH4).
      split; [|split; [|split]].
      * intros [|i] r Hr; simpl in Hr.
        -- injection Hr as <-. symmetry. apply Z.ltb_lt. lia.
        -- rewrite (IH1 i r Hr). f_equal. lia.
      * rewrite IH2. reflexivity.
      * rewrite IH3. lia.
      * exact IH4.
    + apply Z.ltb_ge in E.
      specialize (IH q Hq).
      destruct (accept_all calls q) as [rs q'']. simpl in *.
      destruct IH as (IH1 & IH2 & IH3 & IH4).
      split; [|split; [|split]].
      * intros [|i] r Hr; simpl in Hr.
        -- injection Hr as <-. symmetry. apply Z.ltb_ge. lia.
        -- rewrite (IH1 i r Hr). transitivity false.
           ++ apply Z.ltb_ge. lia.
           ++ symmetry. apply Z.ltb_ge. lia.
      * rewrite IH2. reflexivity.
      * rewrite IH3. lia.
      * exact IH4.
Qed.

(** C6. [accept(now, body)] builds the message with [send_at = now],
    [queued_at = now] and [attempt = 0]; when the size is below [maxsize]
    it inserts it and returns true, otherwise it returns false and leaves
    the queue as it is.  Of any sequence of [accept] calls on an empty
    queue, the i-th (from 0) returns true exactly when [i < maxsize], and
    the size after the calls is the smaller of their number and
    [maxsize]. *)
Theorem accept_admits_below_maxsize (maxsize : Z) (Hmax : 0 <= maxsize) :
  (forall q now body,
     let message := mkMessage body now now 0 in
     (qsize q < _maxsize q ->
        accept q now body = (true, put q message) /\
        _queue (put q message) ≡ₚ message :: _queue q /\
        qsize (put q message) = qsize q + 1) /\
     (_maxsize q <= qsize q -> accept q now body = (false, q))) /\
  (forall calls : list (Q * string),
     let results := fst (accept_all calls (SendQueue_init maxsize)) in
     let q := snd (accept_all calls (SendQueue_init maxsize)) in
     length results = length calls /\
     (forall i r, results !! i = Some r -> r = (Z.of_nat i <? maxsize)) /\
     qsize q = Z.min (Z.of_nat (length calls)) maxsize).
Proof.
  split.
  - intros q now body message. split.
    + intros Hlt. unfold accept. apply Z.ltb_lt in Hlt. rewrite Hlt.
      split; [reflexivity|]. split; [apply put_perm|apply put_qsize].
    + intros Hge. unfold accept. apply Z.ltb_ge in Hge. rewrite Hge. reflexivity.
  - intros calls results q.
    destruct (accept_all_spec calls (SendQueue_init maxsize) Hmax)
      as (H1 & H2 & H3 & _).
    split; [exact H2|]. split; [|exact H3].
    intros i r Hr. apply H1 in Hr. exact Hr.
Qed.

Lemma accept_admits_below_maxsize_witness :
  fst (accept_all [(0%Q, "a"%string); (0%Q, "b"%string); (1%Q, "c"%string); (2%Q, "d"%string)] (SendQueue_init 2))
    = [true; true; false; false] /\
  qsize (snd (accept_all [(0%Q, "a"%string); (0%Q, "b"%string); (1%Q, "c"%string); (2%Q, "d"%string)] (SendQueue_init 2)))
    = Z.min (Z.of_nat 4) 2.
Proof.
  split; [reflexivity|].
  exact (proj2 (proj2 (proj2 (accept_admits_below_maxsize 2 ltac:(lia))
           [(0%Q, "a"%string); (0%Q, "b"%string); (1%Q, "c"%string); (2%Q, "d"%string)]))).
Defined.

(** ** Unchecked insertion *)

(** C7. [put] inserts whatever the size is, also at or above [maxsize]:
    the size grows by one and the queue holds the message.  [accept] is
    the gate: it never takes the size beyond the larger of the size
    before and [maxsize], and refuses at or above [maxsize].  So a retry
    re-enqueued, or a message put back as too early, after a producer
    filled the place its [get] had freed, takes the queue past
    [maxsize]. *)
Theorem put_has_no_capacity_check :
  (forall q m,
     qsize (put q m) = qsize q + 1 /\
     _queue (put q m) ≡ₚ m :: _queue q /\
     _maxsize (put q m) = _maxsize q) /\
  (forall q now body,
     qsize (snd (accept q now body)) <= Z.max (qsize q) (_maxsize q) /\
     (_maxsize q <= qsize q -> accept q now body = (false, q))) /\
  (let later := Message_init "later" 5 5 in
   let q := apply_ops [OpAccept 5 "later"; OpGet; OpAccept 0 "next"; OpPut later]
              (SendQueue_init 1) in
   qsize q = 2 /\ _maxsize q = 1) /\
  (let full := snd (accept (SendQueue_init 1) 0 "first") in
   let st0 :=
     mkState (mkSenderThread full (mkRateLimiter 10 0 0 5) 0 [] [] []) World_init in
   exists item st1 st3,
     queue_get quiet_env st0 = (Val item, st1) /\
     try_send quiet_env item (step quiet_env (Accept 0 "second") st1) = (Val tt, st3) /\
     qsize (queue (thread st3)) = 2 /\
     _maxsize (queue (thread st3)) = 1).
Proof.
  split; [|split; [|split]].
  - intros q m. split; [apply put_qsize|]. split; [apply put_perm|reflexivity].
  - intros q now body. unfold accept.
    destruct (qsize q <? _maxsize q) eqn:E; simpl.
    + apply Z.ltb_lt in E. rewrite put_qsize. split; [lia|]. intros H. lia.
    + split; [lia|reflexivity].
  - split; reflexivity.
  - eexists _, _, _. split; [vm_compute; reflexivity|].
    split; [vm_compute; reflexivity|]. split; reflexivity.
Qed.

(** ** A message the limiter admits *)

Section Admitted_by_limiter.

Variable env : Env.
Hypothesis Hff : fault_free env.

Lemma send_allowed item st rl' :
  is_allowed_at (rate_limiter (thread st))
    (monotonic_at env (clock_reads (world st))) = (Val true, rl') ->
  let lag := (monotonic_at env (S (clock_reads (world st))) - queued_at item)%Q in
  let send_time := (0.2 + 0.3 * random_at env (random_draws (world st)))%Q in
  exists st',
    send env item st = (Val true, st') /\
    rate_limiter (thread st') = take_token rl' /\
    lag_histogram (thread st') = lag_histogram (thread st) ++ [lag] /\
    send_time_histogram (thread st') = send_time_histogram (thread st) ++ [send_time] /\
    attempt_histogram (thread st') = attempt_histogram (thread st) ++ [attempt item] /\
    rate_limited (thread st') = rate_limited (thread st) /\
    queue (thread st') = queue (thread st) /\
    slept (world st') = slept (world st) ++ [send_time].
Proof.
  intros Hrl lag send_time. eexists. split.
  - unfold send.
    erewrite bind_val by (rewrite is_allowed_ok, Hrl; reflexivity). simpl.
    erewrite bind_val by reflexivity.
    erewrite bind_val by apply time_monotonic_ok.
    unfold log_call. erewrite bind_val by reflexivity.
    erewrite bind_val by apply random_random_ok.
    erewrite bind_val by apply call_ok, Hff.
    unfold time_sleep. erewrite bind_val by reflexivity.
    erewrite bind_val by apply call_ok, Hff.
    erewrite bind_val by reflexivity.
    erewrite bind_val by apply call_ok, Hff.
    erewrite bind_val by reflexivity.
    erewrite bind_val by apply call_ok, Hff.
    erewrite bind_val by reflexivity.
    reflexivity.
  - simpl. repeat split.
Qed.

End Admitted_by_limiter.

(** When [is_allowed] answers true and no collaborator raises, [send]
    takes one token, sleeps for the send time, observes the lag
    [now - queued_at], the send time [0.2 + 0.3 * r] and the attempt
    count, and returns true; [try_send] then returns, having slept for
    the send time and nothing else, with the queue as it was: the
    message is not put back. *)
Theorem allowed_message_is_sent (env : Env) (Hff : fault_free env)
    (item : Message) (st : State) (rl' : RateLimiter)
    (Hallowed :
       is_allowed_at (rate_limiter (thread st))
         (monotonic_at env (clock_reads (world st))) = (Val true, rl')) :
  let lag := (monotonic_at env (S (clock_reads (world st))) - queued_at item)%Q in
  let send_time := (0.2 + 0.3 * random_at env (random_draws (world st)))%Q in
  exists st1 st',
    send env item
      (with_world
         (add_log (mkLogRecord ModuleLogger DEBUG "Trying to send %s"
                     [ArgMessage item])) st) = (Val true, st1) /\
    try_send env item st = (Val tt, st') /\
    thread st' = thread st1 /\
    slept (world st1) = slept (world st) ++ [send_time] /\
    slept (world st') = slept (world st) ++ [send_time] /\
    rate_limiter (thread st') = take_token rl' /\
    (available (take_token rl') == available rl' - 1)%Q /\
    lag_histogram (thread st') = lag_histogram (thread st) ++ [lag] /\
    send_time_histogram (thread st') = send_time_histogram (thread st) ++ [send_time] /\
    attempt_histogram (thread st') = attempt_histogram (thread st) ++ [attempt item] /\
    rate_limited (thread st') = rate_limited (thread st) /\
    queue (thread st') = queue (thread st).
Proof.
  intros lag send_time.
  destruct (send_allowed env Hff item
              (with_world
                 (add_log (mkLogRecord ModuleLogger DEBUG "Trying to send %s"
                             [ArgMessage item])) st) rl' Hallowed)
    as (st1 & Hsend & H1 & H2 & H3 & H4 & H5 & H6 & H7).
  exists st1. eexists. split; [exact Hsend|]. split.
  - unfold try_send, log_call. erewrite bind_val by reflexivity.
    unfold try_except, try_send_body.
    erewrite bind_val by exact Hsend. reflexivity.
  - simpl. rewrite H1, H2, H3, H4, H5, H6, H7. simpl.
    repeat split; reflexivity.
Qed.

Lemma allowed_message_is_sent_witness :
  exists st',
    try_send quiet_env (Message_init "hello" 0 0) ready_state = (Val tt, st') /\
    (available (rate_limiter (thread st')) == 9)%Q /\
    attempt_histogram (thread st') = [0] /\
    queue (thread st') = queue (thread ready_state) /\
    slept (world st') = [(0.2 + 0.3 * 0.5)%Q].
Proof.
  destruct (allowed_message_is_sent quiet_env quiet_env_fault_free
              (Message_init "hello" 0 0) ready_state
              (snd (is_allowed_at (rate_limiter (thread ready_state))
                      (monotonic_at quiet_env 1)))
              eq_refl)
    as (st1 & st' & _ & Hrun & _ & _ & Hs & Hrl & _ & _ & _ & Ha & _ & Hq).
  exists st'. split; [exact Hrun|]. rewrite Hrl.
  split; [reflexivity|]. split; [exact Ha|]. split; [exact Hq|exact Hs].
Defined.

(** A turn on an empty queue waits in [queue.get()] and has no effect:
    nothing is logged, observed, slept or read. *)
Theorem empty_queue_turn_waits (env : Env) (st : State)
    (Hempty : _queue (queue (thread st)) = []) :
  forall n, run env (S n) st = (Blocked, st).
Proof.
  intros n. simpl. apply bind_blocked. apply run_iteration_empty.
  unfold get. rewrite Hempty. reflexivity.
Qed.

Lemma empty_queue_turn_waits_witness :
  run (failing_env Transport) 3 (boot quiet_env (SendQueue_init 100))
    = (Blocked, boot quiet_env (SendQueue_init 100)).
Proof.
  exact (empty_queue_turn_waits (failing_env Transport)
           (boot quiet_env (SendQueue_init 100)) eq_refl 2%nat).
Defined.

(** A message that is not due goes back into the queue as it is (same
    [attempt], same [send_at]); the limiter, the counter and the
    histograms are not touched. *)
Theorem too_early_message_goes_back (env : Env) (Hff : fault_free env)
    (st : State) (item : Message) (q' : SendQueue)
    (Hget : get (queue (thread st)) = Some (item, q'))
    (Hearly : (monotonic_at env (clock_reads (world st)) < send_at item)%Q) :
  exists st',
    run_iteration env st = (Val tt, st') /\
    queue (thread st') = put q' item /\
    rate_limiter (thread st') = rate_limiter (thread st) /\
    rate_limited (thread st') = rate_limited (thread st) /\
    attempt_histogram (thread st') = attempt_histogram (thread st) /\
    lag_histogram (thread st') = lag_histogram (thread st) /\
    send_time_histogram (thread st') = send_time_histogram (thread st).
Proof.
  apply Qltb_lt in Hearly.
  eexists. split.
  - apply run_iteration_continue.
    unfold run_try, try_except, run_body.
    erewrite bind_val by (apply queue_get_ok; [exact Hff|exact Hget]).
    erewrite bind_val by apply time_monotonic_ok.
    unfold log_call. erewrite bind_val by reflexivity.
    simpl. rewrite Hearly.
    erewrite bind_val by reflexivity.
    erewrite bind_val by apply queue_put_ok, Hff.
    reflexivity.
  - simpl. repeat split.
Qed.

Lemma too_early_message_goes_back_witness :
  let later := Message_init "later" 5 5 in
  let st := boot quiet_env (put (SendQueue_init 100) later) in
  exists st',
    run_iteration quiet_env st = (Val tt, st') /\
    queue (thread st') = put (SendQueue_init 100) later.
Proof.
  intros later st.
  destruct (too_early_message_goes_back quiet_env quiet_env_fault_free st later
              (SendQueue_init 100) eq_refl eq_refl)
    as (st' & Hrun & Hq & _).
  exists st'. split; [exact Hrun|exact Hq].
Defined.

(** Every queue that [accept], [put] and [get] calls build from an empty
    one is a heap on [send_at]: no message is due before its parent. *)
Theorem queue_is_a_heap (maxsize : Z) (ops : list queue_op) :
  heap_ordered (_queue (apply_ops ops (SendQueue_init maxsize))).
Proof. apply apply_ops_ordered, heap_ordered_nil. Qed.


(** * Further properties of the queue, the loop and the limiter *)

(** ** The queue, whatever its order *)

Lemma heappop_perm heap m heap' :
  heapq.heappop heap = Some (m, heap') -> heap ≡ₚ m :: heap'.
Proof.
  unfold heapq.heappop. pose proof (list_pop_spec heap) as Hpop.
  destruct (heapq.list_pop heap) as [[lastelt h]|]; [|discriminate].
  subst heap. destruct (h !! 0%nat) as [ret|] eqn:Hret; intros H; injection H as <- <-.
  - rewrite _siftup_perm.
    rewrite (delete_Permutation h 0 ret Hret) at 1.
    assert (Hl : (<[0%nat := lastelt]> h) !! 0%nat = Some lastelt).
    { apply list_lookup_insert_eq. eapply lookup_lt_Some. exact Hret. }
    rewrite (delete_Permutation _ 0 lastelt Hl).
    destruct h; [discriminate|]. simpl.
    rewrite <- Permutation_cons_append. reflexivity.
  - destruct h; [|discriminate]. reflexivity.
Qed.

Lemma heappop_None heap : heapq.heappop heap = None <-> heap = [].
Proof.
  unfold heapq.heappop. pose proof (list_pop_spec heap) as Hpop.
  destruct (heapq.list_pop heap) as [[lastelt h]|].
  - subst heap. split.
    + destruct (h !! 0%nat); discriminate.
    + intros H. destruct h; discriminate.
  - split; [intros _; exact Hpop|reflexivity].
Qed.

Lemma get_None q : get q = None <-> _queue q = [].
Proof.
  unfold get. rewrite <- heappop_None.
  destruct (heapq.heappop (_queue q)) as [[m h]|]; split; congruence.
Qed.

Lemma get_perm q m q' :
  get q = Some (m, q') -> _queue q ≡ₚ m :: _queue q' /\ _maxsize q' = _maxsize q.
Proof.
  unfold get. destruct (heapq.heappop (_queue q)) as [[m0 h]|] eqn:E; [|discriminate].
  intros H. injection H as <- <-. simpl. split; [|reflexivity].
  apply heappop_perm, E.
Qed.

Lemma get_qsize q m q' : get q = Some (m, q') -> qsize q' = qsize q - 1.
Proof.
  intros H. apply get_perm in H. destruct H as [H _].
  apply Permutation_length in H. unfold qsize. simpl in H. lia.
Qed.

(** A message put is got back.  On every queue that the calls build,
    [get] after [put] does not wait and returns a message that is due no
    later than the one put, leaving as many messages as before the
    [put]; it returns the very message put when that one is due before
    all the others.  And [get] waits exactly when the size is zero. *)
Theorem put_then_get (maxsize : Z) (ops : list queue_op) (m : Message) :
  let q := apply_ops ops (SendQueue_init maxsize) in
  (exists x q',
     get (put q m) = Some (x, q') /\
     (send_at x <= send_at m)%Q /\
     m :: _queue q ≡ₚ x :: _queue q' /\
     qsize q' = qsize q /\
     ((forall y, y ∈ _queue q -> (send_at m < send_at y)%Q) ->
        x = m /\ _queue q' ≡ₚ _queue q)) /\
  (get q = None <-> qsize q = 0).
Proof.
  intros q.
  assert (Hh : heap_ordered (_queue q)) by apply apply_ops_ordered, heap_ordered_nil.
  split.
  - pose proof (get_spec (put q m) (put_ordered q m Hh)) as Hget.
    destruct (get (put q m)) as [[x q']|] eqn:E.
    2:{ pose proof (put_perm q m) as Hp. rewrite Hget in Hp.
        apply Permutation_nil_l in Hp. discriminate. }
    destruct Hget as (Hperm & _ & _ & Hmin).
    exists x, q'. split; [reflexivity|].
    assert (Hm : m ∈ _queue (put q m)).
    { rewrite put_perm. apply list_elem_of_here. }
    split; [apply Hmin, Hm|].
    assert (Hall : m :: _queue q ≡ₚ x :: _queue q').
    { rewrite <- put_perm. exact Hperm. }
    split; [exact Hall|].
    split.
    { apply get_qsize in E. rewrite put_qsize in E. lia. }
    intros Hfirst.
    assert (Hx : x ∈ m :: _queue q).
    { rewrite Hall. apply list_elem_of_here. }
    apply elem_of_cons in Hx. destruct Hx as [->|Hx].
    + split; [reflexivity|]. symmetry. apply (Permutation_cons_inv Hall).
    + exfalso. specialize (Hfirst x Hx). specialize (Hmin m Hm). lra.
  - rewrite get_None. unfold qsize. destruct (_queue q); simpl; split;
      intros H; try reflexivity; try discriminate; lia.
Qed.

(** ** What a turn does to the queue *)

Section QueueFrame.

Variable env : Env.
Variable P : SendQueue -> Prop.

Let I (st : State) : Prop := P (queue (thread st)).

Lemma qkeeps_call s : keeps I (call env s).
Proof.
  intros st H. unfold call. destruct (fault env s (calls (world st))); exact H.
Qed.

Lemma qkeeps_is_allowed : keeps I (is_allowed env).
Proof.
  intros st H. rewrite is_allowed_ok. exact H.
Qed.

Lemma qkeeps_send item : keeps I (send env item).
Proof.
  unfold send.
  apply keeps_bind; [apply qkeeps_is_allowed|intros [|]]; simpl;
    repeat first
      [ apply keeps_ret
      | apply keeps_bind;
        [ first [ apply qkeeps_call
                | apply keeps_modify; intros st H; exact H ]
        | intros ? ] ].
Qed.

End QueueFrame.

Lemma send_queue (env : Env) (item : Message) (st : State) :
  queue (thread (snd (send env item st))) = queue (thread st).
Proof.
  apply (qkeeps_send env (fun q => q = queue (thread st)) item st). reflexivity.
Qed.

Lemma queue_put_cases (env : Env) (m : Message) (st : State) :
  (exists e, queue_put env m st = (Raise e, with_world tick_calls st)) \/
  queue_put env m st =
    (Val tt, with_thread (fun t => set_queue (put (queue t) m) t)
               (with_world tick_calls st)).
Proof.
  unfold queue_put, bind, call.
  destruct (fault env QueuePut (calls (world st))) as [e|].
  - left. exists e. reflexivity.
  - right. reflexivity.
Qed.

Lemma queue_get_cases (env : Env) (st : State) (item : Message) (q1 : SendQueue) :
  get (queue (thread st)) = Some (item, q1) ->
  (exists e, queue_get env st = (Raise e, with_world tick_calls st)) \/
  queue_get env st = (Val item, with_thread (set_queue q1) (with_world tick_calls st)).
Proof.
  intros Hget. unfold queue_get. rewrite Hget. unfold bind, call.
  destruct (fault env QueueGet (calls (world st))) as [e|].
  - left. exists e. reflexivity.
  - right. reflexivity.
Qed.

(** [try_send] leaves the queue as it was or with one retry of the
    message more, and always returns. *)
Lemma try_send_queue (env : Env) (item : Message) (st : State) :
  exists st',
    try_send env item st = (Val tt, st') /\
    (queue (thread st') = queue (thread st) \/
     exists m', retry_of item m' /\ queue (thread st') = put (queue (thread st)) m').
Proof.
  unfold try_send, log_call. erewrite bind_val by reflexivity.
  set (st0 := with_world _ st).
  assert (Hq0 : queue (thread st0) = queue (thread st)) by reflexivity.
  rewrite <- Hq0. clearbody st0. clear Hq0.
  unfold try_except, try_send_body. unfold bind at 1.
  pose proof (send_queue env item st0) as Hs.
  pose proof (nonblocking_send env item st0) as Hnb.
  destruct (send env item st0) as [[[|]|e|] st1]; simpl in *.
  - eexists. split; [reflexivity|]. left. exact Hs.
  - erewrite bind_val by apply random_random_ok.
    erewrite bind_val by apply make_next_attempt_ok.
    destruct (queue_put_cases env
                (next_attempt_at item
                   (monotonic_at env (clock_reads (world (with_world tick_random st1))))
                   (retry_delay (attempt item)
                      (random_at env (random_draws (world st1)))))
                (with_world tick_clock (with_world tick_random st1)))
      as [[e He]|Hput].
    + erewrite bind_raise by exact He.
      eexists. split; [reflexivity|]. left. exact Hs.
    + erewrite bind_val by exact Hput.
      eexists. split; [reflexivity|]. right.
      eexists. split; [|simpl; rewrite Hs; reflexivity].
      repeat split.
  - eexists. split; [reflexivity|]. left. exact Hs.
  - contradiction.
Qed.

(** What one turn does to the queue, whatever the collaborators do: on
    an empty queue it waits; otherwise it returns, and the queue is as
    before (only when [queue.get()] raised), or lacks the message taken,
    or has that message back (only when it was too early), or has a
    retry of it instead (only when it was due). *)
Lemma run_iteration_queue (env : Env) (st : State) :
  match get (queue (thread st)) with
  | None => run_iteration env st = (Blocked, st)
  | Some (item, q1) =>
      exists st',
        run_iteration env st = (Val tt, st') /\
        (queue (thread st') = queue (thread st) \/
         queue (thread st') = q1 \/
         (queue (thread st') = put q1 item /\
          (monotonic_at env (clock_reads (world st)) < send_at item)%Q) \/
         (exists m', retry_of item m' /\ queue (thread st') = put q1 m' /\
            (send_at item <= monotonic_at env (clock_reads (world st)))%Q))
  end.
Proof.
  destruct (get (queue (thread st))) as [[item q1]|] eqn:Hget;
    [|apply run_iteration_empty, Hget].
  unfold run_iteration, run_try, try_except, run_body.
  destruct (queue_get_cases env st item q1 Hget) as [[e He]|Hg].
  { erewrite (bind_val (fun st => _)).
    2:{ erewrite bind_raise by exact He. reflexivity. }
    eexists. split; [reflexivity|]. left. reflexivity. }
  set (st1 := with_thread (set_queue q1) (with_world tick_calls st)) in *.
  destruct (Qltb (monotonic_at env (clock_reads (world st))) (send_at item)) eqn:Hearly.
  - destruct (queue_put_cases env item
                (with_world
                   (add_log (mkLogRecord ModuleLogger DEBUG
                               "Too early, enqueued %s back" [ArgMessage item]))
                   (with_world
                      (add_log (mkLogRecord ModuleLogger DEBUG
                                  "Dequeued %s at queued_at%+gs"
                                  [ArgMessage item;
                                   ArgFloat (monotonic_at env (clock_reads (world st))
                                             - queued_at item)%Q]))
                      (with_world tick_clock st1))))
      as [[e He]|Hput].
    + erewrite (bind_val (fun st => _)).
      2:{ erewrite bind_val by exact Hg.
          erewrite bind_val by apply time_monotonic_ok.
          unfold log_call. erewrite bind_val by reflexivity.
          simpl. rewrite Hearly.
          erewrite bind_val by reflexivity.
          erewrite bind_raise by exact He. reflexivity. }
      eexists. split; [reflexivity|]. right. left. reflexivity.
    + erewrite (bind_val (fun st => _)).
      2:{ erewrite bind_val by exact Hg.
          erewrite bind_val by apply time_monotonic_ok.
          unfold log_call. erewrite bind_val by reflexivity.
          simpl. rewrite Hearly.
          erewrite bind_val by reflexivity.
          erewrite bind_val by exact Hput. reflexivity. }
      eexists. split; [reflexivity|]. right. right. left.
      split; [reflexivity|]. apply Qltb_lt, Hearly.
  - destruct (try_send_queue env item
                (with_world
                   (add_log (mkLogRecord ModuleLogger DEBUG
                               "Dequeued %s at queued_at%+gs"
                               [ArgMessage item;
                                ArgFloat (monotonic_at env (clock_reads (world st))
                                          - queued_at item)%Q]))
                   (with_world tick_clock st1)))
      as (st2 & Hts & Hq).
    erewrite (bind_val (fun st => _)).
    2:{ erewrite bind_val by exact Hg.
        erewrite bind_val by apply time_monotonic_ok.
        unfold log_call. erewrite bind_val by reflexivity.
        simpl. rewrite Hearly.
        erewrite bind_val by exact Hts. reflexivity. }
    eexists. split; [reflexivity|]. simpl.
    destruct Hq as [Hq|(m' & Hr & Hq)].
    + right. left. exact Hq.
    + right. right. right. exists m'. split; [exact Hr|].
      split; [exact Hq|]. apply Qltb_ge, Hearly.
Qed.

Lemma run_iteration_queue_size (env : Env) (st : State) :
  queue_size st - 1 <= queue_size (snd (run_iteration env st)) <= queue_size st /\
  _maxsize (queue (thread (snd (run_iteration env st)))) = _maxsize (queue (thread st)).
Proof.
  pose proof (run_iteration_queue env st) as H. unfold queue_size.
  destruct (get (queue (thread st))) as [[item q1]|] eqn:Hget.
  - destruct H as (st' & -> & Hq). simpl.
    pose proof (get_qsize _ _ _ Hget) as Hsz.
    destruct (get_perm _ _ _ Hget) as [_ Hmax].
    destruct Hq as [->|[->|[[-> _]|(m' & _ & -> & _)]]];
      rewrite ?put_qsize, ?put_maxsize; split; (lia || congruence).
  - rewrite H. simpl. split; [lia|reflexivity].
Qed.

Lemma step_queue_size (env : Env) (ev : event) (st : State) :
  queue_size (step env ev st)
    <= Z.max (queue_size st) (_maxsize (queue (thread st))) /\
  _maxsize (queue (thread (step env ev st))) = _maxsize (queue (thread st)).
Proof.
  destruct ev as [now b|]; simpl.
  - unfold queue_size. simpl. unfold accept.
    destruct (qsize (queue (thread st)) <? _maxsize (queue (thread st))) eqn:E; simpl.
    + apply Z.ltb_lt in E. rewrite put_qsize. split; [lia|reflexivity].
    + split; [lia|reflexivity].
  - destruct (run_iteration_queue_size env st) as [H1 H2]. split; [lia|exact H2].
Qed.

(** The size of the queue across a turn.  Whatever the collaborators
    do, a turn of [run] leaves the queue with as many messages as before
    or one fewer, never more; so as long as no [accept] falls between a
    turn's [get] and its [put], the gauge [sender_queue_size] never
    exceeds the larger of its first value and [maxsize]. *)
Theorem turn_never_grows_queue (env : Env) :
  (forall st,
     queue_size st - 1 <= queue_size (snd (run_iteration env st)) <= queue_size st) /\
  (forall evs st,
     queue_size (run_system env evs st)
       <= Z.max (queue_size st) (_maxsize (queue (thread st)))) /\
  (forall evs maxsize,
     0 <= maxsize ->
     queue_size (run_system env evs (boot env (SendQueue_init maxsize))) <= maxsize).
Proof.
  assert (Hsys : forall evs st,
            queue_size (run_system env evs st)
              <= Z.max (queue_size st) (_maxsize (queue (thread st))) /\
            _maxsize (queue (thread (run_system env evs st)))
              = _maxsize (queue (thread st))).
  { induction evs as [|ev evs IH]; intros st; simpl.
    - split; [lia|reflexivity].
    - destruct (IH (step env ev st)) as [H1 H2].
      destruct (step_queue_size env ev st) as [H3 H4].
      split; [lia|congruence]. }
  split; [|split].
  - intros st. apply run_iteration_queue_size.
  - intros evs st. apply Hsys.
  - intros evs maxsize Hmax.
    destruct (Hsys evs (boot env (SendQueue_init maxsize))) as [H _].
    unfold queue_size in *. simpl in *. unfold qsize in H at 2. simpl in H. lia.
Qed.

(** ** Where queued messages come from *)

Lemma put_elem q m x : x ∈ _queue (put q m) <-> x = m \/ x ∈ _queue q.
Proof. rewrite put_perm. apply elem_of_cons. Qed.

Lemma get_elem q item q1 x :
  get q = Some (item, q1) ->
  item ∈ _queue q /\ (x ∈ _queue q1 -> x ∈ _queue q).
Proof.
  intros H. apply get_perm in H. destruct H as [H _]. split.
  - rewrite H. apply list_elem_of_here.
  - intros Hx. rewrite H. apply list_elem_of_further, Hx.
Qed.

Section Provenance.

Variable env : Env.

(** Every queued message has a non-negative [attempt] and the [body] and
    [queued_at] of one of the calls in [S]. *)
Let from_calls (S : list (Q * string)) (st : State) : Prop :=
  forall m, m ∈ _queue (queue (thread st)) ->
    0 <= attempt m /\ (queued_at m, body m) ∈ S.

Lemma from_calls_mono S S' st :
  (forall c, c ∈ S -> c ∈ S') -> from_calls S st -> from_calls S' st.
Proof.
  intros Hsub H m Hm. destruct (H m Hm) as [Ha Hc]. split; [exact Ha|apply Hsub, Hc].
Qed.

Lemma from_calls_turn S st :
  from_calls S st -> from_calls S (snd (run_iteration env st)).
Proof.
  intros H. pose proof (run_iteration_queue env st) as Hq.
  destruct (get (queue (thread st))) as [[item q1]|] eqn:Hget.
  - destruct Hq as (st' & -> & Hq). simpl. intros m Hm.
    assert (Hitem : item ∈ _queue (queue (thread st)))
      by exact (proj1 (get_elem _ _ _ item Hget)).
    assert (Hrest : forall x, x ∈ _queue q1 -> x ∈ _queue (queue (thread st))).
    { intros x. exact (proj2 (get_elem _ _ _ x Hget)). }
    destruct Hq as [Hq|[Hq|[[Hq _]|(m' & (Hb & Hqa & Hat) & Hq & _)]]];
      rewrite Hq in Hm.
    + apply H, Hm.
    + apply H, Hrest, Hm.
    + apply put_elem in Hm. destruct Hm as [->|Hm]; [apply H, Hitem|apply H, Hrest, Hm].
    + apply put_elem in Hm. destruct Hm as [->|Hm]; [|apply H, Hrest, Hm].
      destruct (H item Hitem) as [Ha Hc]. rewrite Hb, Hqa, Hat. split; [lia|exact Hc].
  - rewrite Hq. exact H.
Qed.

Lemma from_calls_step S ev st :
  from_calls S st -> from_calls (S ++ accept_calls [ev]) (step env ev st).
Proof.
  intros H. destruct ev as [now b|].
  - intros m Hm.
    change (m ∈ _queue (snd (accept (queue (thread st)) now b))) in Hm.
    unfold accept in Hm.
    destruct (qsize (queue (thread st)) <? _maxsize (queue (thread st)));
      simpl in Hm.
    + apply put_elem in Hm. destruct Hm as [->|Hm].
      * simpl. split; [lia|]. apply elem_of_app. right. apply list_elem_of_here.
      * destruct (H m Hm) as [Ha Hc]. split; [exact Ha|].
        apply elem_of_app. left. exact Hc.
    + destruct (H m Hm) as [Ha Hc]. split; [exact Ha|].
      apply elem_of_app. left. exact Hc.
  - simpl. rewrite app_nil_r. apply from_calls_turn, H.
Qed.

Lemma from_calls_run_system evs : forall S st,
  from_calls S st -> from_calls (S ++ accept_calls evs) (run_system env evs st).
Proof.
  induction evs as [|ev evs IH]; intros S st H; simpl.
  - rewrite app_nil_r. exact H.
  - apply (from_calls_step S ev) in H. apply IH in H.
    eapply from_calls_mono; [|exact H].
    intros c Hc. rewrite <- app_assoc in Hc.
    destruct ev; simpl in *; exact Hc.
Qed.

End Provenance.

(** No message is invented or altered.  After any [accept] calls and
    turns from the start, whatever the collaborators do, every queued
    message carries the [body] and, as [queued_at], the [now] of one of
    the [accept] calls, and its [attempt] is not negative. *)
Theorem queued_messages_come_from_accept (env : Env) (maxsize : Z)
    (evs : list event) (m : Message)
    (Hqueued :
       m ∈ _queue (queue (thread (run_system env evs
                                    (boot env (SendQueue_init maxsize)))))) :
  0 <= attempt m /\ (queued_at m, body m) ∈ accept_calls evs.
Proof.
  apply (from_calls_run_system env evs [] (boot env (SendQueue_init maxsize))).
  - intros x Hx. simpl in Hx. apply elem_of_nil in Hx. contradiction.
  - exact Hqueued.
Qed.

Lemma queued_messages_come_from_accept_witness :
  0 <= attempt (Message_init "b" 1 1) /\
  (queued_at (Message_init "b" 1 1), body (Message_init "b" 1 1))
    ∈ accept_calls [Accept 0 "a"; Accept 1 "b"; Turn].
Proof.
  apply (queued_messages_come_from_accept quiet_env 100
           [Accept 0 "a"; Accept 1 "b"; Turn] (Message_init "b" 1 1)).
  vm_compute. apply list_elem_of_here.
Defined.

(** ** Counting what passed the limiter *)

Lemma sends_started_add_log (r : LogRecord) (st : State) :
  sends_started (with_world (add_log r) st)
    = sends_started st + (if is_sending r then 1 else 0).
Proof.
  unfold sends_started. simpl. rewrite List.filter_app, length_app. simpl.
  destruct (is_sending r); simpl; lia.
Qed.

(** Methods that leave the view alone keep what depends on the view. *)
Section ViewFrame.

Variable env : Env.
Variable I : State -> Prop.
Hypothesis HI : forall st st', view st' = view st -> I st -> I st'.

Lemma vkeeps_call s : keeps I (call env s).
Proof.
  intros st H. unfold call.
  destruct (fault env s (calls (world st))); (eapply HI; [|exact H]); reflexivity.
Qed.

Lemma vkeeps_random_random : keeps I (random_random env).
Proof. intros st H. eapply HI; [|exact H]. reflexivity. Qed.

Lemma vkeeps_time_sleep secs : keeps I (time_sleep secs).
Proof. intros st H. eapply HI; [|exact H]. reflexivity. Qed.

Lemma vkeeps_log_call via lvl msg args :
  is_sending (mkLogRecord via lvl msg args) = false ->
  keeps I (log_call via lvl msg args).
Proof.
  intros Hmsg st H. eapply HI; [|exact H].
  unfold view, log_call, modify. simpl.
  rewrite sends_started_add_log, Hmsg. f_equal. f_equal. lia.
Qed.

Lemma vkeeps_queue_put m : keeps I (queue_put env m).
Proof.
  intros st H. destruct (queue_put_cases env m st) as [[e ->]| ->];
    (eapply HI; [|exact H]); reflexivity.
Qed.

Lemma vkeeps_queue_get : keeps I (queue_get env).
Proof.
  intros st H. unfold queue_get.
  destruct (get (queue (thread st))) as [[item q1]|] eqn:Hget; [|exact H].
  destruct (queue_get_cases env st item q1 Hget) as [[e He]|He];
    unfold queue_get in He; rewrite Hget in He; rewrite He;
    (eapply HI; [|exact H]); reflexivity.
Qed.

End ViewFrame.

(** ** The order of the observations *)

Section HistOrder.

Variable env : Env.

Lemma hist_order_view dl dt da st st' :
  view st' = view st -> hist_order dl dt da st -> hist_order dl dt da st'.
Proof.
  unfold view, hist_order. intros Hv H.
  injection Hv as _ _ -> -> -> -> _. exact H.
Qed.

Lemma hist_order_weaken dl dt da st :
  0 <= dl -> 0 <= dt -> 0 <= da ->
  hist_order dl dt da st -> hist_order 0 0 0 st.
Proof. unfold hist_order. lia. Qed.

Lemma hkeeps_time_monotonic dl dt da : keeps (hist_order dl dt da) (time_monotonic env).
Proof. intros st H. exact H. Qed.

Lemma hkeeps_is_allowed dl dt da : keeps (hist_order dl dt da) (is_allowed env).
Proof. intros st H. rewrite is_allowed_ok. exact H. Qed.

Lemma hkeeps_make_next_attempt dl dt da m d :
  keeps (hist_order dl dt da) (make_next_attempt env m d).
Proof. intros st H. exact H. Qed.

(** The rest of [send] once the limiter has let the message pass. *)
Lemma hkeeps_send item : keeps (hist_order 0 0 0) (send env item).
Proof.
  unfold send, keeps.
  apply hoare_bind with (R := fun _ st => hist_order 0 0 0 st);
    [apply hkeeps_is_allowed| |auto|auto].
  intros [|]; simpl.
  2:{ apply keeps_bind; [apply vkeeps_call, hist_order_view|intros _].
      apply keeps_bind; [apply keeps_modify; intros st H; exact H|intros _].
      apply keeps_ret. }
  (* the token, the clock, the "Sending" record *)
  apply hoare_bind with (R := fun _ st => hist_order 0 0 0 st);
    [apply keeps_modify; intros st H; exact H| |auto|auto]. intros _.
  apply hoare_bind with (R := fun _ st => hist_order 0 0 0 st);
    [apply hkeeps_time_monotonic| |auto|auto]. intros now.
  assert (W1 : forall (A : Type) (r : Res A) st,
             hist_order 1 0 0 st -> hist_order 0 0 0 st).
  { intros A r st. apply hist_order_weaken; lia. }
  assert (W2 : forall (A : Type) (r : Res A) st,
             hist_order 0 1 0 st -> hist_order 0 0 0 st).
  { intros A r st. apply hist_order_weaken; lia. }
  assert (W3 : forall (A : Type) (r : Res A) st,
             hist_order 0 0 1 st -> hist_order 0 0 0 st).
  { intros A r st. apply hist_order_weaken; lia. }
  apply hoare_bind with (R := fun _ st => hist_order 1 0 0 st);
    [| |intros e; apply (W1 unit (Raise e))|apply (W1 unit Blocked)].
  { apply hoare_modify. intros st (Ha & Ht & Hl). unfold hist_order.
    rewrite sends_started_add_log. simpl. simpl in *. lia. }
  intros _.
  apply hoare_bind with (R := fun _ st => hist_order 1 0 0 st);
    [apply vkeeps_random_random, hist_order_view| |intros e; apply (W1 unit (Raise e))
    |apply (W1 unit Blocked)]. intros r.
  apply hoare_bind with (R := fun _ st => hist_order 1 0 0 st);
    [apply vkeeps_call, hist_order_view| |intros e; apply (W1 unit (Raise e))
    |apply (W1 unit Blocked)]. intros _.
  apply hoare_bind with (R := fun _ st => hist_order 1 0 0 st);
    [apply vkeeps_time_sleep, hist_order_view| |intros e; apply (W1 unit (Raise e))
    |apply (W1 unit Blocked)]. intros _.
  apply hoare_bind with (R := fun _ st => hist_order 1 0 0 st);
    [apply vkeeps_call, hist_order_view| |intros e; apply (W1 unit (Raise e))
    |apply (W1 unit Blocked)]. intros _.
  apply hoare_bind with (R := fun _ st => hist_order 0 1 0 st);
    [| |intros e; apply (W2 unit (Raise e))|apply (W2 unit Blocked)].
  { apply hoare_modify. intros st (Ha & Ht & Hl). unfold hist_order. simpl.
    rewrite length_app. simpl. simpl in *.
    change (sends_started (with_thread _ st)) with (sends_started st). lia. }
  intros _.
  apply hoare_bind with (R := fun _ st => hist_order 0 1 0 st);
    [apply vkeeps_call, hist_order_view| |intros e; apply (W2 unit (Raise e))
    |apply (W2 unit Blocked)]. intros _.
  apply hoare_bind with (R := fun _ st => hist_order 0 0 1 st);
    [| |intros e; apply (W3 unit (Raise e))|apply (W3 unit Blocked)].
  { apply hoare_modify. intros st (Ha & Ht & Hl). unfold hist_order. simpl.
    rewrite length_app. simpl. simpl in *.
    change (sends_started (with_thread _ st)) with (sends_started st). lia. }
  intros _.
  apply hoare_bind with (R := fun _ st => hist_order 0 0 1 st);
    [apply vkeeps_call, hist_order_view| |intros e; apply (W3 unit (Raise e))
    |apply (W3 unit Blocked)]. intros _.
  apply hoare_bind with (R := fun _ st => hist_order 0 0 0 st); [| |auto|auto].
  { apply hoare_modify. intros st (Ha & Ht & Hl). unfold hist_order. simpl.
    rewrite length_app. simpl. simpl in *.
    change (sends_started (with_thread _ st)) with (sends_started st). lia. }
  intros _. apply keeps_ret.
Qed.

End HistOrder.

(** From [send] to the loop: what depends on the view only, and is kept
    by reading the clock and by [send], is kept by every turn and by
    every [accept]. *)
Section Lift.

Variable env : Env.
Variable I : State -> Prop.
Hypothesis HI : forall st st', view st' = view st -> I st -> I st'.
Hypothesis Hclock : keeps I (time_monotonic env).
Hypothesis Hsend : forall item, keeps I (send env item).

Lemma lift_try_send item : keeps I (try_send env item).
Proof.
  unfold try_send.
  apply keeps_bind; [apply vkeeps_log_call; [exact HI|reflexivity]|intros _].
  apply keeps_try_except.
  - unfold try_send_body.
    apply keeps_bind; [apply Hsend|intros [|]].
    + apply vkeeps_log_call; [exact HI|reflexivity].
    + apply keeps_bind; [apply vkeeps_random_random, HI|intros r].
      apply keeps_bind.
      { unfold make_next_attempt.
        apply keeps_bind; [exact Hclock|intros now; apply keeps_ret]. }
      intros item'.
      apply keeps_bind; [apply vkeeps_queue_put, HI|intros _].
      apply vkeeps_log_call; [exact HI|reflexivity].
  - intros e. apply vkeeps_log_call; [exact HI|reflexivity].
Qed.

Lemma lift_run_iteration : keeps I (run_iteration env).
Proof.
  unfold run_iteration, run_try.
  apply keeps_bind.
  - apply keeps_try_except.
    + unfold run_body.
      apply keeps_bind; [apply vkeeps_queue_get, HI|intros item].
      apply keeps_bind; [exact Hclock|intros now].
      apply keeps_bind; [apply vkeeps_log_call; [exact HI|reflexivity]|intros _].
      destruct (Qltb now (send_at item)).
      * apply keeps_bind; [apply vkeeps_log_call; [exact HI|reflexivity]|intros _].
        apply keeps_bind; [apply vkeeps_queue_put, HI|intros _].
        apply keeps_ret.
      * apply keeps_bind; [apply lift_try_send|intros _]. apply keeps_ret.
    + intros e. unfold run_handler.
      apply keeps_bind; [apply vkeeps_log_call; [exact HI|reflexivity]|intros _].
      apply keeps_ret.
  - intros [|]; [apply vkeeps_time_sleep, HI|apply keeps_ret].
Qed.

Lemma lift_run_system evs : forall st, I st -> I (run_system env evs st).
Proof.
  induction evs as [|ev evs IH]; intros st H; simpl; [exact H|].
  apply IH. destruct ev as [now b|]; simpl.
  - eapply HI; [|exact H]. reflexivity.
  - apply lift_run_iteration, H.
Qed.

End Lift.

Lemma hist_order_run_system (env : Env) (evs : list event) (st : State) :
  hist_order 0 0 0 st -> hist_order 0 0 0 (run_system env evs st).
Proof.
  apply lift_run_system.
  - intros st1 st2. apply hist_order_view.
  - apply hkeeps_time_monotonic.
  - apply hkeeps_send.
Qed.

(** The observations come in order and only for messages that passed
    the limiter.  After any [accept] calls and turns from the start,
    whatever the collaborators do, there are at most as many attempt
    observations as send-time observations, at most as many of these as
    lag observations, and at most as many of these as messages that
    passed the limiter. *)
Theorem observations_in_order (env : Env) (q : SendQueue) (evs : list event) :
  let st := thread (run_system env evs (boot env q)) in
  (length (attempt_histogram st) <= length (send_time_histogram st))%nat /\
  (length (send_time_histogram st) <= length (lag_histogram st))%nat /\
  Z.of_nat (length (lag_histogram st))
    <= sends_started (run_system env evs (boot env q)).
Proof.
  intros st.
  destruct (hist_order_run_system env evs (boot env q)) as (Ha & Ht & Hl).
  { unfold hist_order. simpl. unfold sends_started. simpl. lia. }
  subst st. lia.
Qed.

(** ** The account of the tokens *)

Section TokenAccount.

Variable env : Env.
Hypothesis Hmono : clock_monotone env.
Variable B : Z.

Let I (st : State) : Prop := limiter_inv env st /\ token_account B st.

(** Between taking the token and logging "Sending": one more is taken
    than counted. *)
Let shifted (st : State) : Prop :=
  limiter_inv env st /\
  let rl := rate_limiter (thread st) in
  let s := inject_Z (sends_started st) in
  bucket_size rl = B /\
  (inject_Z B <= available rl + (s + 1))%Q /\
  0 <= rate_limited (thread st) /\
  (0 < rate_limited (thread st) -> B <= sends_started st).

Lemma account_view st st' : view st' = view st -> I st -> I st'.
Proof.
  unfold view, I, limiter_inv, token_account. intros Hv H.
  injection Hv as -> -> _ _ _ -> ->. exact H.
Qed.

Lemma akeeps_time_monotonic : keeps I (time_monotonic env).
Proof.
  intros st [Hl Ha]. split; [apply (limiter_inv_clock env Hmono), Hl|exact Ha].
Qed.

Lemma ahoare_is_allowed :
  hoare I (is_allowed env)
    (fun r st => I st /\
       (r = Val true -> (1 <= available (rate_limiter (thread st)))%Q) /\
       (r = Val false -> (available (rate_limiter (thread st)) < 1)%Q)).
Proof.
  intros st [[Hb Ht] (HB & Hlo & Hc0 & Hc)].
  rewrite is_allowed_ok. simpl.
  destruct (is_allowed_at_spec _ _ Hb Ht)
    as (b & rl' & Heq & Hb' & Htick & HB' & HW' & Hle & Hgt & Hone & _).
  rewrite Heq. simpl.
  pose proof Hb as (Hw & Ha0 & Ha1).
  set (rl := rate_limiter (thread st)) in *.
  set (now := monotonic_at env (clock_reads (world st))) in *.
  assert (Hrefill : (0 <= (now - last_tick rl) * inject_Z (bucket_size rl)
                          / inject_Z (window_secs rl))%Q).
  { apply refill_nonneg; [lra|lra|apply inject_Z_pos, Hw]. }
  set (refill := ((now - last_tick rl) * inject_Z (bucket_size rl)
                  / inject_Z (window_secs rl))%Q) in *.
  assert (Hav : (available rl <= available rl')%Q).
  { destruct (Qlt_le_dec (inject_Z (bucket_size rl)) (available rl + refill))
      as [Hc1|Hc1].
    - rewrite (Hgt Hc1). lra.
    - rewrite (Hle Hc1). lra. }
  split; [split|split].
  - split; [exact Hb'|]. simpl. rewrite Htick. apply Hmono. lia.
  - unfold token_account. simpl.
    change (sends_started (with_thread _ _)) with (sends_started st).
    rewrite HB'. fold rl. rewrite HB in *.
    split; [reflexivity|].
    split; [lra|]. split; [exact Hc0|exact Hc].
  - intros Hr. injection Hr as ->. apply Hone. reflexivity.
  - intros Hr. injection Hr as ->.
    destruct (Qlt_le_dec (available rl') 1) as [H1|H1]; [exact H1|].
    apply Hone in H1. discriminate.
Qed.

Lemma akeeps_send item : keeps I (send env item).
Proof.
  unfold send, keeps.
  eapply hoare_bind; [apply ahoare_is_allowed| |intros e st [H _]; exact H
                     |intros st [H _]; exact H].
  intros [|]; simpl.
  - (* allowed: the token, the clock, the "Sending" record *)
    apply hoare_bind with
      (R := fun r st => match r with Val _ => shifted st | _ => False end).
    { apply hoare_modify.
      intros st ([[Hb Ht] (HB & Hlo & Hc0 & Hc)] & H1 & _).
      specialize (H1 eq_refl).
      split; [split; [apply take_token_ok; assumption|exact Ht]|].
      simpl. change (sends_started (with_thread _ st)) with (sends_started st).
      repeat split; try assumption; simpl; lra. }
    2:{ intros e st []. }
    2:{ intros st []. }
    intros _.
    apply hoare_bind with
      (R := fun r st => match r with Val _ => shifted st | _ => False end).
    { intros st [Hl Ha]. rewrite time_monotonic_ok.
      split; [apply (limiter_inv_clock env Hmono), Hl|exact Ha]. }
    2:{ intros e st []. }
    2:{ intros st []. }
    intros now.
    apply hoare_bind with (R := fun _ st => I st); [| |auto|auto].
    { apply hoare_modify. intros st [Hl (HB & Hlo & Hc0 & Hc)].
      split; [exact Hl|]. unfold token_account.
      rewrite sends_started_add_log. simpl.
      rewrite inject_Z_plus.
      repeat split; try assumption; try lra.
      intros Hpos. specialize (Hc Hpos). lia. }
    intros _.
    apply keeps_bind; [apply vkeeps_random_random, account_view|intros r].
    apply keeps_bind; [apply vkeeps_call, account_view|intros _].
    apply keeps_bind; [apply vkeeps_time_sleep, account_view|intros _].
    apply keeps_bind; [apply vkeeps_call, account_view|intros _].
    apply keeps_bind; [apply keeps_modify; intros st H; exact H|intros _].
    apply keeps_bind; [apply vkeeps_call, account_view|intros _].
    apply keeps_bind; [apply keeps_modify; intros st H; exact H|intros _].
    apply keeps_bind; [apply vkeeps_call, account_view|intros _].
    apply keeps_bind; [apply keeps_modify; intros st H; exact H|intros _].
    apply keeps_ret.
  - (* refused *)
    apply hoare_bind with
      (R := fun _ st => I st /\ (available (rate_limiter (thread st)) < 1)%Q).
    { intros st (H & _ & H0). specialize (H0 eq_refl).
      pose proof (vkeeps_call env I account_view CounterInc st H) as Hk.
      split; [exact Hk|]. unfold call.
      destruct (fault env CounterInc (calls (world st))); exact H0. }
    2:{ intros e st [H _]. exact H. }
    2:{ intros st [H _]. exact H. }
    intros _.
    apply hoare_bind with (R := fun _ st => I st); [| |auto|auto].
    { apply hoare_modify. intros st [[Hl (HB & Hlo & Hc0 & Hc)] Hlt].
      split; [exact Hl|]. unfold token_account. simpl.
      change (sends_started (with_thread _ st)) with (sends_started st).
      repeat split; try assumption; try lia.
      intros _.
      assert (Hq : (inject_Z B < inject_Z (sends_started st + 1))%Q).
      { rewrite inject_Z_plus. change (inject_Z 1) with 1%Q. lra. }
      rewrite <- Zlt_Qlt in Hq. lia. }
    intros _. apply keeps_ret.
Qed.

Lemma account_run_system evs st : I st -> I (run_system env evs st).
Proof.
  apply lift_run_system.
  - intros st1 st2. apply account_view.
  - apply akeeps_time_monotonic.
  - apply akeeps_send.
Qed.

End TokenAccount.

Lemma boot_token_account (env : Env) (q : SendQueue) :
  clock_monotone env ->
  limiter_inv env (boot env q) /\ token_account 10 (boot env q).
Proof.
  intros Hmono. split.
  - apply boot_limiter_inv, Hmono.
  - unfold token_account. simpl.
    change (sends_started (boot env q)) with 0.
    split; [reflexivity|].
    split; [unfold Qle; simpl; lia|lia].
Qed.

(** Tokens are spent only on messages that pass the limiter, one
    each: with a clock that never goes back, the tokens left plus the
    "Sending" records are never fewer than the ten of the full bucket, the
    [rate_limited] counter is never negative, and no message is refused
    before ten have passed. *)
Theorem first_refusal_after_burst (env : Env) (Hmono : clock_monotone env)
    (q : SendQueue) (evs : list event) :
  let st := run_system env evs (boot env q) in
  (10 <= available (rate_limiter (thread st)) + inject_Z (sends_started st))%Q /\
  0 <= rate_limited (thread st) /\
  (0 < rate_limited (thread st) -> 10 <= sends_started st).
Proof.
  intros st.
  destruct (account_run_system env Hmono 10 evs
              (boot env q) (boot_token_account env q Hmono))
    as [_ (_ & Hlo & Hc0 & Hc)].
  fold st in Hlo, Hc0, Hc.
  split; [exact Hlo|]. split; [exact Hc0|exact Hc].
Qed.

Lemma first_refusal_after_burst_witness :
  let st := run_system quiet_env [Accept 0 "a"; Accept 0 "b"; Turn; Turn]
              (boot quiet_env (SendQueue_init 100)) in
  (10 <= available (rate_limiter (thread st)) + inject_Z (sends_started st))%Q /\
  0 <= rate_limited (thread st) /\
  (0 < rate_limited (thread st) -> 10 <= sends_started st).
Proof.
  exact (first_refusal_after_burst quiet_env quiet_env_clock (SendQueue_init 100)
           [Accept 0 "a"; Accept 0 "b"; Turn; Turn]).
Defined.

(** Asking the limiter spends nothing: [is_allowed] only refills.  A
    call never lowers [available], and asking again at the same instant
    gives the same answer and leaves the limiter as the first call left
    it. *)
Theorem asking_the_limiter_spends_nothing (rl : RateLimiter) (now : Q)
    (Hok : bucket_ok rl) (Hnow : (last_tick rl <= now)%Q) :
  let once := is_allowed_at rl now in
  let twice := is_allowed_at (snd once) now in
  (available rl <= available (snd once))%Q /\
  fst twice = fst once /\
  (available (snd twice) == available (snd once))%Q /\
  last_tick (snd twice) = last_tick (snd once) /\
  bucket_size (snd twice) = bucket_size (snd once) /\
  window_secs (snd twice) = window_secs (snd once).
Proof.
  intros once twice. subst twice once.
  destruct (is_allowed_at_spec rl now Hok Hnow)
    as (b1 & rl1 & E1 & Hok1 & L1 & B1 & W1 & Hle1 & Hgt1 & Hone1 & _).
  rewrite E1. simpl snd. simpl fst.
  assert (Hnow1 : (last_tick rl1 <= now)%Q) by (rewrite L1; apply Qle_refl).
  destruct (is_allowed_at_spec rl1 now Hok1 Hnow1)
    as (b2 & rl2 & E2 & _ & L2 & B2 & W2 & Hle2 & _ & Hone2 & _).
  rewrite E2. simpl.
  pose proof Hok as (Hw & Ha0 & Ha1).
  pose proof Hok1 as (Hw1 & Hb0 & Hb1).
  assert (Hr : (0 <= (now - last_tick rl) * inject_Z (bucket_size rl)
                     / inject_Z (window_secs rl))%Q).
  { apply refill_nonneg; [lra|lra|apply inject_Z_pos, Hw]. }
  assert (Hup : (available rl <= available rl1)%Q).
  { destruct (Qlt_le_dec (inject_Z (bucket_size rl))
                (available rl + (now - last_tick rl) * inject_Z (bucket_size rl)
                                / inject_Z (window_secs rl))) as [H|H];
      [rewrite (Hgt1 H)|rewrite (Hle1 H)]; lra. }
  assert (Hz : ((now - last_tick rl1) * inject_Z (bucket_size rl1)
                / inject_Z (window_secs rl1) == 0)%Q).
  { rewrite L1. unfold Qdiv. ring. }
  assert (Hav : (available rl2 == available rl1)%Q).
  { rewrite Hle2; [rewrite Hz; ring|]. rewrite Hz. lra. }
  split; [exact Hup|].
  split; [|split; [exact Hav|split; [congruence|split; congruence]]].
  f_equal.
  destruct b1, b2; try reflexivity; exfalso.
  - assert (H : (1 <= available rl1)%Q) by (apply Hone1; reflexivity).
    rewrite <- Hav in H. apply Hone2 in H. discriminate.
  - assert (H : (1 <= available rl2)%Q) by (apply Hone2; reflexivity).
    rewrite Hav in H. apply Hone1 in H. discriminate.
Qed.

Lemma asking_the_limiter_spends_nothing_witness :
  let rl := mkRateLimiter 10 0 3 5 in
  let once := is_allowed_at rl 2 in
  let twice := is_allowed_at (snd once) 2 in
  (available rl <= available (snd once))%Q /\
  fst twice = fst once /\
  (available (snd twice) == available (snd once))%Q /\
  last_tick (snd twice) = last_tick (snd once) /\
  bucket_size (snd twice) = bucket_size (snd once) /\
  window_secs (snd twice) = window_secs (snd once).
Proof.
  refine (asking_the_limiter_spends_nothing (mkRateLimiter 10 0 3 5) 2 _ _).
  - unfold bucket_ok; simpl. split; [lia|]. split; unfold Qle; simpl; lia.
  - unfold Qle; simpl; lia.
Defined.
